(** * HotStuffCore: a shallow embedding of the replication state machine

    The development follows [HotStuffCore] (consensus.h and its
    implementation file): blocks are shared heap objects reached through
    handles, the core is a record of its member variables, every handler is
    a function in a small state-and-exception monad, and the virtual [do_*]
    outputs are recorded as a trace of events.  Logging macros are left
    out. *)

From stdpp Require Import gmap list strings sorting.
From Stdlib Require Import NArith ZArith.

Open Scope N_scope.

(** ** Basic types *)

(** [uint256_t]: hashes are compared and used as map keys only. *)
Definition uint256_t := N.
(** [ReplicaID] (u16 or u32 on the wire). *)
Definition ReplicaID := N.
(** A non-null [block_t]: the address of a shared [Block] object.  Fields
    and results that may hold [nullptr] have type [option addr]. *)
Definition addr := N.
(** A [promise_t] handle. *)
Definition promise_t := N.

Definition uint32_max : N := 2 ^ 32.
Definition size_max : N := 2 ^ 64.

(** Timer durations are [k * config.delta] for a small constant [k]; the
    product on doubles is kept symbolic. *)
Record duration := Times { factor : N; unit_delta : QArith_base.Q }.

(** ** Certificates *)

(** Modelled from the spec: crypto.h is not part of the sources.  A
    [PartCert(signer, obj_hash)] attests that the holder of a key authorised
    [obj_hash]; a [QuorumCert(obj_hash, signers)] accumulates parts with
    [add_part] and is finalised by [compute]. *)
Module PartCert.
Record t := mk { priv_key : N; obj_hash : uint256_t }.
End PartCert.

Module QuorumCert.
Record t := mk {
    obj_hash : uint256_t;
    parts : list (ReplicaID * PartCert.t);
    computed : bool }.
Definition add_part (rid : ReplicaID) (pc : PartCert.t) (q : t) : t :=
    mk (obj_hash q) (parts q ++ [(rid, pc)]) (computed q).
Definition compute (q : t) : t := mk (obj_hash q) (parts q) true.
Definition clone (q : t) : t := q.
End QuorumCert.

Definition part_cert_bt := option PartCert.t.
Definition quorum_cert_bt := option QuorumCert.t.

(** [create_part_cert] and [create_quorum_cert] (pure virtual in the core). *)
Definition create_part_cert (priv_key : N) (h : uint256_t) : part_cert_bt :=
  Some (PartCert.mk priv_key h).
Definition create_quorum_cert (h : uint256_t) : quorum_cert_bt :=
  Some (QuorumCert.mk h [] false).

(** ** Hashing *)

(** The content of a block that its hash is computed from. *)
Record BlockData := {
  bd_parent_hashes : list uint256_t;
  bd_cmds : list uint256_t;
  bd_qc : quorum_cert_bt;
  bd_qc_ref_hash : uint256_t;
  bd_extra : list N;
  bd_height : N }.

(** [DataStream] and its hash (util.h, type.h) are not part of the sources;
    they are parameters of the model.  [ds_hash tag payload] stands for
    [DataStream p; p << (uint8_t)tag << payload; p.get_hash()] and
    [block_digest] for the hash of a serialised block. *)
Record Hashing := {
  ds_hash : N -> N -> uint256_t;
  block_digest : BlockData -> uint256_t }.

Module ProofType.
Definition VOTE : N := 0.
Definition BLAME : N := 1.
Definition PROPAGATE : N := 2.
Definition PRE_COMMIT : N := 3.
End ProofType.

Module PropagateType.
Definition BLOCK : N := 0.
End PropagateType.

(** ** Messages *)

Module Proposal.
Record t := mk { proposer : ReplicaID; blk : addr }.
End Proposal.

Module Vote.
Record t := mk { voter : ReplicaID; blk_hash : uint256_t; cert : part_cert_bt }.
Definition proof_obj_hash (H : Hashing) (blk_hash : uint256_t) : uint256_t :=
    ds_hash H ProofType.VOTE blk_hash.
End Vote.

Module Notify.
Record t := mk { blk_hash : uint256_t; qc : quorum_cert_bt }.
End Notify.

Module Blame.
Record t := mk { blamer : ReplicaID; view : N; cert : part_cert_bt }.
Definition proof_obj_hash (H : Hashing) (view : N) : uint256_t :=
    ds_hash H ProofType.BLAME view.
End Blame.

Module BlameNotify.
Record t := mk {
    view : N; hqc_hash : uint256_t; hqc_qc : quorum_cert_bt; qc : quorum_cert_bt }.
End BlameNotify.

Module Finality.
Record t := mk {
    rid : ReplicaID; decision : Z; cmd_idx : N; cmd_height : N;
    cmd_hash : uint256_t; blk_hash : uint256_t }.
End Finality.

Module Echo.
Record t := mk {
    rid : ReplicaID; blk_hash : uint256_t; opcode : N; cert : part_cert_bt }.
Definition proof_obj_hash (H : Hashing) (msg_hash : uint256_t) : uint256_t :=
    ds_hash H ProofType.PROPAGATE msg_hash.
End Echo.

Module Ack.
Record t := mk {
    rid : ReplicaID; blk_hash : uint256_t; opcode : N; cert : part_cert_bt }.
Definition proof_obj_hash (H : Hashing) (msg_hash : uint256_t) : uint256_t :=
    ds_hash H ProofType.PROPAGATE msg_hash.
End Ack.

Module PreCommit.
Record t := mk { rid : ReplicaID; blk_hash : uint256_t; cert : part_cert_bt }.
Definition proof_obj_hash (H : Hashing) (msg_hash : uint256_t) : uint256_t :=
    ds_hash H ProofType.PRE_COMMIT msg_hash.
End PreCommit.

(** ** Outputs of the state machine *)

(** One constructor per virtual output the core calls. *)
Inductive Event :=
| do_decide (fin : Finality.t)
| do_consensus (blk : addr)
| do_broadcast_proposal (prop : Proposal.t)
| do_broadcast_vote (vote : Vote.t)
| do_broadcast_blame (blame : Blame.t)
| do_broadcast_blamenotify (bn : BlameNotify.t)
| do_notify (notify : Notify.t)
| set_blame_timer (t_sec : duration)
| stop_commit_timer_all
| stop_blame_timer
| set_viewtrans_timer (t_sec : duration)
| do_broadcast_echo (echo : Echo.t)
| set_propagate_timer (echo : Echo.t) (t_sec : duration)
| do_send_echo (echo : Echo.t) (dest : ReplicaID)
| do_multicast_ack (ack : Ack.t) (dests : gset ReplicaID)
| do_send_ack (ack : Ack.t) (dest : ReplicaID)
| set_ack_timer (ack : Ack.t) (t_sec : duration)
| do_broadcast_pre_commit (pre_commit : PreCommit.t)
| set_pre_commit_timer (blk : addr) (t_sec : duration).

(** ** Blocks *)

(** Modelled from the spec: the [Block] class (entity.h) is not part of the
    sources; its fields are those of the data model and those the core
    reads and writes.  [parents], [qc_ref], [self_qc], [height],
    [delivered], [decision], [voted] and [preCommitted] are mutable. *)
Record Block := Build_Block {
  parent_hashes : list uint256_t;
  cmds : list uint256_t;
  qc : quorum_cert_bt;
  qc_ref_hash : uint256_t;
  extra : list N;
  hash : uint256_t;
  parents : list addr;
  qc_ref : option addr;
  self_qc : quorum_cert_bt;
  height : N;
  delivered : bool;
  decision : Z;
  voted : gset ReplicaID;
  preCommitted : gset ReplicaID }.

Definition with_qc (x : quorum_cert_bt) (s : Block) : Block :=
  Build_Block (parent_hashes s) (cmds s) x (qc_ref_hash s) (extra s) (hash s)
    (parents s) (qc_ref s) (self_qc s) (height s) (delivered s) (decision s)
    (voted s) (preCommitted s).
Definition with_parents (x : list addr) (s : Block) : Block :=
  Build_Block (parent_hashes s) (cmds s) (qc s) (qc_ref_hash s) (extra s)
    (hash s) x (qc_ref s) (self_qc s) (height s) (delivered s) (decision s)
    (voted s) (preCommitted s).
Definition with_qc_ref (x : option addr) (s : Block) : Block :=
  Build_Block (parent_hashes s) (cmds s) (qc s) (qc_ref_hash s) (extra s)
    (hash s) (parents s) x (self_qc s) (height s) (delivered s) (decision s)
    (voted s) (preCommitted s).
Definition with_self_qc (x : quorum_cert_bt) (s : Block) : Block :=
  Build_Block (parent_hashes s) (cmds s) (qc s) (qc_ref_hash s) (extra s)
    (hash s) (parents s) (qc_ref s) x (height s) (delivered s) (decision s)
    (voted s) (preCommitted s).
Definition with_height (x : N) (s : Block) : Block :=
  Build_Block (parent_hashes s) (cmds s) (qc s) (qc_ref_hash s) (extra s)
    (hash s) (parents s) (qc_ref s) (self_qc s) x (delivered s) (decision s)
    (voted s) (preCommitted s).
Definition with_delivered (x : bool) (s : Block) : Block :=
  Build_Block (parent_hashes s) (cmds s) (qc s) (qc_ref_hash s) (extra s)
    (hash s) (parents s) (qc_ref s) (self_qc s) (height s) x (decision s)
    (voted s) (preCommitted s).
Definition with_decision (x : Z) (s : Block) : Block :=
  Build_Block (parent_hashes s) (cmds s) (qc s) (qc_ref_hash s) (extra s)
    (hash s) (parents s) (qc_ref s) (self_qc s) (height s) (delivered s) x
    (voted s) (preCommitted s).
Definition with_voted (x : gset ReplicaID) (s : Block) : Block :=
  Build_Block (parent_hashes s) (cmds s) (qc s) (qc_ref_hash s) (extra s)
    (hash s) (parents s) (qc_ref s) (self_qc s) (height s) (delivered s)
    (decision s) x (preCommitted s).
Definition with_preCommitted (x : gset ReplicaID) (s : Block) : Block :=
  Build_Block (parent_hashes s) (cmds s) (qc s) (qc_ref_hash s) (extra s)
    (hash s) (parents s) (qc_ref s) (self_qc s) (height s) (delivered s)
    (decision s) (voted s) x.

Definition get_hash (b : Block) : uint256_t := hash b.
Definition get_height (b : Block) : N := height b.

(** Modelled from the spec: the genesis constructor [Block(true, 1)]:
    delivered, decided, height 0, no parents. *)
Definition Block_genesis (H : Hashing) : Block :=
  Build_Block [] [] None 0 []
    (block_digest H (Build_BlockData [] [] None 0 [] 0))
    [] None None 0 true 1%Z ∅ ∅.

(** Modelled from the spec: the constructor used by [on_propose],
    [Block(parents, cmds, qc, extra, height, qc_ref, self_qc)], given the
    hashes of [parents] and of [qc_ref]; the new block is undelivered and
    undecided. *)
Definition Block_new (H : Hashing) (parents : list addr)
    (parent_hashes cmds : list uint256_t) (qc : quorum_cert_bt)
    (extra : list N) (height : N) (qc_ref : option addr)
    (qc_ref_hash : uint256_t) (self_qc : quorum_cert_bt) : Block :=
  Build_Block parent_hashes cmds qc qc_ref_hash extra
    (block_digest H
       (Build_BlockData parent_hashes cmds qc qc_ref_hash extra height))
    parents qc_ref self_qc height false 0%Z ∅ ∅.

(** Modelled from the spec: a block unserialised from the wire carries
    [{parent_hashes, cmds, qc?, qc_ref_hash?, extra, height}]; its handles
    are filled in by delivery. *)
Definition Block_of_wire (H : Hashing) (d : BlockData) : Block :=
  Build_Block (bd_parent_hashes d) (bd_cmds d) (bd_qc d) (bd_qc_ref_hash d)
    (bd_extra d) (block_digest H d) [] None None (bd_height d) false 0%Z ∅ ∅.

(** ** Replica configuration *)

Record ReplicaInfo := {
  ri_id : ReplicaID; ri_addr : N; ri_pubkey : N }.

(** Modelled from the spec: [ReplicaConfig] (entity.h) holds [nreplicas],
    the derived [nmajority], [delta] and the replica set; its
    [add_replica] registers the replica and counts it. *)
Module ReplicaConfig.
Record t := mk {
    replica_map : gmap ReplicaID ReplicaInfo;
    nreplicas : N;
    nmajority : N;
    delta : QArith_base.Q }.
Definition add_replica (rid : ReplicaID) (info : ReplicaInfo) (c : t) : t :=
    mk (<[rid := info]> (replica_map c)) ((nreplicas c + 1) mod size_max)
       (nmajority c) (delta c).
Definition empty : t := mk ∅ 0 0 (QArith_base.Qmake 0 1).
End ReplicaConfig.
Definition ReplicaConfig := ReplicaConfig.t.

(** ** Promises *)

(** A promise is pending or resolved with a value; handles share the
    promise they point to. *)
Inductive pm_value := pm_void | pm_proposal (prop : Proposal.t).
Inductive pm_state := pm_pending | pm_resolved (v : pm_value).

(** ** The core *)

(** The member variables of [HotStuffCore].  [heap] holds the shared
    [Block] objects; [storage] is the content-addressed index of
    [EntityStorage]; [promises] holds the promise objects; [out] is the trace of outputs.  [commit_interval],
    [proposer] (the answer of [get_proposer()]), [propagate_timeout] and
    [ack_timeout] (the answers of [is_propagate_timeout] and
    [is_ack_timeout]) are supplied by the host. *)
Record HotStuffCore := Build_HotStuffCore {
  hashing : Hashing;
  heap : gmap addr Block;
  storage : gmap uint256_t addr;
  b0 : addr;
  hqc : option addr * quorum_cert_bt;
  b_exec : addr;
  vheight : N;
  view : N;
  view_trans : bool;
  proposals : gmap N (gset addr);
  finished_propose : gmap addr bool;
  blame_qc : quorum_cert_bt;
  blamed : gset ReplicaID;
  last_qc_ref : option addr;
  priv_key : N;
  tails : gmap N addr;
  config : ReplicaConfig;
  qc_waiting : gmap addr promise_t;
  propose_waiting : promise_t;
  receive_proposal_waiting : promise_t;
  hqc_update_waiting : promise_t;
  view_change_waiting : promise_t;
  view_trans_waiting : promise_t;
  vote_disabled : bool;
  hsc_id : ReplicaID;
  propagate_echos : gmap uint256_t (gset ReplicaID);
  propagate_acks : gmap uint256_t (gset ReplicaID);
  promises : gmap promise_t pm_state;
  commit_interval : N;
  proposer : ReplicaID;
  propagate_timeout : gset uint256_t;
  ack_timeout : gset uint256_t;
  out : list Event }.

Definition with_heap (x : gmap addr Block) (s : HotStuffCore) : HotStuffCore :=
  Build_HotStuffCore (hashing s) x (storage s) (b0 s) (hqc s) (b_exec s)
    (vheight s) (view s) (view_trans s) (proposals s) (finished_propose s)
    (blame_qc s) (blamed s) (last_qc_ref s) (priv_key s) (tails s) (config s)
    (qc_waiting s) (propose_waiting s) (receive_proposal_waiting s)
    (hqc_update_waiting s) (view_change_waiting s) (view_trans_waiting s)
    (vote_disabled s) (hsc_id s) (propagate_echos s) (propagate_acks s)
    (promises s) (commit_interval s) (proposer s) (propagate_timeout s)
    (ack_timeout s) (out s).
Definition with_storage (x : gmap uint256_t addr) (s : HotStuffCore) : HotStuffCore :=
  Build_HotStuffCore (hashing s) (heap s) x (b0 s) (hqc s) (b_exec s) (vheight
    s) (view s) (view_trans s) (proposals s) (finished_propose s) (blame_qc s)
    (blamed s) (last_qc_ref s) (priv_key s) (tails s) (config s) (qc_waiting
    s) (propose_waiting s) (receive_proposal_waiting s) (hqc_update_waiting s)
    (view_change_waiting s) (view_trans_waiting s) (vote_disabled s) (hsc_id
    s) (propagate_echos s) (propagate_acks s) (promises s) (commit_interval s)
    (proposer s) (propagate_timeout s) (ack_timeout s) (out s).
Definition with_hqc (x : option addr * quorum_cert_bt) (s : HotStuffCore) : HotStuffCore :=
  Build_HotStuffCore (hashing s) (heap s) (storage s) (b0 s) x (b_exec s)
    (vheight s) (view s) (view_trans s) (proposals s) (finished_propose s)
    (blame_qc s) (blamed s) (last_qc_ref s) (priv_key s) (tails s) (config s)
    (qc_waiting s) (propose_waiting s) (receive_proposal_waiting s)
    (hqc_update_waiting s) (view_change_waiting s) (view_trans_waiting s)
    (vote_disabled s) (hsc_id s) (propagate_echos s) (propagate_acks s)
    (promises s) (commit_interval s) (proposer s) (propagate_timeout s)
    (ack_timeout s) (out s).
Definition with_b_exec (x : addr) (s : HotStuffCore) : HotStuffCore :=
  Build_HotStuffCore (hashing s) (heap s) (storage s) (b0 s) (hqc s) x
    (vheight s) (view s) (view_trans s) (proposals s) (finished_propose s)
    (blame_qc s) (blamed s) (last_qc_ref s) (priv_key s) (tails s) (config s)
    (qc_waiting s) (propose_waiting s) (receive_proposal_waiting s)
    (hqc_update_waiting s) (view_change_waiting s) (view_trans_waiting s)
    (vote_disabled s) (hsc_id s) (propagate_echos s) (propagate_acks s)
    (promises s) (commit_interval s) (proposer s) (propagate_timeout s)
    (ack_timeout s) (out s).
Definition with_vheight (x : N) (s : HotStuffCore) : HotStuffCore :=
  Build_HotStuffCore (hashing s) (heap s) (storage s) (b0 s) (hqc s) (b_exec
    s) x (view s) (view_trans s) (proposals s) (finished_propose s) (blame_qc
    s) (blamed s) (last_qc_ref s) (priv_key s) (tails s) (config s)
    (qc_waiting s) (propose_waiting s) (receive_proposal_waiting s)
    (hqc_update_waiting s) (view_change_waiting s) (view_trans_waiting s)
    (vote_disabled s) (hsc_id s) (propagate_echos s) (propagate_acks s)
    (promises s) (commit_interval s) (proposer s) (propagate_timeout s)
    (ack_timeout s) (out s).
Definition with_view (x : N) (s : HotStuffCore) : HotStuffCore :=
  Build_HotStuffCore (hashing s) (heap s) (storage s) (b0 s) (hqc s) (b_exec
    s) (vheight s) x (view_trans s) (proposals s) (finished_propose s)
    (blame_qc s) (blamed s) (last_qc_ref s) (priv_key s) (tails s) (config s)
    (qc_waiting s) (propose_waiting s) (receive_proposal_waiting s)
    (hqc_update_waiting s) (view_change_waiting s) (view_trans_waiting s)
    (vote_disabled s) (hsc_id s) (propagate_echos s) (propagate_acks s)
    (promises s) (commit_interval s) (proposer s) (propagate_timeout s)
    (ack_timeout s) (out s).
Definition with_view_trans (x : bool) (s : HotStuffCore) : HotStuffCore :=
  Build_HotStuffCore (hashing s) (heap s) (storage s) (b0 s) (hqc s) (b_exec
    s) (vheight s) (view s) x (proposals s) (finished_propose s) (blame_qc s)
    (blamed s) (last_qc_ref s) (priv_key s) (tails s) (config s) (qc_waiting
    s) (propose_waiting s) (receive_proposal_waiting s) (hqc_update_waiting s)
    (view_change_waiting s) (view_trans_waiting s) (vote_disabled s) (hsc_id
    s) (propagate_echos s) (propagate_acks s) (promises s) (commit_interval s)
    (proposer s) (propagate_timeout s) (ack_timeout s) (out s).
Definition with_proposals (x : gmap N (gset addr)) (s : HotStuffCore) : HotStuffCore :=
  Build_HotStuffCore (hashing s) (heap s) (storage s) (b0 s) (hqc s) (b_exec
    s) (vheight s) (view s) (view_trans s) x (finished_propose s) (blame_qc s)
    (blamed s) (last_qc_ref s) (priv_key s) (tails s) (config s) (qc_waiting
    s) (propose_waiting s) (receive_proposal_waiting s) (hqc_update_waiting s)
    (view_change_waiting s) (view_trans_waiting s) (vote_disabled s) (hsc_id
    s) (propagate_echos s) (propagate_acks s) (promises s) (commit_interval s)
    (proposer s) (propagate_timeout s) (ack_timeout s) (out s).
Definition with_finished_propose (x : gmap addr bool) (s : HotStuffCore) : HotStuffCore :=
  Build_HotStuffCore (hashing s) (heap s) (storage s) (b0 s) (hqc s) (b_exec
    s) (vheight s) (view s) (view_trans s) (proposals s) x (blame_qc s)
    (blamed s) (last_qc_ref s) (priv_key s) (tails s) (config s) (qc_waiting
    s) (propose_waiting s) (receive_proposal_waiting s) (hqc_update_waiting s)
    (view_change_waiting s) (view_trans_waiting s) (vote_disabled s) (hsc_id
    s) (propagate_echos s) (propagate_acks s) (promises s) (commit_interval s)
    (proposer s) (propagate_timeout s) (ack_timeout s) (out s).
Definition with_blame_qc (x : quorum_cert_bt) (s : HotStuffCore) : HotStuffCore :=
  Build_HotStuffCore (hashing s) (heap s) (storage s) (b0 s) (hqc s) (b_exec
    s) (vheight s) (view s) (view_trans s) (proposals s) (finished_propose s)
    x (blamed s) (last_qc_ref s) (priv_key s) (tails s) (config s) (qc_waiting
    s) (propose_waiting s) (receive_proposal_waiting s) (hqc_update_waiting s)
    (view_change_waiting s) (view_trans_waiting s) (vote_disabled s) (hsc_id
    s) (propagate_echos s) (propagate_acks s) (promises s) (commit_interval s)
    (proposer s) (propagate_timeout s) (ack_timeout s) (out s).
Definition with_blamed (x : gset ReplicaID) (s : HotStuffCore) : HotStuffCore :=
  Build_HotStuffCore (hashing s) (heap s) (storage s) (b0 s) (hqc s) (b_exec
    s) (vheight s) (view s) (view_trans s) (proposals s) (finished_propose s)
    (blame_qc s) x (last_qc_ref s) (priv_key s) (tails s) (config s)
    (qc_waiting s) (propose_waiting s) (receive_proposal_waiting s)
    (hqc_update_waiting s) (view_change_waiting s) (view_trans_waiting s)
    (vote_disabled s) (hsc_id s) (propagate_echos s) (propagate_acks s)
    (promises s) (commit_interval s) (proposer s) (propagate_timeout s)
    (ack_timeout s) (out s).
Definition with_last_qc_ref (x : option addr) (s : HotStuffCore) : HotStuffCore :=
  Build_HotStuffCore (hashing s) (heap s) (storage s) (b0 s) (hqc s) (b_exec
    s) (vheight s) (view s) (view_trans s) (proposals s) (finished_propose s)
    (blame_qc s) (blamed s) x (priv_key s) (tails s) (config s) (qc_waiting s)
    (propose_waiting s) (receive_proposal_waiting s) (hqc_update_waiting s)
    (view_change_waiting s) (view_trans_waiting s) (vote_disabled s) (hsc_id
    s) (propagate_echos s) (propagate_acks s) (promises s) (commit_interval s)
    (proposer s) (propagate_timeout s) (ack_timeout s) (out s).
Definition with_tails (x : gmap N addr) (s : HotStuffCore) : HotStuffCore :=
  Build_HotStuffCore (hashing s) (heap s) (storage s) (b0 s) (hqc s) (b_exec
    s) (vheight s) (view s) (view_trans s) (proposals s) (finished_propose s)
    (blame_qc s) (blamed s) (last_qc_ref s) (priv_key s) x (config s)
    (qc_waiting s) (propose_waiting s) (receive_proposal_waiting s)
    (hqc_update_waiting s) (view_change_waiting s) (view_trans_waiting s)
    (vote_disabled s) (hsc_id s) (propagate_echos s) (propagate_acks s)
    (promises s) (commit_interval s) (proposer s) (propagate_timeout s)
    (ack_timeout s) (out s).
Definition with_config (x : ReplicaConfig) (s : HotStuffCore) : HotStuffCore :=
  Build_HotStuffCore (hashing s) (heap s) (storage s) (b0 s) (hqc s) (b_exec
    s) (vheight s) (view s) (view_trans s) (proposals s) (finished_propose s)
    (blame_qc s) (blamed s) (last_qc_ref s) (priv_key s) (tails s) x
    (qc_waiting s) (propose_waiting s) (receive_proposal_waiting s)
    (hqc_update_waiting s) (view_change_waiting s) (view_trans_waiting s)
    (vote_disabled s) (hsc_id s) (propagate_echos s) (propagate_acks s)
    (promises s) (commit_interval s) (proposer s) (propagate_timeout s)
    (ack_timeout s) (out s).
Definition with_qc_waiting (x : gmap addr promise_t) (s : HotStuffCore) : HotStuffCore :=
  Build_HotStuffCore (hashing s) (heap s) (storage s) (b0 s) (hqc s) (b_exec
    s) (vheight s) (view s) (view_trans s) (proposals s) (finished_propose s)
    (blame_qc s) (blamed s) (last_qc_ref s) (priv_key s) (tails s) (config s)
    x (propose_waiting s) (receive_proposal_waiting s) (hqc_update_waiting s)
    (view_change_waiting s) (view_trans_waiting s) (vote_disabled s) (hsc_id
    s) (propagate_echos s) (propagate_acks s) (promises s) (commit_interval s)
    (proposer s) (propagate_timeout s) (ack_timeout s) (out s).
Definition with_propose_waiting (x : promise_t) (s : HotStuffCore) : HotStuffCore :=
  Build_HotStuffCore (hashing s) (heap s) (storage s) (b0 s) (hqc s) (b_exec
    s) (vheight s) (view s) (view_trans s) (proposals s) (finished_propose s)
    (blame_qc s) (blamed s) (last_qc_ref s) (priv_key s) (tails s) (config s)
    (qc_waiting s) x (receive_proposal_waiting s) (hqc_update_waiting s)
    (view_change_waiting s) (view_trans_waiting s) (vote_disabled s) (hsc_id
    s) (propagate_echos s) (propagate_acks s) (promises s) (commit_interval s)
    (proposer s) (propagate_timeout s) (ack_timeout s) (out s).
Definition with_receive_proposal_waiting (x : promise_t) (s : HotStuffCore) : HotStuffCore :=
  Build_HotStuffCore (hashing s) (heap s) (storage s) (b0 s) (hqc s) (b_exec
    s) (vheight s) (view s) (view_trans s) (proposals s) (finished_propose s)
    (blame_qc s) (blamed s) (last_qc_ref s) (priv_key s) (tails s) (config s)
    (qc_waiting s) (propose_waiting s) x (hqc_update_waiting s)
    (view_change_waiting s) (view_trans_waiting s) (vote_disabled s) (hsc_id
    s) (propagate_echos s) (propagate_acks s) (promises s) (commit_interval s)
    (proposer s) (propagate_timeout s) (ack_timeout s) (out s).
Definition with_hqc_update_waiting (x : promise_t) (s : HotStuffCore) : HotStuffCore :=
  Build_HotStuffCore (hashing s) (heap s) (storage s) (b0 s) (hqc s) (b_exec
    s) (vheight s) (view s) (view_trans s) (proposals s) (finished_propose s)
    (blame_qc s) (blamed s) (last_qc_ref s) (priv_key s) (tails s) (config s)
    (qc_waiting s) (propose_waiting s) (receive_proposal_waiting s) x
    (view_change_waiting s) (view_trans_waiting s) (vote_disabled s) (hsc_id
    s) (propagate_echos s) (propagate_acks s) (promises s) (commit_interval s)
    (proposer s) (propagate_timeout s) (ack_timeout s) (out s).
Definition with_view_change_waiting (x : promise_t) (s : HotStuffCore) : HotStuffCore :=
  Build_HotStuffCore (hashing s) (heap s) (storage s) (b0 s) (hqc s) (b_exec
    s) (vheight s) (view s) (view_trans s) (proposals s) (finished_propose s)
    (blame_qc s) (blamed s) (last_qc_ref s) (priv_key s) (tails s) (config s)
    (qc_waiting s) (propose_waiting s) (receive_proposal_waiting s)
    (hqc_update_waiting s) x (view_trans_waiting s) (vote_disabled s) (hsc_id
    s) (propagate_echos s) (propagate_acks s) (promises s) (commit_interval s)
    (proposer s) (propagate_timeout s) (ack_timeout s) (out s).
Definition with_view_trans_waiting (x : promise_t) (s : HotStuffCore) : HotStuffCore :=
  Build_HotStuffCore (hashing s) (heap s) (storage s) (b0 s) (hqc s) (b_exec
    s) (vheight s) (view s) (view_trans s) (proposals s) (finished_propose s)
    (blame_qc s) (blamed s) (last_qc_ref s) (priv_key s) (tails s) (config s)
    (qc_waiting s) (propose_waiting s) (receive_proposal_waiting s)
    (hqc_update_waiting s) (view_change_waiting s) x (vote_disabled s) (hsc_id
    s) (propagate_echos s) (propagate_acks s) (promises s) (commit_interval s)
    (proposer s) (propagate_timeout s) (ack_timeout s) (out s).
Definition with_vote_disabled (x : bool) (s : HotStuffCore) : HotStuffCore :=
  Build_HotStuffCore (hashing s) (heap s) (storage s) (b0 s) (hqc s) (b_exec
    s) (vheight s) (view s) (view_trans s) (proposals s) (finished_propose s)
    (blame_qc s) (blamed s) (last_qc_ref s) (priv_key s) (tails s) (config s)
    (qc_waiting s) (propose_waiting s) (receive_proposal_waiting s)
    (hqc_update_waiting s) (view_change_waiting s) (view_trans_waiting s) x
    (hsc_id s) (propagate_echos s) (propagate_acks s) (promises s)
    (commit_interval s) (proposer s) (propagate_timeout s) (ack_timeout s)
    (out s).
Definition with_propagate_echos (x : gmap uint256_t (gset ReplicaID)) (s : HotStuffCore) : HotStuffCore :=
  Build_HotStuffCore (hashing s) (heap s) (storage s) (b0 s) (hqc s) (b_exec
    s) (vheight s) (view s) (view_trans s) (proposals s) (finished_propose s)
    (blame_qc s) (blamed s) (last_qc_ref s) (priv_key s) (tails s) (config s)
    (qc_waiting s) (propose_waiting s) (receive_proposal_waiting s)
    (hqc_update_waiting s) (view_change_waiting s) (view_trans_waiting s)
    (vote_disabled s) (hsc_id s) x (propagate_acks s) (promises s)
    (commit_interval s) (proposer s) (propagate_timeout s) (ack_timeout s)
    (out s).
Definition with_propagate_acks (x : gmap uint256_t (gset ReplicaID)) (s : HotStuffCore) : HotStuffCore :=
  Build_HotStuffCore (hashing s) (heap s) (storage s) (b0 s) (hqc s) (b_exec
    s) (vheight s) (view s) (view_trans s) (proposals s) (finished_propose s)
    (blame_qc s) (blamed s) (last_qc_ref s) (priv_key s) (tails s) (config s)
    (qc_waiting s) (propose_waiting s) (receive_proposal_waiting s)
    (hqc_update_waiting s) (view_change_waiting s) (view_trans_waiting s)
    (vote_disabled s) (hsc_id s) (propagate_echos s) x (promises s)
    (commit_interval s) (proposer s) (propagate_timeout s) (ack_timeout s)
    (out s).
Definition with_promises (x : gmap promise_t pm_state) (s : HotStuffCore) : HotStuffCore :=
  Build_HotStuffCore (hashing s) (heap s) (storage s) (b0 s) (hqc s) (b_exec
    s) (vheight s) (view s) (view_trans s) (proposals s) (finished_propose s)
    (blame_qc s) (blamed s) (last_qc_ref s) (priv_key s) (tails s) (config s)
    (qc_waiting s) (propose_waiting s) (receive_proposal_waiting s)
    (hqc_update_waiting s) (view_change_waiting s) (view_trans_waiting s)
    (vote_disabled s) (hsc_id s) (propagate_echos s) (propagate_acks s) x
    (commit_interval s) (proposer s) (propagate_timeout s) (ack_timeout s)
    (out s).
Definition with_proposer (x : ReplicaID) (s : HotStuffCore) : HotStuffCore :=
  Build_HotStuffCore (hashing s) (heap s) (storage s) (b0 s) (hqc s) (b_exec
    s) (vheight s) (view s) (view_trans s) (proposals s) (finished_propose s)
    (blame_qc s) (blamed s) (last_qc_ref s) (priv_key s) (tails s) (config s)
    (qc_waiting s) (propose_waiting s) (receive_proposal_waiting s)
    (hqc_update_waiting s) (view_change_waiting s) (view_trans_waiting s)
    (vote_disabled s) (hsc_id s) (propagate_echos s) (propagate_acks s)
    (promises s) (commit_interval s) x (propagate_timeout s) (ack_timeout s)
    (out s).
Definition with_propagate_timeout (x : gset uint256_t) (s : HotStuffCore) : HotStuffCore :=
  Build_HotStuffCore (hashing s) (heap s) (storage s) (b0 s) (hqc s) (b_exec
    s) (vheight s) (view s) (view_trans s) (proposals s) (finished_propose s)
    (blame_qc s) (blamed s) (last_qc_ref s) (priv_key s) (tails s) (config s)
    (qc_waiting s) (propose_waiting s) (receive_proposal_waiting s)
    (hqc_update_waiting s) (view_change_waiting s) (view_trans_waiting s)
    (vote_disabled s) (hsc_id s) (propagate_echos s) (propagate_acks s)
    (promises s) (commit_interval s) (proposer s) x (ack_timeout s) (out s).
Definition with_ack_timeout (x : gset uint256_t) (s : HotStuffCore) : HotStuffCore :=
  Build_HotStuffCore (hashing s) (heap s) (storage s) (b0 s) (hqc s) (b_exec
    s) (vheight s) (view s) (view_trans s) (proposals s) (finished_propose s)
    (blame_qc s) (blamed s) (last_qc_ref s) (priv_key s) (tails s) (config s)
    (qc_waiting s) (propose_waiting s) (receive_proposal_waiting s)
    (hqc_update_waiting s) (view_change_waiting s) (view_trans_waiting s)
    (vote_disabled s) (hsc_id s) (propagate_echos s) (propagate_acks s)
    (promises s) (commit_interval s) (proposer s) (propagate_timeout s) x (out
    s).
Definition with_out (x : list Event) (s : HotStuffCore) : HotStuffCore :=
  Build_HotStuffCore (hashing s) (heap s) (storage s) (b0 s) (hqc s) (b_exec
    s) (vheight s) (view s) (view_trans s) (proposals s) (finished_propose s)
    (blame_qc s) (blamed s) (last_qc_ref s) (priv_key s) (tails s) (config s)
    (qc_waiting s) (propose_waiting s) (receive_proposal_waiting s)
    (hqc_update_waiting s) (view_change_waiting s) (view_trans_waiting s)
    (vote_disabled s) (hsc_id s) (propagate_echos s) (propagate_acks s)
    (promises s) (commit_interval s) (proposer s) (propagate_timeout s)
    (ack_timeout s) x.


(** ** The monad of handlers *)

(** A handler returns normally, throws a [std::runtime_error] (the state
    reached at the throw is kept), aborts (a failed [assert], a null handle
    dereferenced, an index out of range, a modulus by zero), or exhausts
    the fuel that bounds its loops and its re-entrant calls. *)
Inductive outcome (A : Type) :=
| Ret (a : A) (s : HotStuffCore)
| Raise (e : string) (s : HotStuffCore)
| Abort
| NoFuel.
Arguments Ret {A} a s.
Arguments Raise {A} e s.
Arguments Abort {A}.
Arguments NoFuel {A}.

Definition M (A : Type) : Type := HotStuffCore -> outcome A.

#[global] Instance M_ret : MRet M := fun A a s => Ret a s.
#[global] Instance M_bind : MBind M := fun A B f m s =>
  match m s with
  | Ret a s' => f a s'
  | Raise e s' => Raise e s'
  | Abort => Abort
  | NoFuel => NoFuel
  end.

Definition get : M HotStuffCore := fun s => Ret s s.
Definition gets {A} (f : HotStuffCore -> A) : M A := fun s => Ret (f s) s.
Definition modify (f : HotStuffCore -> HotStuffCore) : M unit := fun s => Ret tt (f s).
Definition throw {A} (e : string) : M A := fun s => Raise e s.
Definition abort {A} : M A := fun _ => Abort.
Definition nofuel {A} : M A := fun _ => NoFuel.
Definition assert (b : bool) : M unit := if b then mret tt else abort.
(** The divisor of [%]: a modulus by zero is undefined. *)
Definition nonzero (n : N) : M unit := if n =? 0 then abort else mret tt.
Definition emit (ev : Event) : M unit := modify (fun s => with_out (out s ++ [ev]) s).

(** [for (x : l) f(x)] *)
Fixpoint forM_ {A} (l : list A) (f : A -> M unit) : M unit :=
  match l with
  | [] => mret tt
  | x :: l' => f x ;; forM_ l' f
  end.

(** Dereferencing handles. *)
Definition deref (a : addr) : M Block :=
  s ← get; match heap s !! a with Some b => mret b | None => abort end.
Definition update (a : addr) (f : Block -> Block) : M unit :=
  b ← deref a; modify (fun s => with_heap (<[a := f b]> (heap s)) s).
Definition deref_opt {A} (p : option A) : M A :=
  match p with Some x => mret x | None => abort end.

(** [operator[]] on the maps of the core: an absent key reads as the
    default value. *)
Definition pslot_of (s : HotStuffCore) (h : N) : gset addr := default ∅ (proposals s !! h).
Definition is_finished (s : HotStuffCore) (b : addr) : bool := default false (finished_propose s !! b).
Definition echos_of (s : HotStuffCore) (h : uint256_t) : gset ReplicaID := default ∅ (propagate_echos s !! h).
Definition acks_of (s : HotStuffCore) (h : uint256_t) : gset ReplicaID := default ∅ (propagate_acks s !! h).
Definition set_size (X : gset N) : N := N.of_nat (size X).

Definition is_propagate_timeout (s : HotStuffCore) (h : uint256_t) : bool := bool_decide (h ∈ propagate_timeout s).
Definition is_ack_timeout (s : HotStuffCore) (h : uint256_t) : bool := bool_decide (h ∈ ack_timeout s).

(** ** Block store *)

(** Modelled from the spec: [EntityStorage] (entity.h) is not part of the
    sources.  [add_blk] inserts the block or returns the canonical handle
    if its hash is already present; [find_blk] looks a hash up;
    [try_release_blk] releases a block assumed to have no live
    references. *)
(** [new Block]: the address of a fresh object. *)
Definition new_addr (s : HotStuffCore) : addr := fresh (dom (heap s)).

Definition add_blk (b : Block) : M addr :=
  s ← get;
  match storage s !! hash b with
  | Some a => mret a
  | None =>
      let a := new_addr s in
      modify (fun s => with_storage (<[hash b := a]> (storage s))
                         (with_heap (<[a := b]> (heap s)) s)) ;;
      mret a
  end.
Definition find_blk (h : uint256_t) : M (option addr) :=
  s ← get; mret (storage s !! h).
Definition try_release_blk (blk : addr) : M unit :=
  b ← deref blk; modify (fun s => with_storage (delete (hash b) (storage s)) s).

(** Modelled from the spec: [BlockHeightCmp] (entity.h) is not part of the
    sources.  [tails] is a [std::set] ordered by block height: it holds at
    most one block per height, [erase] removes the entry of the height of
    its argument and [insert] adds its argument unless an entry of that
    height is present. *)
Definition tails_erase (blk : addr) : M unit :=
  b ← deref blk; modify (fun s => with_tails (delete (height b) (tails s)) s).
Definition set_insert_by_height (h : N) (blk : addr) (t : gmap N addr) : gmap N addr :=
  match t !! h with
  | Some _ => t
  | None => <[h := blk]> t
  end.
Definition tails_insert (blk : addr) : M unit :=
  b ← deref blk; modify (fun s => with_tails (set_insert_by_height (height b) blk (tails s)) s).

(** ** Promises *)

(** [promise_t()]: a fresh pending promise. *)
Definition new_promise : M promise_t :=
  s ← get;
  let p : promise_t := fresh (dom (promises s)) in
  modify (fun s => with_promises (<[p := pm_pending]> (promises s)) s) ;;
  mret p.
(** Resolving a promise that is already resolved changes nothing. *)
Definition resolve_in (p : promise_t) (v : pm_value) (m : gmap promise_t pm_state) : gmap promise_t pm_state :=
  match m !! p with
  | Some (pm_resolved _) => m
  | _ => <[p := pm_resolved v]> m
  end.
Definition resolve (p : promise_t) (v : pm_value) : M unit :=
  modify (fun s => with_promises (resolve_in p v (promises s)) s).
Definition is_resolved (s : HotStuffCore) (p : promise_t) : bool :=
  match promises s !! p with Some (pm_resolved _) => true | _ => false end.

Definition on_propose_ (prop : Proposal.t) : M unit :=
  t ← gets propose_waiting;
  p ← new_promise;
  modify (with_propose_waiting p) ;;
  resolve t (pm_proposal prop).

Definition on_receive_proposal_ (prop : Proposal.t) : M unit :=
  t ← gets receive_proposal_waiting;
  p ← new_promise;
  modify (with_receive_proposal_waiting p) ;;
  resolve t (pm_proposal prop).

Definition on_hqc_update : M unit :=
  t ← gets hqc_update_waiting;
  p ← new_promise;
  modify (with_hqc_update_waiting p) ;;
  resolve t pm_void.

Definition on_view_change : M unit :=
  t ← gets view_change_waiting;
  p ← new_promise;
  modify (with_view_change_waiting p) ;;
  resolve t pm_void.

Definition on_view_trans : M unit :=
  t ← gets view_trans_waiting;
  p ← new_promise;
  modify (with_view_trans_waiting p) ;;
  resolve t pm_void.

Definition async_qc_finish (blk : addr) : M promise_t :=
  b ← deref blk;
  s ← get;
  if (height b =? 0) || (ReplicaConfig.nmajority (config s) <=? set_size (echos_of s (hash b)))
  then p ← new_promise; resolve p pm_void ;; mret p
  else match qc_waiting s !! blk with
       | Some p => mret p
       | None =>
           p ← new_promise;
           modify (fun s => with_qc_waiting (<[blk := p]> (qc_waiting s)) s) ;;
           mret p
       end.

Definition on_qc_finish (blk : addr) : M unit :=
  s ← get;
  match qc_waiting s !! blk with
  | Some p => resolve p pm_void ;; modify (fun s => with_qc_waiting (delete blk (qc_waiting s)) s)
  | None => mret tt
  end.

Definition async_wait_view_trans : M promise_t := gets view_trans_waiting.

(** ** The protocol logic *)

(** The constructor: the genesis block is created, stored and is the only
    tail; [hqc], [blame_qc] and [last_qc_ref] are null until [on_init]. *)
Definition HotStuffCore_new (H : Hashing) (id priv_key commit_interval proposer : N) : HotStuffCore :=
  let g := Block_genesis H in
  Build_HotStuffCore H {[ 0 := g ]} {[ hash g := 0 ]} 0 (None, None) 0 0 0 false
    ∅ ∅ None ∅ None priv_key {[ 0 := 0 ]} ReplicaConfig.empty
    ∅ 0 1 2 3 4 false id ∅ ∅
    (list_to_map [(0, pm_pending); (1, pm_pending); (2, pm_pending); (3, pm_pending); (4, pm_pending)])
    commit_interval proposer ∅ ∅ [].

Definition sanity_check_delivered (blk : addr) : M unit :=
  b ← deref blk;
  if delivered b then mret tt else throw "block not delivered".

Definition get_delivered_blk (blk_hash : uint256_t) : M addr :=
  f ← find_blk blk_hash;
  match f with
  | None => throw "block not delivered"
  | Some blk =>
      b ← deref blk;
      if delivered b then mret blk else throw "block not delivered"
  end.

(** [blk->parents.push_back(get_delivered_blk(hash))] *)
Definition push_parent (blk : addr) (h : uint256_t) : M unit :=
  p ← get_delivered_blk h;
  update blk (fun b => with_parents (parents b ++ [p]) b).

Definition on_deliver_blk (blk : addr) : M bool :=
  b ← deref blk;
  if delivered b then mret false
  else
    update blk (with_parents []) ;;
    forM_ (parent_hashes b) (push_parent blk) ;;
    b ← deref blk;
    p0 ← deref_opt (head (parents b));
    pb ← deref p0;
    update blk (with_height ((height pb + 1) mod uint32_max)) ;;
    b ← deref blk;
    match qc b with
    | Some _ =>
        f ← find_blk (qc_ref_hash b);
        match f with
        | None => throw "block referred by qc not fetched"
        | Some _blk => update blk (with_qc_ref (Some _blk))
        end
    | None => mret tt
    end ;;
    b ← deref blk;
    forM_ (parents b) tails_erase ;;
    tails_insert blk ;;
    update blk (with_delivered true) ;;
    mret true.

Definition update_hqc (_hqc : addr) (qc : quorum_cert_bt) : M unit :=
  b ← deref _hqc;
  q ← deref_opt qc;
  s ← get;
  assert (QuorumCert.obj_hash q =? Vote.proof_obj_hash (hashing s) (get_hash b)) ;;
  first ← deref_opt (fst (hqc s));
  hb ← deref first;
  if height hb <? height b
  then modify (with_hqc (Some _hqc, Some (QuorumCert.clone q))) ;; on_hqc_update
  else mret tt.

(** The loop of [check_commit]: from [b], follow [parents[0]] while the
    height exceeds that of [b_exec], pushing the blocks met. *)
Fixpoint commit_walk (fuel : nat) (b : addr) (commit_queue : list addr) : M (list addr * addr) :=
  match fuel with
  | O => nofuel
  | S fuel' =>
      bb ← deref b;
      s ← get;
      be ← deref (b_exec s);
      if height be <? height bb
      then p ← deref_opt (head (parents bb)); commit_walk fuel' p (commit_queue ++ [b])
      else mret (commit_queue, b)
  end.

(** The body of the commit loop of [check_commit]. *)
Definition commit_body (blk : addr) : M unit :=
  update blk (with_decision 1%Z) ;;
  emit (do_consensus blk) ;;
  bv ← deref blk;
  s ← get;
  forM_ (imap (fun i c => (i, c)) (cmds bv)) (fun '(i, c) =>
    emit (do_decide (Finality.mk (hsc_id s) 1%Z (N.of_nat i mod uint32_max)
                       (height bv) c (get_hash bv)))).

Definition check_commit (fuel : nat) (blk : addr) : M unit :=
  bb ← deref blk;
  if get_height bb =? 0 then mret tt
  else
    '(commit_queue, b) ← commit_walk fuel blk [];
    s ← get;
    bv ← deref b;
    if negb (b =? b_exec s) && negb (decision bv =? 1)%Z
    then throw "safety breached :("
    else
      forM_ (rev commit_queue) commit_body ;;
      modify (with_b_exec blk).

(** *** View change *)

Definition _new_view (on_receive_blamenotify : BlameNotify.t -> M unit) : M unit :=
  s ← get;
  q ← deref_opt (blame_qc s);
  modify (with_blame_qc (Some (QuorumCert.compute q))) ;;
  s ← get;
  first ← deref_opt (fst (hqc s));
  hb ← deref first;
  second ← deref_opt (snd (hqc s));
  bq ← deref_opt (blame_qc s);
  let bn := BlameNotify.mk (view s) (get_hash hb)
              (Some (QuorumCert.clone second)) (Some (QuorumCert.clone bq)) in
  modify (with_view_trans true) ;;
  on_view_trans ;;
  on_receive_blamenotify bn ;;
  emit (do_broadcast_blamenotify bn) ;;
  emit stop_commit_timer_all ;;
  s ← get;
  emit (set_viewtrans_timer (Times 2 (ReplicaConfig.delta (config s)))).

(** [on_receive_blamenotify] and [_new_view] call each other; the fuel
    bounds the depth of these calls. *)
Fixpoint on_receive_blamenotify (fuel : nat) (bn : BlameNotify.t) : M unit :=
  match fuel with
  | O => nofuel
  | S fuel' =>
      s ← get;
      if view_trans s then mret tt
      else
        q ← deref_opt (BlameNotify.qc bn);
        modify (with_blame_qc (Some (QuorumCert.clone q))) ;;
        _new_view (on_receive_blamenotify fuel')
  end.

Definition on_receive_blame (fuel : nat) (blame : Blame.t) : M unit :=
  s ← get;
  if view_trans s then mret tt
  else
    let qsize := set_size (blamed s) in
    if ReplicaConfig.nmajority (config s) <=? qsize then mret tt
    else if bool_decide (Blame.blamer blame ∈ blamed s) then mret tt
    else
      modify (fun s => with_blamed (blamed s ∪ {[ Blame.blamer blame ]}) s) ;;
      s ← get;
      q ← deref_opt (blame_qc s);
      c ← deref_opt (Blame.cert blame);
      modify (with_blame_qc (Some (QuorumCert.add_part (Blame.blamer blame) c q))) ;;
      s ← get;
      if qsize + 1 =? ReplicaConfig.nmajority (config s)
      then _new_view (on_receive_blamenotify fuel)
      else mret tt.

Definition _blame (fuel : nat) : M unit :=
  emit stop_blame_timer ;;
  s ← get;
  let blame := Blame.mk (hsc_id s) (view s)
                 (create_part_cert (priv_key s) (Blame.proof_obj_hash (hashing s) (view s))) in
  on_receive_blame fuel blame ;;
  emit (do_broadcast_blame blame).

Definition on_blame_timeout (fuel : nat) : M unit := _blame fuel.

Definition on_viewtrans_timeout : M unit :=
  modify (fun s => with_view ((view s + 1) mod uint32_max) s) ;;
  modify (with_view_trans false) ;;
  modify (with_proposals ∅) ;;
  s ← get;
  modify (with_blame_qc (create_quorum_cert (Blame.proof_obj_hash (hashing s) (view s)))) ;;
  modify (with_blamed ∅) ;;
  emit (set_blame_timer (Times 3 (ReplicaConfig.delta (config s)))) ;;
  on_view_change ;;
  s ← get;
  first ← deref_opt (fst (hqc s));
  hb ← deref first;
  second ← deref_opt (snd (hqc s));
  emit (do_notify (Notify.mk (get_hash hb) (Some (QuorumCert.clone second)))).

Definition on_receive_notify (notify : Notify.t) : M unit :=
  blk ← get_delivered_blk (Notify.blk_hash notify);
  update_hqc blk (Notify.qc notify).

Definition on_commit_timeout (fuel : nat) (blk : addr) : M unit := check_commit fuel blk.

(** *** Pre-commit *)

Definition on_receive_pre_commit (fuel : nat) (preCommit : PreCommit.t) : M unit :=
  assert (bool_decide (is_Some (PreCommit.cert preCommit))) ;;
  blk ← get_delivered_blk (PreCommit.blk_hash preCommit);
  b ← deref blk;
  s ← get;
  let qsize := set_size (preCommitted b) in
  if ReplicaConfig.nmajority (config s) <=? qsize then mret tt
  else if bool_decide (PreCommit.rid preCommit ∈ preCommitted b) then mret tt
  else
    update blk (fun b => with_preCommitted (preCommitted b ∪ {[ PreCommit.rid preCommit ]}) b) ;;
    if qsize + 1 =? ReplicaConfig.nmajority (config s)
    then check_commit fuel blk
    else mret tt.

Definition on_pre_commit_timeout (fuel : nat) (blk : addr) : M unit :=
  b ← deref blk;
  s ← get;
  let preCommit := PreCommit.mk (hsc_id s) (get_hash b)
        (create_part_cert (priv_key s) (PreCommit.proof_obj_hash (hashing s) (get_hash b))) in
  emit (do_broadcast_pre_commit preCommit) ;;
  on_receive_pre_commit fuel preCommit.

(** *** Voting and reliable propagation *)

(** [on_receive_vote] re-enters [on_receive_proposal] when a vote precedes
    its proposal, and [on_receive_proposal] reaches [on_receive_vote] again
    through [_propagate_blk], [on_receive_echo], [on_receive_ack],
    [on_propose_propagated] and [_vote].  The functions of this cycle are
    written over the re-entrant call, which [on_receive_proposal] closes
    with fuel. *)
Section Propagation.
Variable on_receive_proposal : Proposal.t -> M unit.

Definition on_receive_vote_ (vote : Vote.t) : M unit :=
  blk ← get_delivered_blk (Vote.blk_hash vote);
  assert (bool_decide (is_Some (Vote.cert vote))) ;;
  s ← get;
  (if negb (is_finished s blk)
   then on_receive_proposal (Proposal.mk (Vote.voter vote) blk)
   else mret tt) ;;
  b ← deref blk;
  s ← get;
  let qsize := set_size (voted b) in
  if ReplicaConfig.nmajority (config s) <=? qsize then mret tt
  else if bool_decide (Vote.voter vote ∈ voted b) then mret tt
  else
    update blk (fun b => with_voted (voted b ∪ {[ Vote.voter vote ]}) b) ;;
    b ← deref blk;
    match self_qc b with
    | None => update blk (with_self_qc (create_quorum_cert (Vote.proof_obj_hash (hashing s) (get_hash b))))
    | Some _ => mret tt
    end ;;
    b ← deref blk;
    qc ← deref_opt (self_qc b);
    c ← deref_opt (Vote.cert vote);
    update blk (with_self_qc (Some (QuorumCert.add_part (Vote.voter vote) c qc))) ;;
    if qsize + 1 =? ReplicaConfig.nmajority (config s)
    then
      b ← deref blk;
      qc ← deref_opt (self_qc b);
      update blk (with_self_qc (Some (QuorumCert.compute qc))) ;;
      update_hqc blk (Some (QuorumCert.compute qc))
    else mret tt.

(** [SYNCHS_NOVOTEBROADCAST] is not defined: the vote is delivered to the
    replica itself before it is broadcast. *)
Definition _vote_ (blk : addr) : M unit :=
  b ← deref blk;
  s ← get;
  let blk_hash := get_hash b in
  let vote := Vote.mk (hsc_id s) blk_hash
                (create_part_cert (priv_key s) (Vote.proof_obj_hash (hashing s) blk_hash)) in
  on_receive_vote_ vote ;;
  emit (do_broadcast_vote vote).

Definition on_propose_propagated_ (blk_hash : uint256_t) : M unit :=
  s ← get;
  if view_trans s then mret tt
  else
    blk ← get_delivered_blk blk_hash;
    sanity_check_delivered blk ;;
    s ← get;
    (if negb (vote_disabled s) then _vote_ blk else mret tt) ;;
    b ← deref blk;
    s ← get;
    match qc_ref b with
    | Some r => emit (set_pre_commit_timer r (Times 2 (ReplicaConfig.delta (config s))))
    | None => mret tt
    end.

Definition on_receive_ack_ (ack : Ack.t) : M unit :=
  let msg_hash := Ack.blk_hash ack in
  assert (bool_decide (is_Some (Ack.cert ack))) ;;
  s ← get;
  let qsize := set_size (acks_of s msg_hash) in
  if ReplicaConfig.nmajority (config s) <=? qsize then mret tt
  else if bool_decide (Ack.rid ack ∈ acks_of s msg_hash) then mret tt
  else
    modify (fun s => with_propagate_acks
                       (<[msg_hash := acks_of s msg_hash ∪ {[ Ack.rid ack ]}]> (propagate_acks s)) s) ;;
    s ← get;
    if (qsize + 1 =? ReplicaConfig.nmajority (config s)) && negb (is_ack_timeout s msg_hash)
    then
      if Ack.opcode ack =? PropagateType.BLOCK
      then on_propose_propagated_ msg_hash
      else mret tt
    else mret tt.

(** The first block of [on_receive_echo], entered when the echo completes
    the quorum before the propagation timer fired; the result tells
    whether the handler returns from inside it. *)
Definition on_echo_quorum_ (echo : Echo.t) : M bool :=
  let msg_hash := Echo.blk_hash echo in
  if Echo.opcode echo =? PropagateType.BLOCK
  then
    blk ← get_delivered_blk (Echo.blk_hash echo);
    on_qc_finish blk ;;
    b ← deref blk;
    s ← get;
    nonzero (commit_interval s) ;;
    if negb (get_height b mod commit_interval s =? 0) then mret true
    else
      emit (do_broadcast_proposal (Proposal.mk (hsc_id s) blk)) ;;
      let ack := Ack.mk (hsc_id s) msg_hash PropagateType.BLOCK
                   (create_part_cert (priv_key s) (Ack.proof_obj_hash (hashing s) msg_hash)) in
      s ← get;
      emit (do_multicast_ack ack (echos_of s msg_hash)) ;;
      s ← get;
      (if bool_decide (hsc_id s ∈ echos_of s msg_hash) then on_receive_ack_ ack else mret tt) ;;
      s ← get;
      emit (set_ack_timer ack (Times 2 (ReplicaConfig.delta (config s)))) ;;
      mret false
  else mret false.

Definition on_receive_echo_ (echo : Echo.t) : M unit :=
  let msg_hash := Echo.blk_hash echo in
  assert (bool_decide (is_Some (Echo.cert echo))) ;;
  s ← get;
  let qsize := set_size (echos_of s msg_hash) in
  if bool_decide (Echo.rid echo ∈ echos_of s msg_hash) then mret tt
  else
    modify (fun s => with_propagate_echos
                       (<[msg_hash := echos_of s msg_hash ∪ {[ Echo.rid echo ]}]> (propagate_echos s)) s) ;;
    s ← get;
    returned ←
      (if (qsize + 1 =? ReplicaConfig.nmajority (config s)) && negb (is_propagate_timeout s msg_hash)
       then on_echo_quorum_ echo
       else mret false);
    if returned : bool then mret tt
    else
      s ← get;
      if (ReplicaConfig.nmajority (config s) <? qsize + 1) && negb (is_ack_timeout s msg_hash)
      then
        blk ← get_delivered_blk (Echo.blk_hash echo);
        b ← deref blk;
        s ← get;
        nonzero (commit_interval s) ;;
        if negb (get_height b mod commit_interval s =? 0) then mret tt
        else
          let ack := Ack.mk (hsc_id s) msg_hash PropagateType.BLOCK
                       (create_part_cert (priv_key s) (Ack.proof_obj_hash (hashing s) msg_hash)) in
          if Echo.rid echo =? hsc_id s
          then on_receive_ack_ ack
          else emit (do_send_ack ack (Echo.rid echo))
      else mret tt.

Definition _propagate_blk_ (blk : addr) : M unit :=
  b ← deref blk;
  s ← get;
  let blk_hash := get_hash b in
  let echo := Echo.mk (hsc_id s) blk_hash PropagateType.BLOCK
                (create_part_cert (priv_key s) (Echo.proof_obj_hash (hashing s) blk_hash)) in
  nonzero (commit_interval s) ;;
  if get_height b mod commit_interval s =? 0
  then
    emit (do_broadcast_echo echo) ;;
    on_receive_echo_ echo ;;
    s ← get;
    emit (set_propagate_timer echo (Times 3 (ReplicaConfig.delta (config s))))
  else
    if hsc_id s =? proposer s
    then on_receive_echo_ echo
    else emit (do_send_echo echo (proposer s)).

(** The loop of [on_receive_proposal]: from [b], follow [parents[0]] while
    the height exceeds that of [pref]. *)
Fixpoint branch_walk (fuel : nat) (b pref : addr) : M addr :=
  match fuel with
  | O => nofuel
  | S fuel' =>
      bb ← deref b;
      pb ← deref pref;
      if height pb <? height bb
      then p ← deref_opt (head (parents bb)); branch_walk fuel' p pref
      else mret b
  end.

(** The part of [on_receive_proposal] that follows the update of [hqc]:
    the opinion on the proposal, then its propagation. *)
Definition judge_proposal_ (fuel : nat) (prop : Proposal.t) : M unit :=
  let bnew := Proposal.blk prop in
  b ← deref bnew;
  s ← get;
  let pslot := pslot_of s (height b) in
  opinion ←
    (if set_size pslot <=? 1
     then
       modify (fun s => with_proposals (<[height b := pslot ∪ {[ bnew ]}]> (proposals s)) s) ;;
       if 1 <? set_size (pslot ∪ {[ bnew ]})
       then _blame fuel ;; mret false
       else mret true
     else mret false);
  opinion ←
    (if opinion : bool
     then
       s ← get;
       pref ← deref_opt (fst (hqc s));
       b' ← branch_walk fuel bnew pref;
       if b' =? pref
       then b ← deref bnew; modify (with_vheight (height b)) ;; mret true
       else mret false
     else mret false);
  b ← deref bnew;
  match qc_ref b with
  | Some r => on_qc_finish r
  | None => mret tt
  end ;;
  modify (fun s => with_finished_propose (<[bnew := true]> (finished_propose s)) s) ;;
  on_receive_proposal_ prop ;;
  if opinion : bool then _propagate_blk_ bnew else mret tt.

Definition on_receive_proposal_body (fuel : nat) (prop : Proposal.t) : M unit :=
  s ← get;
  if view_trans s then mret tt
  else
    let bnew := Proposal.blk prop in
    if is_finished s bnew then mret tt
    else
      sanity_check_delivered bnew ;;
      b ← deref bnew;
      match qc_ref b with
      | Some r => update_hqc r (qc b)
      | None => mret tt
      end ;;
      judge_proposal_ fuel prop.

End Propagation.

Fixpoint on_receive_proposal (fuel : nat) (prop : Proposal.t) : M unit :=
  match fuel with
  | O => nofuel
  | S fuel' => on_receive_proposal_body (on_receive_proposal fuel') fuel' prop
  end.

Definition on_receive_vote (fuel : nat) : Vote.t -> M unit := on_receive_vote_ (on_receive_proposal fuel).
Definition _vote (fuel : nat) : addr -> M unit := _vote_ (on_receive_proposal fuel).
Definition on_propose_propagated (fuel : nat) : uint256_t -> M unit := on_propose_propagated_ (on_receive_proposal fuel).
Definition on_receive_ack (fuel : nat) : Ack.t -> M unit := on_receive_ack_ (on_receive_proposal fuel).
Definition on_receive_echo (fuel : nat) : Echo.t -> M unit := on_receive_echo_ (on_receive_proposal fuel).
Definition _propagate_blk (fuel : nat) : addr -> M unit := _propagate_blk_ (on_receive_proposal fuel).

(** *** Proposing *)

(** The hashes of a vector of handles, as the block constructor takes them. *)
Fixpoint get_hashes (l : list addr) : M (list uint256_t) :=
  match l with
  | [] => mret []
  | p :: l' => b ← deref p; r ← get_hashes l'; mret (get_hash b :: r)
  end.

Definition on_propose (fuel : nat) (cmds : list uint256_t) (parents : list addr) (extra : list N) : M (option addr) :=
  s ← get;
  if view_trans s then mret None
  else
    match parents with
    | [] => throw "empty parents"
    | p0 :: _ =>
        forM_ parents tails_erase ;;
        pb ← deref p0;
        s ← get;
        let h := (height pb + 1) mod uint32_max in
        nonzero (commit_interval s) ;;
        let is_commit_height := h mod commit_interval s =? 0 in
        let embed := is_commit_height && negb (bool_decide (last_qc_ref s = fst (hqc s))) in
        qc ← (if embed then q ← deref_opt (snd (hqc s)); mret (Some (QuorumCert.clone q)) else mret None);
        let qc_ref := if embed then fst (hqc s) else None in
        (* the hashes the constructor takes from its handles *)
        hashes ← get_hashes parents;
        qc_ref_hash ← match qc_ref with
                      | Some r => b ← deref r; mret (get_hash b)
                      | None => mret 0
                      end;
        bnew ← add_blk (Block_new (hashing s) parents hashes cmds qc extra h qc_ref qc_ref_hash None);
        (if is_commit_height then modify (with_last_qc_ref (fst (hqc s))) else mret tt) ;;
        b ← deref bnew;
        let bnew_hash := get_hash b in
        update bnew (with_self_qc (create_quorum_cert (Vote.proof_obj_hash (hashing s) bnew_hash))) ;;
        on_deliver_blk bnew ;;
        let prop := Proposal.mk (hsc_id s) bnew in
        (* self-vote *)
        b ← deref bnew;
        s ← get;
        if height b <=? vheight s
        then throw "new block should be higher than vheight"
        else
          modify (with_vheight (height b)) ;;
          modify (fun s => with_finished_propose (<[bnew := true]> (finished_propose s)) s) ;;
          _propagate_blk fuel bnew ;;
          on_propose_ prop ;;
          (* broadcast to other replicas *)
          emit (do_broadcast_proposal prop) ;;
          mret (Some bnew)
    end.

(** *** Initialisation, configuration, pruning *)

Definition on_init (nfaulty : N) (delta : QArith_base.Q) : M unit :=
  modify (fun s =>
    let c := config s in
    with_config (ReplicaConfig.mk (ReplicaConfig.replica_map c) (ReplicaConfig.nreplicas c)
                   ((ReplicaConfig.nreplicas c + size_max - nfaulty mod uint32_max) mod size_max)
                   delta) s) ;;
  s ← get;
  modify (with_blame_qc (create_quorum_cert (Blame.proof_obj_hash (hashing s) (view s)))) ;;
  g ← deref (b0 s);
  update (b0 s) (with_qc (QuorumCert.compute <$> create_quorum_cert (Vote.proof_obj_hash (hashing s) (get_hash g)))) ;;
  update (b0 s) (fun g => with_self_qc (QuorumCert.clone <$> qc g) g) ;;
  update (b0 s) (with_qc_ref (Some (b0 s))) ;;
  g ← deref (b0 s);
  modify (with_hqc (Some (b0 s), QuorumCert.clone <$> qc g)) ;;
  modify (with_last_qc_ref (Some (b0 s))).

Definition add_replica (rid : ReplicaID) (addr pub_key : N) : M unit :=
  modify (fun s => with_config (ReplicaConfig.add_replica rid (Build_ReplicaInfo rid addr pub_key) (config s)) s) ;;
  s ← get;
  update (b0 s) (fun g => with_voted (voted g ∪ {[ rid ]}) g).

Definition set_vote_disabled (f : bool) : M unit := modify (with_vote_disabled f).

(** The first loop of [prune]: skip [staleness] blocks along [parents[0]];
    [None] when a block without parents is met first. *)
Fixpoint prune_skip (staleness : nat) (start : addr) : M (option addr) :=
  match staleness with
  | O => mret (Some start)
  | S n =>
      b ← deref start;
      match parents b with
      | [] => mret None
      | p :: _ => prune_skip n p
      end
  end.

(** The second loop of [prune], over the explicit stack [s] (top first). *)
Fixpoint prune_loop (fuel : nat) (s : list addr) : M unit :=
  match fuel with
  | O => nofuel
  | S fuel' =>
      match s with
      | [] => mret tt
      | blk :: s' =>
          b ← deref blk;
          match last (parents b) with
          | None => try_release_blk blk ;; prune_loop fuel' s'
          | Some back =>
              update blk (with_qc_ref None) ;;
              update blk (fun b => with_parents (removelast (parents b)) b) ;;
              prune_loop fuel' (back :: s)
          end
      end
  end.

Definition prune (fuel : nat) (staleness : N) : M unit :=
  st ← get;
  start ← prune_skip (N.to_nat staleness) (b_exec st);
  match start with
  | None => mret tt
  | Some start =>
      update start (with_qc_ref None) ;;
      prune_loop fuel [start]
  end.

(** The host stores a block received from the network
    ([storage->add_blk]) before it delivers it. *)
Definition storage_add_blk (d : BlockData) : M addr :=
  s ← get; add_blk (Block_of_wire (hashing s) d).

(** ** Inputs of the state machine *)

(** The calls the host makes on the core. *)
Inductive Input :=
| In_storage_add_blk (d : BlockData)
| In_on_init (nfaulty : N) (delta : QArith_base.Q)
| In_add_replica (rid : ReplicaID) (addr pub_key : N)
| In_set_vote_disabled (f : bool)
| In_on_deliver_blk (blk : addr)
| In_on_propose (cmds : list uint256_t) (parents : list addr) (extra : list N)
| In_on_receive_proposal (prop : Proposal.t)
| In_on_receive_vote (vote : Vote.t)
| In_on_receive_notify (notify : Notify.t)
| In_on_receive_blame (blame : Blame.t)
| In_on_receive_blamenotify (bn : BlameNotify.t)
| In_on_receive_echo (echo : Echo.t)
| In_on_receive_ack (ack : Ack.t)
| In_on_receive_pre_commit (preCommit : PreCommit.t)
| In_on_commit_timeout (blk : addr)
| In_on_blame_timeout
| In_on_viewtrans_timeout
| In_on_pre_commit_timeout (blk : addr)
| In_prune (staleness : N)
| In_async_qc_finish (blk : addr).

Definition step (fuel : nat) (i : Input) : M unit :=
  match i with
  | In_storage_add_blk d => storage_add_blk d ;; mret tt
  | In_on_init nfaulty delta => on_init nfaulty delta
  | In_add_replica rid addr pub_key => add_replica rid addr pub_key
  | In_set_vote_disabled f => set_vote_disabled f
  | In_on_deliver_blk blk => on_deliver_blk blk ;; mret tt
  | In_on_propose cmds parents extra => on_propose fuel cmds parents extra ;; mret tt
  | In_on_receive_proposal prop => on_receive_proposal fuel prop
  | In_on_receive_vote vote => on_receive_vote fuel vote
  | In_on_receive_notify notify => on_receive_notify notify
  | In_on_receive_blame blame => on_receive_blame fuel blame
  | In_on_receive_blamenotify bn => on_receive_blamenotify fuel bn
  | In_on_receive_echo echo => on_receive_echo fuel echo
  | In_on_receive_ack ack => on_receive_ack fuel ack
  | In_on_receive_pre_commit preCommit => on_receive_pre_commit fuel preCommit
  | In_on_commit_timeout blk => on_commit_timeout fuel blk
  | In_on_blame_timeout => on_blame_timeout fuel
  | In_on_viewtrans_timeout => on_viewtrans_timeout
  | In_on_pre_commit_timeout blk => on_pre_commit_timeout fuel blk
  | In_prune staleness => prune fuel staleness
  | In_async_qc_finish blk => async_qc_finish blk ;; mret tt
  end.

Definition run (fuel : nat) (l : list Input) : M unit := forM_ l (step fuel).

(** ** A concrete replica for the examples *)

(** A toy instance of the hash parameters, injective on the inputs of the
    examples. *)
Definition toy_hashing : Hashing :=
  {| ds_hash := fun tag payload => 1000 + 4 * payload + tag;
     block_digest := fun d =>
       100 + 10 * bd_height d + foldr N.add 0 (bd_cmds d) |}.

Definition delta1 : QArith_base.Q := QArith_base.Qmake 1 1.

(** Replica 0 of four ([f = 1], [nmajority = 3]), with [commit_interval]
    [ci] and proposer 0: the state after construction, and the calls that
    configure and initialise it. *)
Definition replica0 (ci : N) : HotStuffCore := HotStuffCore_new toy_hashing 0 7 ci 0.
Definition setup : list Input :=
  [In_add_replica 0 0 0; In_add_replica 1 0 0; In_add_replica 2 0 0;
   In_add_replica 3 0 0; In_on_init 1 delta1].

Definition In_add_replicas (l : list (ReplicaID * N * N)) : list Input :=
  map (fun '(rid, addr, pub_key) => In_add_replica rid addr pub_key) l.

(** The state a list of calls leaves [s] in (or [s] itself if one of them
    does not return). *)
Definition state_after (fuel : nat) (l : list Input) (s : HotStuffCore) : HotStuffCore :=
  match run fuel l s with
  | Ret _ s' => s'
  | _ => s
  end.

(** The messages of replica [rid] about the block of hash [h]. *)
Definition vote_of (rid : ReplicaID) (h : uint256_t) : Vote.t :=
  Vote.mk rid h (create_part_cert rid (Vote.proof_obj_hash toy_hashing h)).
Definition echo_of (rid : ReplicaID) (h : uint256_t) : Echo.t :=
  Echo.mk rid h PropagateType.BLOCK (create_part_cert rid (Echo.proof_obj_hash toy_hashing h)).

(** Blocks of height 1 on the genesis block (of hash 100), as they come
    from the network: with commands [[5]] (hash 115) and [[6]] (hash 116). *)
Definition wire_a : BlockData := Build_BlockData [100] [5] None 0 [] 1.
Definition wire_b : BlockData := Build_BlockData [100] [6] None 0 [] 1.

(** Replica 0 proposed one block, [B1] (address 1, hash 111). *)
Definition proposed1 (ci : N) : HotStuffCore :=
  state_after 20 (setup ++ [In_on_propose [1] [0] []]) (replica0 ci).

(** Replica 0 proposed a chain of five blocks, at addresses 1 to 5, and
    committed it: [b_exec] is the last one. *)
Definition chain5 : HotStuffCore :=
  state_after 20
    (setup ++ [In_on_propose [1] [0] []; In_on_propose [2] [1] []; In_on_propose [3] [2] [];
               In_on_propose [4] [3] []; In_on_propose [5] [4] []; In_on_commit_timeout 5])
    (replica0 1).

(** ** The runs of the examples *)

(** Replica 0 proposed two blocks, [B1] and [B2]: its [vheight] is 2. *)
Definition proposed2 : HotStuffCore :=
  state_after 20 (setup ++ [In_on_propose [1] [0] []; In_on_propose [2] [1] []]) (replica0 2).

(** A block of height 1 arrives from replica 1 and is proposed. *)
Definition low_proposal : list Input :=
  [In_storage_add_blk wire_a; In_on_deliver_blk 3; In_on_receive_proposal (Proposal.mk 1 3)].

Definition four_replicas : list (ReplicaID * N * N) := [(0, 0, 0); (1, 0, 0); (2, 0, 0); (3, 0, 0)].

Definition initial : HotStuffCore := state_after 20 setup (replica0 1).

(** A BlameNotify for view 5 with a certificate of no part. *)
Definition stray_blamenotify : BlameNotify.t :=
  BlameNotify.mk 5 100 (Some (QuorumCert.mk 1400 [] true)) (Some (QuorumCert.mk 1234 [] false)).

(** Replica 0 stored the block [wire_a], at address 1. *)
Definition received_a : HotStuffCore :=
  state_after 20 (setup ++ [In_storage_add_blk wire_a]) (replica0 1).

(** A block whose second parent (hash 999) is unknown. *)
Definition wire_orphan : BlockData := Build_BlockData [100; 999] [5] None 0 [] 1.
Definition received_orphan : HotStuffCore :=
  state_after 20 (setup ++ [In_storage_add_blk wire_orphan]) (replica0 1).

(** Replica 0 processed the proposal of [wire_a] (address 1) and delivered
    [wire_b] (address 2), of the same height. *)
Definition equivocation : HotStuffCore :=
  state_after 20
    (setup ++ [In_storage_add_blk wire_a; In_on_deliver_blk 1;
               In_on_receive_proposal (Proposal.mk 1 1);
               In_storage_add_blk wire_b; In_on_deliver_blk 2])
    (replica0 2).

Definition ack_of (rid : ReplicaID) (h : uint256_t) : Ack.t :=
  Ack.mk rid h PropagateType.BLOCK (create_part_cert rid (Ack.proof_obj_hash toy_hashing h)).

(** The Echos and Acks of replicas 1 and 2 for a block: with those of
    replica 0 itself they complete both quorums. *)
Definition quorums (h : uint256_t) : list Input :=
  [In_on_receive_echo (echo_of 1 h); In_on_receive_echo (echo_of 2 h);
   In_on_receive_ack (ack_of 1 h); In_on_receive_ack (ack_of 2 h)].

(** Replica 0 handles the proposal of [wire_a] in view 0, changes view, and
    handles the proposal of [wire_b] in view 1. *)
Definition two_views : list Input :=
  setup ++ [In_storage_add_blk wire_a; In_on_deliver_blk 1; In_on_receive_proposal (Proposal.mk 1 1)]
    ++ quorums 115
    ++ [In_on_receive_blamenotify stray_blamenotify; In_on_viewtrans_timeout;
        In_storage_add_blk wire_b; In_on_deliver_blk 2; In_on_receive_proposal (Proposal.mk 1 2)]
    ++ quorums 116.

(** Replica 0 entered a view transition after the proposal of [wire_a], and
    delivered [wire_b]. *)
Definition in_transition : HotStuffCore :=
  state_after 20
    (setup ++ [In_storage_add_blk wire_a; In_on_deliver_blk 1;
               In_on_receive_proposal (Proposal.mk 1 1);
               In_on_receive_blamenotify stray_blamenotify;
               In_storage_add_blk wire_b; In_on_deliver_blk 2])
    (replica0 2).

Definition is_vote (ev : Event) : bool :=
  match ev with do_broadcast_vote _ => true | _ => false end.

Definition pre_commit_of (rid : ReplicaID) (h : uint256_t) : PreCommit.t :=
  PreCommit.mk rid h (create_part_cert rid (PreCommit.proof_obj_hash toy_hashing h)).

(** Replica 0 proposed [B1] and counted the PreCommits of replicas 1 and 2
    for it. *)
Definition pre_committed2 : HotStuffCore :=
  state_after 20
    [In_on_receive_pre_commit (pre_commit_of 1 111); In_on_receive_pre_commit (pre_commit_of 2 111)]
    (proposed1 1).

(** Replica 0 proposed [B1] and [B2], every height being a commit height. *)
Definition proposed2_ci1 : HotStuffCore :=
  state_after 20 (setup ++ [In_on_propose [1] [0] []; In_on_propose [2] [1] []]) (replica0 1).

(** Replica 0 proposed [B1] (height 1, no commit height) and the host asked
    for the promise of its certificate: promise 6, pending. *)
Definition awaiting_qc : HotStuffCore :=
  state_after 20 [In_async_qc_finish 1] (proposed1 2).
(** Then it counted the Echo of replica 1, *)
Definition echoed : HotStuffCore :=
  state_after 20 [In_on_receive_echo (echo_of 1 111)] awaiting_qc.
(** or the Votes of replicas 1 and 2. *)
Definition voted2 : HotStuffCore :=
  state_after 20 [In_on_receive_vote (vote_of 1 111); In_on_receive_vote (vote_of 2 111)]
    awaiting_qc.

(** The Blame of replica [rid] for view [view]. *)
Definition blame_of (rid : ReplicaID) (view : N) : Blame.t :=
  Blame.mk rid view (create_part_cert rid (Blame.proof_obj_hash toy_hashing view)).

(** Replica 0 counted the Blames of replicas 1 and 2 for view 0. *)
Definition blamed2 : HotStuffCore :=
  state_after 20 [In_on_receive_blame (blame_of 1 0); In_on_receive_blame (blame_of 2 0)] initial.

(** Replica 0 proposed [B1] at a commit height and counted the Echos of
    replicas 1 and 2 and the Ack of replica 1: with its own Ack, one Ack is
    missing for the quorum. *)
Definition awaiting_ack : HotStuffCore :=
  state_after 20
    (setup ++ [In_on_propose [1] [0] []; In_on_receive_echo (echo_of 1 111);
               In_on_receive_echo (echo_of 2 111); In_on_receive_ack (ack_of 1 111)])
    (replica0 1).

(** The same with voting disabled. *)
Definition awaiting_ack_silent : HotStuffCore :=
  state_after 20
    (setup ++ [In_set_vote_disabled true; In_on_propose [1] [0] [];
               In_on_receive_echo (echo_of 1 111); In_on_receive_echo (echo_of 2 111);
               In_on_receive_ack (ack_of 1 111)])
    (replica0 1).

(** A Notify for [B1] with a certificate for its hash. *)
Definition notify_b1 : Notify.t :=
  Notify.mk 111 (Some (QuorumCert.mk (Vote.proof_obj_hash toy_hashing 111) [] true)).

(** * Vocabulary of the statements *)

(** ** Weakest preconditions *)

(** [wpx m Q E s]: from [s], [m] either returns normally with a result and
    a state that satisfy [Q], or throws with a message and a state that
    satisfy [E]; it neither aborts nor runs out of fuel. *)
Definition wpx {A} (m : M A) (Q : A -> HotStuffCore -> Prop)
    (E : string -> HotStuffCore -> Prop) (s : HotStuffCore) : Prop :=
  match m s with
  | Ret a s' => Q a s'
  | Raise e s' => E e s'
  | _ => False
  end.

(** [wp m Q s]: from [s], [m] returns normally and its result and final
    state satisfy [Q]. *)
Abbreviation wp m Q s := (wpx m Q (fun _ _ => False) s).

(** ** Committing *)

(** The walk of [check_commit] from a block: the blocks collected and the
    block the walk stops at. *)
Inductive commit_path (s : HotStuffCore) : addr -> list addr -> addr -> Prop :=
| commit_path_stop b bb be :
    heap s !! b = Some bb -> heap s !! b_exec s = Some be ->
    height bb <= height be ->
    commit_path s b [] b
| commit_path_step a ab be p pb q b :
    heap s !! a = Some ab -> heap s !! b_exec s = Some be ->
    height be < height ab ->
    head (parents ab) = Some p -> heap s !! p = Some pb ->
    height pb < height ab ->
    commit_path s p q b ->
    commit_path s a (a :: q) b.

(** The outputs of committing one block: [do_consensus], then one
    [Finality] per command. *)
Definition finalities (id : ReplicaID) (b : Block) : list Event :=
  imap (fun i c => do_decide (Finality.mk id 1%Z (N.of_nat i mod uint32_max) (height b) c (get_hash b))) (cmds b).
Definition commit_events (s : HotStuffCore) (a : addr) : list Event :=
  match heap s !! a with
  | Some b => do_consensus a :: finalities (hsc_id s) b
  | None => []
  end.
Definition height_of (s : HotStuffCore) (a : addr) : N :=
  match heap s !! a with Some b => height b | None => 0 end.

(** One iteration of the commit loop. *)
Definition commit_one (a : addr) (s : HotStuffCore) : HotStuffCore :=
  match heap s !! a with
  | Some b => with_out (out s ++ do_consensus a :: finalities (hsc_id s) b)
                (with_heap (<[a := with_decision 1%Z b]> (heap s)) s)
  | None => s
  end.

(** The state reached by the commit loop over [l] from [s]. *)
Record committed (s : HotStuffCore) (l : list addr) (s' : HotStuffCore) : Prop := {
  committed_out : out s' = out s ++ flat_map (commit_events s) l;
  committed_heap : forall a, heap s' !! a =
      if decide (a ∈ l) then with_decision 1%Z <$> heap s !! a else heap s !! a;
  committed_rest : s' = with_out (out s') (with_heap (heap s') s) }.


(** ** Delivery *)

(** The delivered block a hash stands for, if any ([get_delivered_blk]). *)
Definition delivered_of (s : HotStuffCore) (h : uint256_t) : option addr :=
  p ← storage s !! h;
  pb ← heap s !! p;
  if delivered pb then Some p else None.

(** Every stored hash points to a block object. *)
Definition storage_valid (s : HotStuffCore) : Prop :=
  forall h p, storage s !! h = Some p -> is_Some (heap s !! p).

(** The invariants a block must satisfy to be delivered. *)
Definition valid_blk (s : HotStuffCore) (b : Block) : bool :=
  negb (delivered b) &&
  forallb (fun h => bool_decide (is_Some (delivered_of s h))) (parent_hashes b) &&
  match qc b with
  | Some _ => bool_decide (is_Some (storage s !! qc_ref_hash b))
  | None => true
  end.

(** The state in which the block at [blk] is replaced by [b']. *)
Definition with_blk (blk : addr) (b' : Block) (s : HotStuffCore) : HotStuffCore :=
  with_heap (<[blk := b']> (heap s)) s.

(** The block [b] once delivered with the parents [ps]. *)
Definition delivered_blk (s : HotStuffCore) (b : Block) (ps : list addr) : Block :=
  with_delivered true
    (with_qc_ref (match qc b with Some _ => storage s !! qc_ref_hash b | None => qc_ref b end)
       (with_height ((height_of s (default 0 (head ps)) + 1) mod uint32_max)
          (with_parents ps b))).
(** [tails] once the parents [ps] are erased and [blk], of height [h], is
    inserted. *)
Definition tails_delivered (s : HotStuffCore) (blk : addr) (h : N) (ps : list addr) : gmap N addr :=
  set_insert_by_height h blk (foldl (fun t p => delete (height_of s p) t) (tails s) ps).

(** ** Pruning *)

(** A chain of single-parent blocks, from its tip down to a block without
    parents. *)
Fixpoint linear_chain (s : HotStuffCore) (l : list addr) : Prop :=
  match l with
  | [] => False
  | [c] => exists b, heap s !! c = Some b /\ parents b = []
  | c :: (p :: _) as l' => (exists b, heap s !! c = Some b /\ parents b = [p]) /\ linear_chain s l'
  end.

(** What the second loop of [prune] does to a block with one parent. *)
Definition pruned (b : Block) : Block := with_parents [] (with_qc_ref None b).

(** The heap once the loop went down a chain: every block but the last is
    pruned. *)
Fixpoint descend_heap (l : list addr) (h : gmap addr Block) : gmap addr Block :=
  match l with
  | c :: (_ :: _) as l' => descend_heap l' (alter pruned c h)
  | _ => h
  end.

Definition hash_of (s : HotStuffCore) (a : addr) : uint256_t :=
  match heap s !! a with Some b => hash b | None => 0 end.

(** The store once the blocks of [l] are released. *)
Definition release_all (s : HotStuffCore) (l : list addr) (m : gmap uint256_t addr) : gmap uint256_t addr :=
  foldl (fun m a => delete (hash_of s a) m) m l.


(** ** Equivocation *)

(** The core went through [on_init]: the certificates and [hqc] are set. *)
Definition initialised (s : HotStuffCore) : Prop :=
  exists q first second hb,
    blame_qc s = Some q /\ hqc s = (Some first, Some second) /\ heap s !! first = Some hb.

(** The outputs of the view-change engine. *)
Definition is_view_change_event (ev : Event) : bool :=
  match ev with
  | stop_blame_timer | do_broadcast_blame _ | do_broadcast_blamenotify _
  | stop_commit_timer_all | set_viewtrans_timer _ => true
  | _ => false
  end.

(** The Blame message of a replica for its current view. *)
Definition own_blame (s : HotStuffCore) : Blame.t :=
  Blame.mk (hsc_id s) (view s)
    (create_part_cert (priv_key s) (Blame.proof_obj_hash (hashing s) (view s))).

(** What [_blame] leaves unchanged and what it outputs. *)
Record blamed_from (s s' : HotStuffCore) : Prop := {
  bf_heap : heap s' = heap s;
  bf_storage : storage s' = storage s;
  bf_hqc : hqc s' = hqc s;
  bf_vheight : vheight s' = vheight s;
  bf_view : view s' = view s;
  bf_proposals : proposals s' = proposals s;
  bf_finished : finished_propose s' = finished_propose s;
  bf_echos : propagate_echos s' = propagate_echos s;
  bf_acks : propagate_acks s' = propagate_acks s;
  bf_qc_waiting : qc_waiting s' = qc_waiting s;
  bf_rpw : receive_proposal_waiting s' = receive_proposal_waiting s;
  bf_out : exists mid,
    out s' = out s ++ stop_blame_timer :: mid ++ [do_broadcast_blame (own_blame s)] /\
    forallb is_view_change_event mid = true }.

(** The state of the core when the second of two distinct proposals of one
    height arrives. *)
Record second_proposal (s : HotStuffCore) (bnew : addr) (b : Block) (b1 : addr) : Prop := {
  sp_view_trans : view_trans s = false;
  sp_unfinished : is_finished s bnew = false;
  sp_block : heap s !! bnew = Some b;
  sp_delivered : delivered b = true;
  sp_slot : pslot_of s (height b) = {[ b1 ]};
  sp_distinct : b1 <> bnew;
  sp_initialised : initialised s;
  sp_qc_ref : forall r, qc_ref b = Some r ->
    exists q rb, qc b = Some q /\ heap s !! r = Some rb /\
      QuorumCert.obj_hash q = Vote.proof_obj_hash (hashing s) (get_hash rb) }.


(** ** Commits and resolved promises *)

Definition decided_in (s : HotStuffCore) (a : addr) : Prop :=
  exists b, heap s !! a = Some b /\ decision b = 1%Z.

(** The outputs of a commit. *)
Definition is_commit_event (ev : Event) : bool :=
  match ev with
  | do_decide _ | do_consensus _ => true
  | _ => false
  end.

(** [quiet s s']: from [s] to [s'] no block became decided, no commit was
    output, and no resolved promise was lost. *)
Record quiet (s s' : HotStuffCore) : Prop := {
  quiet_decided : forall a, decided_in s' a -> decided_in s a;
  quiet_out : List.filter is_commit_event (out s') = List.filter is_commit_event (out s);
  quiet_resolved : forall p, is_resolved s p = true -> is_resolved s' p = true }.

(** [quietly m]: whenever [m] returns or throws, the state it reaches is
    [quiet] with respect to the state it started from. *)
Definition quietly {A} (m : M A) : Prop :=
  forall s, match m s with
            | Ret _ s' => quiet s s'
            | Raise _ s' => quiet s s'
            | _ => True
            end.

(** The inputs through which [check_commit] is reached. *)
Definition commits (i : Input) : bool :=
  match i with
  | In_on_receive_pre_commit _ | In_on_pre_commit_timeout _ | In_on_commit_timeout _ => true
  | _ => false
  end.

(** The PreCommit [pc] is the one that completes the quorum of its block. *)
Definition pre_commit_quorum (s : HotStuffCore) (pc : PreCommit.t) : Prop :=
  exists blk b,
    delivered_of s (PreCommit.blk_hash pc) = Some blk /\ heap s !! blk = Some b /\
    (PreCommit.rid pc ∉ preCommitted b) /\
    set_size (preCommitted b ∪ {[ PreCommit.rid pc ]}) = ReplicaConfig.nmajority (config s).

(** The PreCommit a replica sends for a block on its pre-commit timeout. *)
Definition own_pre_commit (s : HotStuffCore) (b : Block) : PreCommit.t :=
  PreCommit.mk (hsc_id s) (get_hash b)
    (create_part_cert (priv_key s) (PreCommit.proof_obj_hash (hashing s) (get_hash b))).

(** No block became decided and no commit was output. *)
Definition no_commit (s s' : HotStuffCore) : Prop :=
  (forall a, decided_in s' a -> decided_in s a) /\
  List.filter is_commit_event (out s') = List.filter is_commit_event (out s).

(** Which handler calls reach [check_commit]. *)
Inductive commit_trigger (s : HotStuffCore) : Input -> Prop :=
  | trigger_pre_commit pc :
      pre_commit_quorum s pc -> commit_trigger s (In_on_receive_pre_commit pc)
  | trigger_pre_commit_timeout blk b :
      heap s !! blk = Some b -> pre_commit_quorum s (own_pre_commit s b) ->
      commit_trigger s (In_on_pre_commit_timeout blk)
  | trigger_commit_timeout blk : commit_trigger s (In_on_commit_timeout blk).

(** ** Waiting for a quorum certificate *)

(** [echo] is the Echo that completes the echo quorum of the delivered
    block [blk], in time. *)
Record echo_quorum (s : HotStuffCore) (echo : Echo.t) (blk : addr) : Prop := {
  eq_cert : is_Some (Echo.cert echo);
  eq_new : Echo.rid echo ∉ echos_of s (Echo.blk_hash echo);
  eq_size : set_size (echos_of s (Echo.blk_hash echo)) + 1 = ReplicaConfig.nmajority (config s);
  eq_timely : is_propagate_timeout s (Echo.blk_hash echo) = false;
  eq_opcode : Echo.opcode echo = PropagateType.BLOCK;
  eq_delivered : delivered_of s (Echo.blk_hash echo) = Some blk }.

(** The certificate that the votes for a block are added to. *)
Definition aggregated (s : HotStuffCore) (b : Block) : QuorumCert.t :=
  match self_qc b with
  | Some q => q
  | None => QuorumCert.mk (Vote.proof_obj_hash (hashing s) (get_hash b)) [] false
  end.

(** [vote] is the Vote that completes the vote quorum of the block [blk],
    whose proposal has been processed. *)
Record vote_quorum (s : HotStuffCore) (vote : Vote.t) (blk : addr) (b : Block) (c : PartCert.t) : Prop := {
  vq_delivered : delivered_of s (Vote.blk_hash vote) = Some blk;
  vq_block : heap s !! blk = Some b;
  vq_finished : is_finished s blk = true;
  vq_cert : Vote.cert vote = Some c;
  vq_new : Vote.voter vote ∉ voted b;
  vq_size : set_size (voted b) + 1 = ReplicaConfig.nmajority (config s);
  vq_obj : QuorumCert.obj_hash (aggregated s b) = Vote.proof_obj_hash (hashing s) (get_hash b);
  vq_hqc : exists first hb, (hqc s).1 = Some first /\ heap s !! first = Some hb }.

(** [wlp m Q E s]: if [m] returns from [s] the result and the state satisfy
    [Q], if it throws they satisfy [E]. *)
Definition wlp {A} (m : M A) (Q : A -> HotStuffCore -> Prop)
    (E : string -> HotStuffCore -> Prop) (s : HotStuffCore) : Prop :=
  match m s with
  | Ret a s' => Q a s'
  | Raise e s' => E e s'
  | _ => True
  end.
(** * Vocabulary of the further properties *)

(** The state a call leaves behind, whether it returns or throws. *)
Definition state_of {A} (o : outcome A) : option HotStuffCore :=
  match o with
  | Ret _ s' | Raise _ s' => Some s'
  | _ => None
  end.

(** [keeps_at R m s]: if [m] returns or throws from [s], the state it
    leaves is related to [s] by [R]; [keeps R m]: from every state. *)
Definition keeps_at {A} (R : relation HotStuffCore) (m : M A) (s : HotStuffCore) : Prop :=
  forall s', state_of (m s) = Some s' -> R s s'.
Definition keeps {A} (R : relation HotStuffCore) (m : M A) : Prop :=
  forall s, keeps_at R m s.

(** A call that reads the state only. *)
Definition reads {A} (m : M A) : Prop :=
  forall s s', state_of (m s) = Some s' -> s' = s.

(** The states the host can drive the core to: one call after the other,
    each returning or throwing. *)
Inductive reaches : HotStuffCore -> HotStuffCore -> Prop :=
| reaches_refl s : reaches s s
| reaches_step fuel i s s1 s2 :
    state_of (step fuel i s) = Some s1 -> reaches s1 s2 -> reaches s s2.

Record block_grows (b b' : Block) : Prop := {
  bg_hash : hash b' = hash b;
  bg_cmds : cmds b' = cmds b;
  bg_parent_hashes : parent_hashes b' = parent_hashes b;
  bg_delivered : delivered b = true -> delivered b' = true /\ height b' = height b;
  bg_decision : decision b = 1%Z -> decision b' = 1%Z;
  bg_voted : voted b ⊆ voted b';
  bg_preCommitted : preCommitted b ⊆ preCommitted b' }.

Record grows (s s' : HotStuffCore) : Prop := {
  g_heap : forall a b, heap s !! a = Some b ->
    exists b', heap s' !! a = Some b' /\ block_grows b b';
  g_echos : forall h, echos_of s h ⊆ echos_of s' h;
  g_acks : forall h, acks_of s h ⊆ acks_of s' h;
  g_finished : forall a, is_finished s a = true -> is_finished s' a = true;
  g_resolved : forall p, is_resolved s p = true -> is_resolved s' p = true;
  g_out : out s `prefix_of` out s';
  g_storage : forall h a, storage s' !! h = Some a ->
    storage s !! h = Some a \/
    (heap s !! a = None /\ exists b, heap s' !! a = Some b /\ hash b = h) }.

(** While the block at [blk] is undelivered, its height may be written. *)
Definition undelivered (s : HotStuffCore) (blk : addr) : Prop :=
  exists b, heap s !! blk = Some b /\ delivered b = false.
Definition grows_undelivered (blk : addr) (s s' : HotStuffCore) : Prop :=
  undelivered s blk -> grows s s' /\ undelivered s' blk.

(** The view and what is recorded for it. *)
Record same_view (s s' : HotStuffCore) : Prop := {
  sv_view : view s' = view s;
  sv_view_trans : view_trans s = true -> view_trans s' = true;
  sv_blamed : blamed s ⊆ blamed s';
  sv_proposals : forall h, pslot_of s h ⊆ pslot_of s' h }.

(** The block store. *)
Definition same_store (s s' : HotStuffCore) : Prop :=
  forall h a, storage s !! h = Some a -> storage s' !! h = Some a.

(** The configuration and the feature switch. *)
Definition same_config (s s' : HotStuffCore) : Prop :=
  config s' = config s /\ vote_disabled s' = vote_disabled s.

(** The calls that change the view, release blocks, or configure. *)
Definition changes_view (i : Input) : bool :=
  match i with In_on_viewtrans_timeout => true | _ => false end.
Definition releases (i : Input) : bool :=
  match i with In_prune _ => true | _ => false end.
Definition configures (i : Input) : bool :=
  match i with
  | In_on_init _ _ | In_add_replica _ _ _ | In_set_vote_disabled _ => true
  | _ => false
  end.

(** [guarded G Q]: from a state where the switch [G] is set, the switch
    stays set and [Q] relates the states. *)
Definition guarded (G : HotStuffCore -> bool) (Q : relation HotStuffCore)
    (s s' : HotStuffCore) : Prop :=
  G s = true -> Q s s' /\ G s' = true.

(** The outputs the core does not make during a view transition. *)
Definition suspended (ev : Event) : bool :=
  match ev with
  | do_broadcast_vote _ | do_broadcast_echo _ | do_send_echo _ _ | set_propagate_timer _ _
  | set_pre_commit_timer _ _ | do_broadcast_blamenotify _ | set_viewtrans_timer _
  | stop_commit_timer_all => true
  | _ => false
  end.

(** What does not move during a view transition. *)
Record frozen (s s' : HotStuffCore) : Prop := {
  fz_view : view s' = view s;
  fz_vheight : vheight s' = vheight s;
  fz_proposals : proposals s' = proposals s;
  fz_finished : finished_propose s' = finished_propose s;
  fz_blamed : blamed s' = blamed s;
  fz_out : List.filter suspended (out s') = List.filter suspended (out s) }.

(** No Vote is output. *)
Definition no_vote (s s' : HotStuffCore) : Prop :=
  List.filter is_vote (out s') = List.filter is_vote (out s).

(** The state once the Blame of [blamer], with certificate [c], is counted
    into the blame certificate [q]. *)
Definition blame_counted (blamer : ReplicaID) (c : PartCert.t) (q : QuorumCert.t)
    (s : HotStuffCore) : HotStuffCore :=
  with_blame_qc (Some (QuorumCert.add_part blamer c q))
    (with_blamed (blamed s ∪ {[ blamer ]}) s).

(** The state [on_viewtrans_timeout] leaves, but for the promise of the
    view change and the outputs. *)
Definition next_view (s : HotStuffCore) : HotStuffCore :=
  let v := (view s + 1) mod uint32_max in
  with_blamed ∅
    (with_blame_qc (create_quorum_cert (Blame.proof_obj_hash (hashing s) v))
       (with_proposals ∅ (with_view_trans false (with_view v s)))).

(** [after m P s]: whenever [m] returns from [s], [P] holds of the state it
    leaves. *)
Definition after {A} (m : M A) (P : HotStuffCore -> Prop) (s : HotStuffCore) : Prop :=
  forall a s', m s = Ret a s' -> P s'.

(** What a Vote leaves recorded. *)
Definition vote_recorded (fuel : nat) (vote : Vote.t) (s : HotStuffCore) : Prop :=
  is_Some (Vote.cert vote) /\
  exists blk b,
    storage s !! Vote.blk_hash vote = Some blk /\ heap s !! blk = Some b /\
    delivered b = true /\
    (is_finished s blk = true \/ (view_trans s = true /\ fuel <> 0%nat)) /\
    (ReplicaConfig.nmajority (config s) <= set_size (voted b) \/ Vote.voter vote ∈ voted b).

Definition pre_commit_recorded (pc : PreCommit.t) (s : HotStuffCore) : Prop :=
  is_Some (PreCommit.cert pc) /\
  exists blk b,
    storage s !! PreCommit.blk_hash pc = Some blk /\ heap s !! blk = Some b /\
    delivered b = true /\
    (ReplicaConfig.nmajority (config s) <= set_size (preCommitted b) \/
     PreCommit.rid pc ∈ preCommitted b).

(** The commit loop writes decisions only. *)
Definition same_heights (s s' : HotStuffCore) : Prop :=
  forall a b, heap s !! a = Some b -> exists b', heap s' !! a = Some b' /\ height b' = height b.

(** The calls whose repetition is without effect. *)
Definition replayable (i : Input) : bool :=
  match i with
  | In_on_deliver_blk _ | In_on_receive_proposal _ | In_on_receive_vote _
  | In_on_receive_blame _ | In_on_receive_blamenotify _ | In_on_receive_echo _
  | In_on_receive_ack _ | In_on_receive_pre_commit _ | In_on_commit_timeout _ => true
  | _ => false
  end.

(** An Ack quorum is completed between [s] and [s']. *)
Definition ack_quorum_formed (s s' : HotStuffCore) : Prop :=
  exists h, set_size (acks_of s h) < ReplicaConfig.nmajority (config s) /\
            ReplicaConfig.nmajority (config s) <= set_size (acks_of s' h).

(** Votes are output only when an Ack quorum is completed. *)
Record votes_on_ack_quorum (s s' : HotStuffCore) : Prop := {
  vq_config : config s' = config s;
  vq_acks : forall h, acks_of s h ⊆ acks_of s' h;
  vq_votes : no_vote s s' \/ ack_quorum_formed s s' }.

(** [vheight] is not written. *)
Definition same_vheight (s s' : HotStuffCore) : Prop := vheight s' = vheight s.

(** The state once the sender of [echo] is recorded for its hash. *)
Definition echo_counted (echo : Echo.t) (s : HotStuffCore) : HotStuffCore :=
  with_propagate_echos
    (<[Echo.blk_hash echo := echos_of s (Echo.blk_hash echo) ∪ {[ Echo.rid echo ]}]>
       (propagate_echos s)) s.

(** The Ack of the replica for a hash. *)
Definition own_ack (s : HotStuffCore) (h : uint256_t) : Ack.t :=
  Ack.mk (hsc_id s) h PropagateType.BLOCK
    (create_part_cert (priv_key s) (Ack.proof_obj_hash (hashing s) h)).

(** [hqc] is set: it names a block object and carries a certificate. *)
Definition hqc_set (s : HotStuffCore) : Prop :=
  exists first second hb, hqc s = (Some first, Some second) /\ heap s !! first = Some hb.

Definition keeps_hqc_set (s s' : HotStuffCore) : Prop := hqc_set s -> hqc_set s'.

(** The link of a delivered block to its first parent: the parent is a
    delivered block object and the block is one higher (in [uint32_t]). *)
Definition link_ok (s : HotStuffCore) (b : Block) : bool :=
  match delivered b, head (parents b) with
  | true, Some p =>
      match heap s !! p with
      | Some pb => delivered pb && (height b =? (height pb + 1) mod uint32_max)
      | None => false
      end
  | _, _ => true
  end.

(** Every block object is linked to its first parent. *)
Definition chained (s : HotStuffCore) : Prop :=
  map_Forall (fun _ b => link_ok s b = true) (heap s).

Definition keeps_chained (s s' : HotStuffCore) : Prop := chained s -> chained s'.

(** While [on_deliver_blk] fills its block, the block is undelivered and
    the parents pushed so far are delivered. *)
Definition filling (blk : addr) (linked : bool) (s : HotStuffCore) : Prop :=
  chained s /\
  exists b, heap s !! blk = Some b /\ delivered b = false /\
    Forall (fun p => exists pb, heap s !! p = Some pb /\ delivered pb = true) (parents b) /\
    (linked = true -> link_ok s (with_delivered true b) = true).

(** * Reasoning about handlers *)

(** Reduction of the projections of the core and of a block over their
    field updates, and of nothing else. *)
Ltac fields :=
  cbn [hashing heap storage b0 hqc b_exec vheight view view_trans proposals
    finished_propose blame_qc blamed last_qc_ref priv_key tails config
    qc_waiting propose_waiting receive_proposal_waiting hqc_update_waiting
    view_change_waiting view_trans_waiting vote_disabled hsc_id
    propagate_echos propagate_acks promises commit_interval proposer
    propagate_timeout ack_timeout out with_heap with_storage with_hqc
    with_b_exec with_vheight with_view with_view_trans with_proposals
    with_finished_propose with_blame_qc with_blamed with_last_qc_ref
    with_tails with_config with_qc_waiting with_propose_waiting
    with_receive_proposal_waiting with_hqc_update_waiting
    with_view_change_waiting with_view_trans_waiting with_vote_disabled
    with_propagate_echos with_propagate_acks with_promises with_proposer
    with_propagate_timeout with_ack_timeout with_out parent_hashes cmds qc
    qc_ref_hash extra hash parents qc_ref self_qc height delivered decision
    voted preCommitted with_qc with_parents with_qc_ref with_self_qc
    with_height with_delivered with_decision with_voted with_preCommitted fst
    snd].
Ltac fields_in_all :=
  cbn [hashing heap storage b0 hqc b_exec vheight view view_trans proposals
    finished_propose blame_qc blamed last_qc_ref priv_key tails config
    qc_waiting propose_waiting receive_proposal_waiting hqc_update_waiting
    view_change_waiting view_trans_waiting vote_disabled hsc_id
    propagate_echos propagate_acks promises commit_interval proposer
    propagate_timeout ack_timeout out with_heap with_storage with_hqc
    with_b_exec with_vheight with_view with_view_trans with_proposals
    with_finished_propose with_blame_qc with_blamed with_last_qc_ref
    with_tails with_config with_qc_waiting with_propose_waiting
    with_receive_proposal_waiting with_hqc_update_waiting
    with_view_change_waiting with_view_trans_waiting with_vote_disabled
    with_propagate_echos with_propagate_acks with_promises with_proposer
    with_propagate_timeout with_ack_timeout with_out parent_hashes cmds qc
    qc_ref_hash extra hash parents qc_ref self_qc height delivered decision
    voted preCommitted with_qc with_parents with_qc_ref with_self_qc
    with_height with_delivered with_decision with_voted with_preCommitted fst
    snd] in *.


(** ** Extensionality of the records *)

Lemma Block_ext (s1 s2 : Block) :
  parent_hashes s1 = parent_hashes s2 ->
  cmds s1 = cmds s2 ->
  qc s1 = qc s2 ->
  qc_ref_hash s1 = qc_ref_hash s2 ->
  extra s1 = extra s2 ->
  hash s1 = hash s2 ->
  parents s1 = parents s2 ->
  qc_ref s1 = qc_ref s2 ->
  self_qc s1 = self_qc s2 ->
  height s1 = height s2 ->
  delivered s1 = delivered s2 ->
  decision s1 = decision s2 ->
  voted s1 = voted s2 ->
  preCommitted s1 = preCommitted s2 ->
  s1 = s2.
Proof. destruct s1, s2. cbn. intros. by subst. Qed.

Lemma HotStuffCore_ext (s1 s2 : HotStuffCore) :
  hashing s1 = hashing s2 ->
  heap s1 = heap s2 ->
  storage s1 = storage s2 ->
  b0 s1 = b0 s2 ->
  hqc s1 = hqc s2 ->
  b_exec s1 = b_exec s2 ->
  vheight s1 = vheight s2 ->
  view s1 = view s2 ->
  view_trans s1 = view_trans s2 ->
  proposals s1 = proposals s2 ->
  finished_propose s1 = finished_propose s2 ->
  blame_qc s1 = blame_qc s2 ->
  blamed s1 = blamed s2 ->
  last_qc_ref s1 = last_qc_ref s2 ->
  priv_key s1 = priv_key s2 ->
  tails s1 = tails s2 ->
  config s1 = config s2 ->
  qc_waiting s1 = qc_waiting s2 ->
  propose_waiting s1 = propose_waiting s2 ->
  receive_proposal_waiting s1 = receive_proposal_waiting s2 ->
  hqc_update_waiting s1 = hqc_update_waiting s2 ->
  view_change_waiting s1 = view_change_waiting s2 ->
  view_trans_waiting s1 = view_trans_waiting s2 ->
  vote_disabled s1 = vote_disabled s2 ->
  hsc_id s1 = hsc_id s2 ->
  propagate_echos s1 = propagate_echos s2 ->
  propagate_acks s1 = propagate_acks s2 ->
  promises s1 = promises s2 ->
  commit_interval s1 = commit_interval s2 ->
  proposer s1 = proposer s2 ->
  propagate_timeout s1 = propagate_timeout s2 ->
  ack_timeout s1 = ack_timeout s2 ->
  out s1 = out s2 ->
  s1 = s2.
Proof. destruct s1, s2. cbn. intros. by subst. Qed.

(** Equality of two states, or of two blocks, field by field. *)
Ltac state_eq := apply HotStuffCore_ext; fields; try reflexivity.
Ltac block_eq := apply Block_ext; fields; try reflexivity.

(** ** Rules of the weakest preconditions *)

Lemma wp_elim {A} (m : M A) (Q : A -> HotStuffCore -> Prop) s :
  wp m Q s -> exists a s', m s = Ret a s' /\ Q a s'.
Proof. unfold wpx. destruct (m s); try done. eauto. Qed.

Lemma wp_elim_unit (m : M unit) (Q : HotStuffCore -> Prop) s :
  wp m (fun _ s' => Q s') s -> exists s', m s = Ret tt s' /\ Q s'.
Proof. intros W. apply wp_elim in W as ([] & s' & E & W). eauto. Qed.

Lemma wpx_elim_raise {A} (m : M A) (E : string -> HotStuffCore -> Prop) s :
  wpx m (fun _ _ => False) E s -> exists e s', m s = Raise e s' /\ E e s'.
Proof. unfold wpx. destruct (m s); try done. eauto. Qed.

Lemma wp_intro {A} (m : M A) (Q : A -> HotStuffCore -> Prop) E s a s' :
  m s = Ret a s' -> Q a s' -> wpx m Q E s.
Proof. unfold wpx. by intros ->. Qed.

Lemma wpx_mono {A} (m : M A) (Q Q' : A -> HotStuffCore -> Prop) (E E' : string -> HotStuffCore -> Prop) s :
  wpx m Q E s -> (forall a s', Q a s' -> Q' a s') -> (forall e s', E e s' -> E' e s') ->
  wpx m Q' E' s.
Proof. unfold wpx. destruct (m s); try done; auto. Qed.

Lemma wp_state_eq {A} (m : M A) Q E s s' : s = s' -> wpx m Q E s' -> wpx m Q E s.
Proof. by intros ->. Qed.

Lemma wp_bind {A B} (m : M A) (f : A -> M B) Q E s :
  wpx m (fun a s' => wpx (f a) Q E s') E s -> wpx (m ≫= f) Q E s.
Proof. unfold wpx, mbind, M_bind. by destruct (m s). Qed.

Lemma wp_ret {A} (a : A) (Q : A -> HotStuffCore -> Prop) E s : Q a s -> wpx (mret a) Q E s.
Proof. done. Qed.

Lemma wp_throw {A} e (Q : A -> HotStuffCore -> Prop) (E : string -> HotStuffCore -> Prop) s :
  E e s -> wpx (throw e) Q E s.
Proof. done. Qed.

Lemma wp_get (Q : HotStuffCore -> HotStuffCore -> Prop) E s : Q s s -> wpx get Q E s.
Proof. done. Qed.

Lemma wp_gets {A} (f : HotStuffCore -> A) (Q : A -> HotStuffCore -> Prop) E s :
  Q (f s) s -> wpx (gets f) Q E s.
Proof. done. Qed.

Lemma wp_modify f (Q : unit -> HotStuffCore -> Prop) E s : Q tt (f s) -> wpx (modify f) Q E s.
Proof. done. Qed.

Lemma wp_emit ev (Q : unit -> HotStuffCore -> Prop) E s :
  Q tt (with_out (out s ++ [ev]) s) -> wpx (emit ev) Q E s.
Proof. done. Qed.

Lemma wp_assert b (Q : unit -> HotStuffCore -> Prop) E s : b = true -> Q tt s -> wpx (assert b) Q E s.
Proof. by intros ->. Qed.

Lemma wp_nonzero n (Q : unit -> HotStuffCore -> Prop) E s : n <> 0 -> Q tt s -> wpx (nonzero n) Q E s.
Proof. intros Hn HQ. unfold nonzero. by destruct (N.eqb_spec n 0). Qed.

Lemma wp_deref a b (Q : Block -> HotStuffCore -> Prop) E s :
  heap s !! a = Some b -> Q b s -> wpx (deref a) Q E s.
Proof. intros Hb HQ. unfold wpx, deref, mbind, M_bind, get. by rewrite Hb. Qed.

Lemma wp_deref_opt {A} (p : option A) x (Q : A -> HotStuffCore -> Prop) E s :
  p = Some x -> Q x s -> wpx (deref_opt p) Q E s.
Proof. by intros ->. Qed.

Lemma wp_update a f b (Q : unit -> HotStuffCore -> Prop) E s :
  heap s !! a = Some b -> Q tt (with_heap (<[a := f b]> (heap s)) s) -> wpx (update a f) Q E s.
Proof.
  intros Hb HQ. unfold update. apply wp_bind. eapply wp_deref; [done|]. by apply wp_modify.
Qed.

Lemma wp_new_promise (Q : promise_t -> HotStuffCore -> Prop) E s :
  Q (fresh (dom (promises s)))
    (with_promises (<[fresh (dom (promises s)) := pm_pending]> (promises s)) s) ->
  wpx new_promise Q E s.
Proof. done. Qed.

Lemma wp_resolve p v (Q : unit -> HotStuffCore -> Prop) E s :
  Q tt (with_promises (resolve_in p v (promises s)) s) -> wpx (resolve p v) Q E s.
Proof. done. Qed.

Lemma wp_find_blk h (Q : option addr -> HotStuffCore -> Prop) E s :
  Q (storage s !! h) s -> wpx (find_blk h) Q E s.
Proof. done. Qed.

(** One step of symbolic execution of the primitive at the head; a side
    condition is closed from the context or the step is not taken. *)
Ltac wp_side :=
  fields;
  first [ eassumption | reflexivity | apply lookup_insert_eq
        | rewrite !lookup_insert_ne by congruence; eassumption | done ].
Ltac wp_step :=
  lazymatch goal with
  | |- wpx (_ ≫= _) _ _ _ => apply wp_bind
  | |- wpx (mret _) _ _ _ => apply wp_ret
  | |- wpx (throw _) _ _ _ => apply wp_throw
  | |- wpx get _ _ _ => apply wp_get
  | |- wpx (gets _) _ _ _ => apply wp_gets
  | |- wpx (modify _) _ _ _ => apply wp_modify
  | |- wpx (emit _) _ _ _ => apply wp_emit
  | |- wpx new_promise _ _ _ => apply wp_new_promise
  | |- wpx (resolve _ _) _ _ _ => apply wp_resolve
  | |- wpx (find_blk _) _ _ _ => apply wp_find_blk
  | |- wpx (assert _) _ _ _ => apply wp_assert; [solve [wp_side]|]
  | |- wpx (nonzero _) _ _ _ => apply wp_nonzero; [solve [wp_side]|]
  | |- wpx (deref _) _ _ _ => eapply wp_deref; [solve [wp_side]|]
  | |- wpx (deref_opt _) _ _ _ => eapply wp_deref_opt; [solve [wp_side]|]
  | |- wpx (update _ _) _ _ _ =>
      eapply wp_update; [solve [wp_side]|]; fields; rewrite ?insert_insert_eq
  end; fields.
Ltac wp_steps := repeat wp_step.

(** ** Promises *)

Lemma resolve_in_resolved (m : gmap promise_t pm_state) p v :
  exists w, resolve_in p v m !! p = Some (pm_resolved w).
Proof.
  unfold resolve_in. destruct (m !! p) as [[|w]|] eqn:E;
    rewrite ?lookup_insert_eq, ?E; eauto.
Qed.

Lemma resolve_in_is_resolved (m : gmap promise_t pm_state) p v :
  match resolve_in p v m !! p with Some (pm_resolved _) => true | _ => false end = true.
Proof. by destruct (resolve_in_resolved m p v) as [w ->]. Qed.

Lemma resolve_in_other (m : gmap promise_t pm_state) p v p' :
  p' <> p -> resolve_in p v m !! p' = m !! p'.
Proof.
  intros Hne. unfold resolve_in. destruct (m !! p) as [[|w]|] eqn:E;
    rewrite ?lookup_insert_ne; done.
Qed.

Lemma is_resolved_resolve_in (s : HotStuffCore) p v :
  is_resolved (with_promises (resolve_in p v (promises s)) s) p = true.
Proof.
  unfold is_resolved. fields. by destruct (resolve_in_resolved (promises s) p v) as [w ->].
Qed.

(** * The view change on a BlameNotify *)

(** C10.  While [view_trans] is false, [on_receive_blamenotify] replaces
    [blame_qc] by a clone of the certificate of the message, whatever the
    view the message names and without any check of the certificate, and
    enters the view transition: [_new_view] finalises [blame_qc], sets
    [view_trans], resolves the view-transition promise, broadcasts a
    BlameNotify, stops the commit timers and arms the view-transition timer
    with [2 * delta].  While [view_trans] is true the message is ignored
    and the state is unchanged. *)
Theorem on_receive_blamenotify_unconditional (fuel : nat) (bn : BlameNotify.t) (s : HotStuffCore) :
  (view_trans s = true -> on_receive_blamenotify (S fuel) bn s = Ret tt s) /\
  (view_trans s = false ->
   forall q first second hb,
     BlameNotify.qc bn = Some q ->
     hqc s = (Some first, Some second) ->
     heap s !! first = Some hb ->
     exists s',
       on_receive_blamenotify (S (S fuel)) bn s = Ret tt s' /\
       blame_qc s' = Some (QuorumCert.compute (QuorumCert.clone q)) /\
       view_trans s' = true /\
       is_resolved s' (view_trans_waiting s) = true /\
       out s' = out s ++
         [do_broadcast_blamenotify
            (BlameNotify.mk (view s) (get_hash hb) (Some (QuorumCert.clone second))
               (Some (QuorumCert.clone (QuorumCert.compute (QuorumCert.clone q)))));
          stop_commit_timer_all;
          set_viewtrans_timer (Times 2 (ReplicaConfig.delta (config s)))] /\
       view s' = view s /\ hqc s' = hqc s /\ heap s' = heap s /\
       blamed s' = blamed s /\ proposals s' = proposals s /\ vheight s' = vheight s).
Proof.
  split.
  - intros Hvt. cbn [on_receive_blamenotify]. unfold mbind, M_bind, get. by rewrite Hvt.
  - intros Hvt q first second hb Hq Hhqc Hfirst.
    assert (Hf : (hqc s).1 = Some first) by (by rewrite Hhqc).
    assert (Hs : (hqc s).2 = Some second) by (by rewrite Hhqc).
    apply wp_elim_unit.
    cbn [on_receive_blamenotify]. wp_steps. rewrite Hvt. wp_steps.
    unfold _new_view. wp_steps.
    unfold on_view_trans. wp_steps.
    repeat split; try done.
    + unfold is_resolved. fields.
      by destruct (resolve_in_resolved
        (<[fresh (dom (promises s)) := pm_pending]> (promises s))
        (view_trans_waiting s) pm_void) as [w ->].
    + by rewrite <- !app_assoc.
Qed.

(** * Configuration *)

Lemma wp_add_replica rid addr pub_key g (Q : unit -> HotStuffCore -> Prop) s :
  heap s !! b0 s = Some g ->
  Q tt (with_heap (<[b0 s := with_voted (voted g ∪ {[ rid ]}) g]> (heap s))
          (with_config (ReplicaConfig.add_replica rid (Build_ReplicaInfo rid addr pub_key) (config s)) s)) ->
  wp (add_replica rid addr pub_key) Q s.
Proof. intros Hg HQ. unfold add_replica. wp_steps. exact HQ. Qed.

(** C9.  Each [add_replica] inserts the replica into the [voted] set of the
    genesis block: after the replicas of [l] are configured, the genesis
    block is recorded as voted for by all of them, although the only calls
    made are [add_replica] (no vote was processed, nothing was output and
    the certificate of the genesis block was not touched). *)
Theorem add_replica_votes_genesis (l : list (ReplicaID * N * N)) (s : HotStuffCore) (g : Block) :
  heap s !! b0 s = Some g ->
  exists s' g',
    run 0 (In_add_replicas l) s = Ret tt s' /\
    b0 s' = b0 s /\ heap s' !! b0 s = Some g' /\
    voted g' = voted g ∪ list_to_set l.*1.*1 /\
    self_qc g' = self_qc g /\
    out s' = out s.
Proof.
  revert s g. induction l as [|[[rid addr] pk] l IH]; intros s g Hg.
  - exists s, g. repeat split; try done. cbn. by rewrite union_empty_r_L.
  - set (s1 := with_heap (<[b0 s := with_voted (voted g ∪ {[ rid ]}) g]> (heap s))
          (with_config (ReplicaConfig.add_replica rid (Build_ReplicaInfo rid addr pk) (config s)) s)).
    destruct (IH s1 (with_voted (voted g ∪ {[ rid ]}) g)) as (s' & g' & E & Hb & Hg' & Hv & Hq & Ho).
    { subst s1. fields. by rewrite lookup_insert_eq. }
    exists s', g'. repeat split; try done.
    + cbn [In_add_replicas map run forM_ step].
      fold (In_add_replicas l). fold (run 0 (In_add_replicas l)).
      assert (W : wp (add_replica rid addr pk) (fun _ s' => s' = s1) s).
      { eapply wp_add_replica; done. }
      apply wp_elim_unit in W as (? & E1 & ->).
      unfold mbind, M_bind. by rewrite E1.
    + rewrite Hv. fields. cbn. by rewrite (assoc_L (∪)).
Qed.

(** * The commit rule *)

Lemma wpx_forM_ {A} (l : list A) (f : A -> M unit) (g : A -> HotStuffCore -> HotStuffCore)
    (I : HotStuffCore -> Prop) (Q : unit -> HotStuffCore -> Prop) E s :
  I s ->
  (forall x s, x ∈ l -> I s -> I (g x s) /\ forall Q', Q' tt (g x s) -> wpx (f x) Q' E s) ->
  Q tt (foldl (fun s x => g x s) s l) ->
  wpx (forM_ l f) Q E s.
Proof.
  revert s. induction l as [|x l IH]; intros s HI Hf HQ; cbn [forM_ foldl] in *.
  - by apply wp_ret.
  - destruct (Hf x s) as [HI' Hw]; [apply list_elem_of_here|done|].
    apply wp_bind. apply Hw. apply IH; [done| |done].
    intros y s' Hy. apply Hf. by apply list_elem_of_further.
Qed.

Lemma with_out_id (s : HotStuffCore) : with_out (out s) s = s.
Proof. by destruct s. Qed.

Lemma wp_emits_gen (f : nat -> uint256_t -> Event) (g : nat -> uint256_t -> nat * uint256_t)
    (l : list uint256_t) (Q : unit -> HotStuffCore -> Prop) s :
  Q tt (with_out (out s ++ imap (fun i c => f (g i c).1 (g i c).2) l) s) ->
  wp (forM_ (imap g l) (fun '(i, c) => emit (f i c))) Q s.
Proof.
  revert g s. induction l as [|c l IH]; intros g s HQ; cbn [imap forM_] in *.
  - apply wp_ret. by rewrite app_nil_r, with_out_id in HQ.
  - apply wp_bind. destruct (g 0%nat c) as [j d] eqn:E. apply wp_emit. apply IH.
    fields. rewrite <- app_assoc. exact HQ.
Qed.

Lemma wp_emits (f : nat -> uint256_t -> Event) (l : list uint256_t) (Q : unit -> HotStuffCore -> Prop) s :
  Q tt (with_out (out s ++ imap f l) s) ->
  wp (forM_ (imap (fun i c => (i, c)) l) (fun '(i, c) => emit (f i c))) Q s.
Proof. intros HQ. by apply wp_emits_gen. Qed.

Lemma wp_commit_body a b (Q : unit -> HotStuffCore -> Prop) s :
  heap s !! a = Some b -> Q tt (commit_one a s) -> wp (commit_body a) Q s.
Proof.
  intros Hb HQ. unfold commit_body, commit_one in *. rewrite Hb in HQ.
  wp_steps.
  apply (wp_emits (fun i c => do_decide (Finality.mk (hsc_id s) 1%Z (N.of_nat i mod uint32_max) (height b) c (get_hash b)))).
  fields. rewrite <- app_assoc. exact HQ.
Qed.

Lemma commit_one_heap_dom a s x : is_Some (heap (commit_one a s) !! x) <-> is_Some (heap s !! x).
Proof.
  unfold commit_one. destruct (heap s !! a) as [b|] eqn:E; [|done]. fields.
  destruct (decide (x = a)) as [->|Hne].
  - rewrite lookup_insert_eq, E. split; eauto.
  - by rewrite lookup_insert_ne.
Qed.

Lemma wp_commit_loop (l : list addr) (Q : unit -> HotStuffCore -> Prop) s :
  (forall a, a ∈ l -> is_Some (heap s !! a)) ->
  Q tt (foldl (fun s a => commit_one a s) s l) ->
  wp (forM_ l commit_body) Q s.
Proof.
  intros Hl HQ.
  apply (wpx_forM_ l commit_body commit_one (fun s' => forall a, a ∈ l -> is_Some (heap s' !! a))); [done| |done].
  intros x s' Hx HI. split.
  - intros a Ha. apply commit_one_heap_dom. auto.
  - intros Q' HQ'. destruct (HI x Hx) as [b Hb]. by eapply wp_commit_body.
Qed.

Lemma wp_commit_walk s fuel a q b acc :
  commit_path s a q b -> (length q < fuel)%nat ->
  wp (commit_walk fuel a acc) (fun r s' => s' = s /\ r = (acc ++ q, b)) s.
Proof.
  intros Hp. revert fuel acc. induction Hp as [b bb be Hb He Hle|a ab be p pb q b Ha He Hlt Hh Hpb Hdec Hp IH];
    intros fuel acc Hf; (destruct fuel as [|fuel]; [cbn in Hf; lia|]); cbn [commit_walk].
  - wp_steps. apply N.ltb_ge in Hle. rewrite Hle. wp_steps. by rewrite app_nil_r.
  - wp_steps. apply N.ltb_lt in Hlt. rewrite Hlt. wp_steps.
    eapply wpx_mono; [apply IH; cbn in Hf; lia| |done].
    intros r s' [-> ->]. by rewrite <- app_assoc.
Qed.

Lemma commit_path_heights s a q b :
  commit_path s a q b ->
  (forall x, x ∈ q -> height_of s x <= height_of s a) /\
  StronglySorted (fun x y => height_of s y < height_of s x) q.
Proof.
  induction 1 as [b bb be Hb He Hle|a ab be p pb q b Ha He Hlt Hh Hpb Hdec Hp [IH1 IH2]].
  - split; [by intros x Hx%elem_of_nil|constructor].
  - assert (Hpa : height_of s p < height_of s a).
    { unfold height_of. by rewrite Ha, Hpb. }
    split.
    + intros x [->|Hx]%elem_of_cons; [lia|]. specialize (IH1 x Hx). lia.
    + constructor; [done|]. apply Forall_forall. intros x Hx.
      specialize (IH1 x Hx). lia.
Qed.

Lemma StronglySorted_rev_flip {A} (R : relation A) (l : list A) :
  StronglySorted R l -> StronglySorted (flip R) (rev l).
Proof.
  induction 1 as [|x l Hl IH Hx]; cbn [rev]; [constructor|].
  apply StronglySorted_app_2; [|exact IH|repeat constructor].
  intros x1 x2 Hx1 Hx2. apply list_elem_of_singleton in Hx2 as ->. unfold flip.
  rewrite Forall_forall in Hx. apply Hx. apply list_elem_of_In, in_rev. by apply list_elem_of_In.
Qed.

Lemma commit_path_in_heap s a q b :
  commit_path s a q b -> forall x, x ∈ q -> is_Some (heap s !! x).
Proof.
  induction 1 as [|a ab be p pb q b Ha He Hlt Hh Hpb Hdec Hp IH]; intros x Hx.
  - by apply elem_of_nil in Hx.
  - apply elem_of_cons in Hx as [->|Hx]; eauto.
Qed.

Lemma with_out_heap_rest (s s1 : HotStuffCore) X Y :
  s1 = with_out (out s1) (with_heap (heap s1) s) ->
  with_out X (with_heap Y s1) = with_out X (with_heap Y s).
Proof. intros ->. reflexivity. Qed.

Lemma commit_loop_committed s l : committed s l (foldl (fun s a => commit_one a s) s l).
Proof.
  induction l as [|a l IH] using rev_ind.
  - split; cbn.
    + by rewrite app_nil_r.
    + intros a. by rewrite decide_False by apply not_elem_of_nil.
    + by destruct s.
  - rewrite foldl_snoc. set (s1 := foldl _ s l) in *. destruct IH as [Ho Hh Hr].
    assert (Hid : hsc_id s1 = hsc_id s) by (by rewrite Hr).
    unfold commit_one. destruct (heap s1 !! a) as [b|] eqn:Hb.
    + assert (exists b0, heap s !! a = Some b0 /\ b = with_decision (decision b) b0 ) as (b0 & Hb0 & Eb).
      { rewrite Hh in Hb. destruct (heap s !! a) as [b0|]; [|by case_decide].
        exists b0. split; [done|]. case_decide; simplify_eq/=; [done|by destruct b]. }
      split; fields.
      * rewrite Ho, flat_map_app, <- app_assoc. f_equal. cbn. rewrite app_nil_r.
        unfold commit_events. rewrite Hb0, Hid. f_equal. rewrite Eb. done.
      * intros x. destruct (decide (x = a)) as [->|Hne].
        -- rewrite lookup_insert_eq, decide_True by (apply elem_of_app; right; apply list_elem_of_here).
           rewrite Hb0. cbn. f_equal. rewrite Eb. done.
        -- rewrite lookup_insert_ne by done. rewrite Hh.
           destruct (decide (x ∈ l)) as [Hi|Hi].
           ++ rewrite decide_True; [done|]. apply elem_of_app; auto.
           ++ rewrite decide_False; [done|]. intros [?|?%list_elem_of_singleton]%elem_of_app; done.
      * by apply with_out_heap_rest.
    + assert (Hs : heap s !! a = None).
      { rewrite Hh in Hb. destruct (decide (a ∈ l)), (heap s !! a); simplify_eq/=; done. }
      split.
      * rewrite Ho, flat_map_app. cbn. unfold commit_events. rewrite Hs. cbn. by rewrite !app_nil_r.
      * intros x. rewrite Hh. destruct (decide (x = a)) as [->|Hne].
        -- rewrite Hs. by repeat case_decide.
        -- destruct (decide (x ∈ l)) as [Hi|Hi].
           ++ rewrite decide_True; [done|]. apply elem_of_app; auto.
           ++ rewrite decide_False; [done|]. intros [?|?%list_elem_of_singleton]%elem_of_app; done.
      * done.
Qed.



(** * Delivery of blocks *)

Lemma wp_get_delivered_blk s h p (Q : addr -> HotStuffCore -> Prop) E :
  delivered_of s h = Some p -> Q p s -> wpx (get_delivered_blk h) Q E s.
Proof.
  unfold delivered_of. intros Hd HQ. unfold get_delivered_blk. wp_steps.
  destruct (storage s !! h) as [p'|]; [|done]. cbn in Hd.
  destruct (heap s !! p') as [pb|] eqn:Hp; [|done]. cbn in Hd.
  destruct (delivered pb) eqn:Hdl; [|done]. simplify_eq.
  wp_steps. rewrite Hdl. by wp_steps.
Qed.

Lemma wp_get_delivered_blk_throw s h (Q : addr -> HotStuffCore -> Prop) (E : string -> HotStuffCore -> Prop) :
  storage_valid s ->
  delivered_of s h = None -> E "block not delivered" s -> wpx (get_delivered_blk h) Q E s.
Proof.
  unfold delivered_of. intros Hv Hd HQ. unfold get_delivered_blk. wp_steps.
  destruct (storage s !! h) as [p'|] eqn:Hs; [|by wp_steps].
  destruct (Hv _ _ Hs) as [pb Hp]. cbn in Hd. rewrite Hp in Hd. cbn in Hd.
  wp_steps. destruct (delivered pb); [done|]. by wp_steps.
Qed.

Lemma delivered_of_with_blk s blk b b' h :
  heap s !! blk = Some b -> delivered b = false -> delivered b' = false ->
  delivered_of (with_blk blk b' s) h = delivered_of s h.
Proof.
  intros Hb Hd Hd'. unfold delivered_of, with_blk. fields.
  destruct (storage s !! h) as [p|]; [|done]. cbn.
  destruct (decide (p = blk)) as [->|Hne].
  - by rewrite lookup_insert_eq, Hb; cbn; rewrite Hd, Hd'.
  - by rewrite lookup_insert_ne.
Qed.

Lemma storage_valid_with_blk s blk b b' :
  heap s !! blk = Some b -> storage_valid s -> storage_valid (with_blk blk b' s).
Proof.
  intros Hb Hv h p Hp. unfold with_blk in *. fields_in_all.
  destruct (decide (p = blk)) as [->|Hne].
  - rewrite lookup_insert_eq. eauto.
  - rewrite lookup_insert_ne by done. eauto.
Qed.

Lemma with_blk_with_blk blk b1 b2 s : with_blk blk b2 (with_blk blk b1 s) = with_blk blk b2 s.
Proof. unfold with_blk. fields. by rewrite insert_insert_eq. Qed.


Lemma with_blk_id blk b s : heap s !! blk = Some b -> with_blk blk b s = s.
Proof. intros Hb. unfold with_blk. rewrite insert_id by done. by destruct s. Qed.

Lemma with_parents_id b : with_parents (parents b) b = b.
Proof. by destruct b. Qed.

Lemma wp_push_parents blk hs : forall s b ps (Q : unit -> HotStuffCore -> Prop) E,
  heap s !! blk = Some b -> delivered b = false ->
  Forall2 (fun h p => delivered_of s h = Some p) hs ps ->
  Q tt (with_blk blk (with_parents (parents b ++ ps) b) s) ->
  wpx (forM_ hs (push_parent blk)) Q E s.
Proof.
  induction hs as [|h hs IH]; intros s b ps Q E Hb Hd Hm HQ; cbn [forM_].
  - apply Forall2_nil_inv_l in Hm as ->. rewrite app_nil_r, with_parents_id, with_blk_id in HQ by done.
    by wp_steps.
  - apply Forall2_cons_inv_l in Hm as (p & ps' & Hp & Hps & ->).
    wp_steps. unfold push_parent at 1. wp_steps.
    eapply wp_get_delivered_blk; [done|]. wp_steps.
    fold (with_blk blk (with_parents (parents b ++ [p]) b) s).
    eapply IH.
    + unfold with_blk. fields. apply lookup_insert_eq.
    + done.
    + eapply Forall2_impl; [exact Hps|]. intros h' p' Hh'. cbn beta.
      by erewrite delivered_of_with_blk.
    + rewrite with_blk_with_blk. fields. by rewrite <- app_assoc.
Qed.

(** The loop stops at the first hash that stands for no delivered block. *)
Lemma wp_push_parents_throw blk hs : forall s b (Q : unit -> HotStuffCore -> Prop) (E : string -> HotStuffCore -> Prop),
  heap s !! blk = Some b -> delivered b = false -> storage_valid s ->
  Exists (fun h => delivered_of s h = None) hs ->
  (forall ps, E "block not delivered" (with_blk blk (with_parents (parents b ++ ps) b) s)) ->
  wpx (forM_ hs (push_parent blk)) Q E s.
Proof.
  induction hs as [|h hs IH]; intros s b Q E Hb Hd Hv Hex HE; cbn [forM_].
  - by apply Exists_nil in Hex.
  - wp_steps. unfold push_parent at 1. wp_steps.
    destruct (delivered_of s h) as [p|] eqn:Hp.
    + apply Exists_cons in Hex as [?|Hex]; [congruence|].
      eapply wp_get_delivered_blk; [done|]. wp_steps.
      fold (with_blk blk (with_parents (parents b ++ [p]) b) s).
      eapply IH.
      * unfold with_blk. fields. apply lookup_insert_eq.
      * done.
      * by eapply storage_valid_with_blk.
      * eapply Exists_impl; [exact Hex|]. intros h' Hh'. cbn beta.
        by erewrite delivered_of_with_blk.
      * intros ps. rewrite with_blk_with_blk. fields. rewrite <- app_assoc. apply HE.
    + apply wp_get_delivered_blk_throw; [done|done|].
      specialize (HE []). by rewrite app_nil_r, with_parents_id, with_blk_id in HE.
Qed.

Lemma wp_tails_erase p pb (Q : unit -> HotStuffCore -> Prop) E s :
  heap s !! p = Some pb -> Q tt (with_tails (delete (height pb) (tails s)) s) ->
  wpx (tails_erase p) Q E s.
Proof. intros Hp HQ. unfold tails_erase. by wp_steps. Qed.

Lemma wp_tails_insert p pb (Q : unit -> HotStuffCore -> Prop) E s :
  heap s !! p = Some pb -> Q tt (with_tails (set_insert_by_height (height pb) p (tails s)) s) ->
  wpx (tails_insert p) Q E s.
Proof. intros Hp HQ. unfold tails_insert. by wp_steps. Qed.

Lemma wp_tails_erase_all ps : forall s (Q : unit -> HotStuffCore -> Prop) E,
  (forall p, p ∈ ps -> is_Some (heap s !! p)) ->
  Q tt (with_tails (foldl (fun t p => delete (height_of s p) t) (tails s) ps) s) ->
  wpx (forM_ ps tails_erase) Q E s.
Proof.
  induction ps as [|p ps IH]; intros s Q E Hin HQ; cbn [forM_ foldl] in *.
  - wp_steps. by replace s with (with_tails (tails s) s) by (by destruct s).
  - destruct (Hin p) as [pb Hp]; [apply list_elem_of_here|].
    wp_steps. eapply wp_tails_erase; [done|]. apply IH.
    + intros p' Hp'. fields. apply Hin. by apply list_elem_of_further.
    + fields. unfold height_of in HQ at 2. rewrite Hp in HQ. exact HQ.
Qed.

Lemma delivered_of_Some s h p :
  delivered_of s h = Some p -> exists pb, storage s !! h = Some p /\ heap s !! p = Some pb /\ delivered pb = true.
Proof.
  unfold delivered_of. intros Hd.
  destruct (storage s !! h) as [p'|]; [|done]. cbn in Hd.
  destruct (heap s !! p') as [pb|] eqn:Hp; [|done]. cbn in Hd.
  destruct (delivered pb) eqn:Hdl; [|done]. simplify_eq. eauto.
Qed.

Lemma forallb_delivered s hs :
  forallb (fun h => bool_decide (is_Some (delivered_of s h))) hs = true <->
  exists ps, Forall2 (fun h p => delivered_of s h = Some p) hs ps.
Proof.
  induction hs as [|h hs IH]; cbn [forallb].
  - split; [by exists []|done].
  - rewrite andb_true_iff, IH, bool_decide_eq_true. split.
    + intros [[p Hp] [ps Hps]]. exists (p :: ps). by constructor.
    + intros [ps Hps]. apply Forall2_cons_inv_l in Hps as (p & ps' & Hp & Hps & ->). eauto.
Qed.

Lemma forallb_delivered_false s hs :
  forallb (fun h => bool_decide (is_Some (delivered_of s h))) hs = false <->
  Exists (fun h => delivered_of s h = None) hs.
Proof.
  induction hs as [|h hs IH]; cbn [forallb].
  - split; [done|by intros ?%Exists_nil].
  - rewrite andb_false_iff, IH, bool_decide_eq_false, Exists_cons.
    by rewrite <- eq_None_not_Some.
Qed.

Lemma valid_blk_true s b :
  valid_blk s b = true <->
  delivered b = false /\
  (exists ps, Forall2 (fun h p => delivered_of s h = Some p) (parent_hashes b) ps) /\
  (is_Some (qc b) -> is_Some (storage s !! qc_ref_hash b)).
Proof.
  unfold valid_blk. rewrite !andb_true_iff, negb_true_iff, forallb_delivered.
  destruct (qc b); rewrite ?bool_decide_eq_true; split.
  - intros [[Hd Hp] Hq]. done.
  - intros (Hd & Hp & Hq). repeat split; eauto.
  - intros [[Hd Hp] Hq]. repeat split; try done.
  - intros (Hd & Hp & Hq). done.
Qed.

Lemma on_deliver_blk_valid (blk : addr) (s : HotStuffCore) (b : Block) :
  heap s !! blk = Some b -> valid_blk s b = true -> parent_hashes b <> [] ->
   exists ps b' s',
     Forall2 (fun h p => delivered_of s h = Some p) (parent_hashes b) ps /\
     on_deliver_blk blk s = Ret true s' /\
     b' = delivered_blk s b ps /\
     s' = with_tails (tails_delivered s blk (height b') ps) (with_blk blk b' s).
Proof.
  intros Hb (Hd & [ps Hps] & Hq)%valid_blk_true Hne.
  exists ps. eexists. 
  assert (Hin : forall p, p ∈ ps -> exists pb, heap s !! p = Some pb /\ delivered pb = true /\ p <> blk).
  { intros p Hp. apply list_elem_of_lookup in Hp as [i Hp].
    destruct (Forall2_lookup_r _ _ _ _ _ Hps Hp) as (h & _ & Hh).
    apply delivered_of_Some in Hh as (pb & _ & Hpb & Hdl). exists pb. repeat split; try done.
    intros ->. congruence. }
  destruct ps as [|p0 ps]; [by apply Forall2_nil_inv_r in Hps|].
  destruct (Hin p0) as (pb0 & Hp0 & Hd0 & Hne0); [apply list_elem_of_here|].
  assert (W : wp (on_deliver_blk blk) (fun r s' => r = true /\
     s' = with_tails (tails_delivered s blk (height (delivered_blk s b (p0 :: ps))) (p0 :: ps))
            (with_blk blk (delivered_blk s b (p0 :: ps)) s)) s).
  { unfold on_deliver_blk. wp_steps. rewrite Hd. wp_steps.
    fold (with_blk blk (with_parents [] b) s).
    eapply wp_push_parents.
    - unfold with_blk. fields. apply lookup_insert_eq.
    - done.
    - eapply Forall2_impl; [exact Hps|]. intros h' p' Hh'. cbn beta.
      erewrite (delivered_of_with_blk s blk b); done.
    - fields. unfold with_blk. fields. rewrite insert_insert_eq. cbn [app]. wp_steps. cbn [head]. wp_steps.
      set (b1 := with_height _ _).
      assert (Hfin : forall r,
        r = match qc b with Some _ => storage s !! qc_ref_hash b | None => qc_ref b end ->
        wp (deref blk
            ≫= λ b0 : Block,
               forM_ (parents b0) tails_erase
               ≫= λ _ : (), tails_insert blk
               ≫= λ _ : (), update blk (with_delivered true) ≫= λ _ : (), mret true)
         (λ (r : bool) (s'0 : HotStuffCore),
            r = true
            ∧ s'0 =
              with_tails
                (tails_delivered s blk (height (delivered_blk s b (p0 :: ps))) (p0 :: ps))
                (with_heap (<[blk:=delivered_blk s b (p0 :: ps)]> (heap s)) s))
         (with_heap (<[blk := with_qc_ref r b1]> (heap s)) s)).
      { intros r Hr. set (s1 := with_heap (<[blk := with_qc_ref r b1]> (heap s)) s).
        assert (Hh1 : heap s1 = <[blk := with_qc_ref r b1]> (heap s)) by reflexivity.
        assert (Hhs : forall p, p ∈ p0 :: ps -> height_of s1 p = height_of s p).
        { intros p Hp. destruct (Hin p Hp) as (pb & Hpb & _ & Hnp). unfold height_of.
          rewrite Hh1, lookup_insert_ne by congruence. done. }
        assert (Hfold : forall t, foldl (λ (t : gmap N addr) (p : addr), delete (height_of s1 p) t) t (p0 :: ps)
                  = foldl (λ (t : gmap N addr) (p : addr), delete (height_of s p) t) t (p0 :: ps)).
        { revert Hhs. generalize (p0 :: ps). intros l Hl. induction l as [|x l IHl]; intros t; [done|].
          cbn [foldl]. rewrite Hl by apply list_elem_of_here. apply IHl.
          intros p Hp. apply Hl. by apply list_elem_of_further. }
        wp_step. eapply wp_deref; [by rewrite Hh1, lookup_insert_eq|].
        fields. wp_step. apply wp_tails_erase_all.
        - intros p Hp. destruct (Hin p Hp) as (pb & Hpb & _ & Hnp).
          rewrite Hh1, lookup_insert_ne by congruence. eauto.
        - wp_step. eapply wp_tails_insert; [fields; by rewrite Hh1, lookup_insert_eq|].
          fields. wp_step. eapply wp_update; [fields; by rewrite Hh1, lookup_insert_eq|].
          fields. wp_steps. split; [done|].
          state_eq.
          + rewrite Hh1, insert_insert_eq. f_equal. unfold delivered_blk, b1. subst r.
            change (default 0 (head (p0 :: ps))) with p0.
            unfold height_of. rewrite Hp0. block_eq.
          + unfold b1 at 2. fields. rewrite Hfold. unfold tails_delivered, delivered_blk, b1.
            fields. change (default 0 (head (p0 :: ps))) with p0.
            unfold height_of at 2. by rewrite Hp0. }
      destruct (qc b) as [c|] eqn:Hqc.
      + destruct Hq as [r Hr]; [eauto|]. do 2 wp_step. rewrite Hr. wp_step.
        apply Hfin. by rewrite Hr.
      + wp_step. specialize (Hfin _ eq_refl).
        by replace (with_qc_ref (qc_ref b) b1) with b1 in Hfin by (by destruct b). }
  apply wp_elim in W as (r & s' & E & -> & ->). eauto.
Qed.

Lemma on_deliver_blk_invalid (blk : addr) (s : HotStuffCore) (b : Block) :
  heap s !! blk = Some b -> storage_valid s -> parent_hashes b <> [] ->
  delivered b = false -> valid_blk s b = false ->
  exists e b',
    on_deliver_blk blk s = Raise e (with_blk blk b' s) /\ delivered b' = false /\
    (e = "block not delivered" \/ e = "block referred by qc not fetched").
Proof.
  intros Hb Hv Hne Hd Hinv.
  assert (W : wpx (on_deliver_blk blk) (fun _ _ => False)
            (fun e s' => exists b', s' = with_blk blk b' s /\ delivered b' = false /\
               (e = "block not delivered" \/ e = "block referred by qc not fetched")) s).
  { unfold valid_blk in Hinv. rewrite Hd in Hinv. cbn [negb andb] in Hinv.
    apply andb_false_iff in Hinv as [Hex|Hq].
    - apply forallb_delivered_false in Hex.
      unfold on_deliver_blk. wp_steps. rewrite Hd. wp_steps.
      fold (with_blk blk (with_parents [] b) s).
      eapply wp_push_parents_throw.
      + unfold with_blk. fields. apply lookup_insert_eq.
      + done.
      + by eapply storage_valid_with_blk.
      + eapply Exists_impl; [exact Hex|]. intros h' Hh'. cbn beta.
        erewrite (delivered_of_with_blk s blk b); done.
      + intros ps. rewrite with_blk_with_blk. eauto.
    - destruct (forallb (λ h, bool_decide (is_Some (delivered_of s h))) (parent_hashes b)) eqn:Hall.
      2:{ (* covered by the first case *)
        apply forallb_delivered_false in Hall.
        unfold on_deliver_blk. wp_steps. rewrite Hd. wp_steps.
        fold (with_blk blk (with_parents [] b) s).
        eapply wp_push_parents_throw.
        + unfold with_blk. fields. apply lookup_insert_eq.
        + done.
        + by eapply storage_valid_with_blk.
        + eapply Exists_impl; [exact Hall|]. intros h' Hh'. cbn beta.
          erewrite (delivered_of_with_blk s blk b); done.
        + intros ps. rewrite with_blk_with_blk. eauto. }
      apply forallb_delivered in Hall as [ps Hps].
      destruct (qc b) as [c|] eqn:Hqc; [|done].
      apply bool_decide_eq_false in Hq. apply eq_None_not_Some in Hq.
      destruct ps as [|p0 ps]; [by apply Forall2_nil_inv_r in Hps|].
      assert (exists pb0, heap s !! p0 = Some pb0 /\ p0 <> blk) as (pb0 & Hp0 & Hne0).
      { apply Forall2_cons_inv_r in Hps as (h & hs & Hh & _ & _).
        apply delivered_of_Some in Hh as (pb & _ & Hpb & Hdl). exists pb. split; [done|].
        intros ->. congruence. }
      unfold on_deliver_blk. wp_steps. rewrite Hd. wp_steps.
      fold (with_blk blk (with_parents [] b) s).
      eapply wp_push_parents.
      + unfold with_blk. fields. apply lookup_insert_eq.
      + done.
      + eapply Forall2_impl; [exact Hps|]. intros h' p' Hh'. cbn beta.
        erewrite (delivered_of_with_blk s blk b); done.
      + fields. unfold with_blk. fields. rewrite insert_insert_eq. cbn [app]. wp_steps. cbn [head]. wp_steps.
        rewrite Hqc. wp_steps. rewrite Hq. wp_steps.
        eexists. split; [|split; [|by right]]; [state_eq|]. by fields. }
  apply wpx_elim_raise in W as (e & s' & E & b' & -> & ? & ?). eauto.
Qed.


(** * Pruning *)

Lemma insert_alter_heap (h : gmap addr Block) a b f :
  h !! a = Some b -> <[a := f b]> h = alter f a h.
Proof.
  intros Hb. apply map_eq. intros x. destruct (decide (x = a)) as [->|Hne].
  - by rewrite lookup_insert_eq, lookup_alter_eq, Hb.
  - by rewrite lookup_insert_ne, lookup_alter_ne.
Qed.

Lemma linear_chain_alter s c f l :
  c ∉ l -> linear_chain s l -> linear_chain (with_heap (alter f c (heap s)) s) l.
Proof.
  induction l as [|x l IH]; [done|]. intros Hc Hl.
  apply not_elem_of_cons in Hc as [Hcx Hcl].
  destruct l as [|p l].
  - destruct Hl as (b & Hb & Hp). exists b. fields. by rewrite lookup_alter_ne.
  - destruct Hl as [(b & Hb & Hp) Hl]. split; [|by apply IH].
    exists b. fields. by rewrite lookup_alter_ne.
Qed.

Lemma linear_chain_alter_parents s c f l :
  (forall b, parents (f b) = parents b) ->
  linear_chain s l -> linear_chain (with_heap (alter f c (heap s)) s) l.
Proof.
  intros Hf. induction l as [|x l IH]; [done|]. intros Hl.
  assert (Hx : forall b, heap s !! x = Some b ->
            exists b', heap (with_heap (alter f c (heap s)) s) !! x = Some b' /\ parents b' = parents b).
  { intros b Hb. fields. destruct (decide (x = c)) as [->|Hne].
    - exists (f b). by rewrite lookup_alter_eq, Hb.
    - exists b. by rewrite lookup_alter_ne. }
  destruct l as [|p l].
  - destruct Hl as (b & Hb & Hp). destruct (Hx b Hb) as (b' & Hb' & Hp'). exists b'. split; congruence.
  - destruct Hl as [(b & Hb & Hp) Hl]. split; [|by apply IH].
    destruct (Hx b Hb) as (b' & Hb' & Hp'). exists b'. split; congruence.
Qed.

Lemma wp_prune_descend l : forall s st fuel (Q : unit -> HotStuffCore -> Prop) E c,
  linear_chain s l -> NoDup l -> head l = Some c -> (length l <= fuel)%nat ->
  wpx (prune_loop (fuel - (length l - 1)) (rev l ++ st)) Q E (with_heap (descend_heap l (heap s)) s) ->
  wpx (prune_loop fuel (c :: st)) Q E s.
Proof.
  induction l as [|x l IH]; [done|]. intros s st fuel Q E c Hl Hnd [= ->] Hfuel HQ.
  destruct l as [|p l].
  - cbn [length rev app descend_heap] in *. replace (fuel - (1 - 1))%nat with fuel in HQ by lia.
    by replace s with (with_heap (heap s) s) by (by destruct s).
  - destruct Hl as [(b & Hb & Hp) Hl]. apply NoDup_cons in Hnd as [Hx Hnd].
    destruct fuel as [|fuel]; [cbn in Hfuel; lia|].
    replace (S fuel - (length (c :: p :: l) - 1))%nat with (fuel - (length (p :: l) - 1))%nat in HQ by (cbn; lia).
    cbn [prune_loop]. wp_steps. rewrite Hp. cbn [last]. wp_steps. rewrite Hp. cbn [removelast].
    rewrite (insert_alter_heap _ _ _ (fun b => with_parents [] (with_qc_ref None b))) by done.
    fold pruned.
    eapply (IH (with_heap (alter pruned c (heap s)) s)); [by apply linear_chain_alter|done|done|cbn in *; lia|].
    cbn [rev] in HQ. rewrite <- app_assoc in HQ. exact HQ.
Qed.

Lemma wp_prune_ascend xs : forall s st fuel (Q : unit -> HotStuffCore -> Prop) E,
  (forall x, x ∈ xs -> exists b, heap s !! x = Some b /\ parents b = []) ->
  (length xs <= fuel)%nat ->
  wpx (prune_loop (fuel - length xs) st) Q E (with_storage (release_all s xs (storage s)) s) ->
  wpx (prune_loop fuel (xs ++ st)) Q E s.
Proof.
  induction xs as [|x xs IH]; intros s st fuel Q E Hxs Hfuel HQ.
  - cbn [length app release_all foldl] in *. rewrite Nat.sub_0_r in HQ.
    by replace s with (with_storage (storage s) s) by (by destruct s).
  - destruct (Hxs x) as (b & Hb & Hp); [apply list_elem_of_here|].
    destruct fuel as [|fuel]; [cbn in Hfuel; lia|].
    replace (S fuel - length (x :: xs))%nat with (fuel - length xs)%nat in HQ by (cbn; lia).
    cbn [app prune_loop]. wp_steps. rewrite Hp. cbn [last]. wp_step. unfold try_release_blk. wp_steps.
    apply IH.
    + intros y Hy. fields. apply Hxs. by apply list_elem_of_further.
    + cbn in Hfuel. lia.
    + unfold release_all in *. cbn [foldl] in HQ. fields. unfold hash_of in HQ at 2. rewrite Hb in HQ.
      exact HQ.
Qed.

Lemma descend_heap_lookup l : forall h x,
  NoDup l ->
  descend_heap l h !! x =
    if decide (x ∈ removelast l) then pruned <$> h !! x else h !! x.
Proof.
  induction l as [|c l IH]; intros h x Hnd.
  - cbn. by rewrite decide_False by apply not_elem_of_nil.
  - destruct l as [|p l].
    + cbn. by rewrite decide_False by apply not_elem_of_nil.
    + apply NoDup_cons in Hnd as [Hc Hnd].
      change (descend_heap (c :: p :: l) h) with (descend_heap (p :: l) (alter pruned c h)).
      change (removelast (c :: p :: l)) with (c :: removelast (p :: l)).
      rewrite IH by done.
      assert (Hcr : c ∉ removelast (p :: l)).
      { intros Hin. apply Hc. apply list_elem_of_In. apply list_elem_of_In in Hin.
        revert Hin. generalize (p :: l). intros k. induction k as [|y k IHk]; [done|].
        destruct k; [done|]. cbn [removelast]. intros [->|Hin]; [by left|]. right. by apply IHk. }
      destruct (decide (x = c)) as [->|Hne].
      * rewrite decide_False by done. rewrite decide_True by apply list_elem_of_here.
        by rewrite lookup_alter_eq.
      * rewrite lookup_alter_ne by done.
        destruct (decide (x ∈ removelast (p :: l))).
        -- by rewrite decide_True by (by apply list_elem_of_further).
        -- rewrite decide_False; [done|]. by intros [?|?]%elem_of_cons.
Qed.

Lemma linear_chain_in_heap s l x : linear_chain s l -> x ∈ l -> is_Some (heap s !! x).
Proof.
  induction l as [|c l IH]; [done|]. intros Hl Hx. destruct l as [|p l].
  - apply list_elem_of_singleton in Hx as ->. destruct Hl as (b & Hb & _). eauto.
  - destruct Hl as [(b & Hb & _) Hl]. apply elem_of_cons in Hx as [->|Hx]; eauto.
Qed.

Lemma linear_chain_last s l x b :
  linear_chain s l -> last l = Some x -> heap s !! x = Some b -> parents b = [].
Proof.
  induction l as [|c l IH]; [done|]. intros Hl Hx Hb. destruct l as [|p l].
  - cbn in Hx. simplify_eq. destruct Hl as (b' & Hb' & Hp). congruence.
  - destruct Hl as [_ Hl]. by apply IH.
Qed.

Lemma prune_skip_short s l c k :
  linear_chain s l -> head l = Some c -> (length l <= k)%nat -> prune_skip k c s = Ret None s.
Proof.
  revert c k. induction l as [|x l IH]; [done|]. intros c k Hl [= ->] Hk.
  destruct k as [|k]; [cbn in Hk; lia|]. destruct l as [|p l].
  - destruct Hl as (b & Hb & Hp). cbn [prune_skip]. unfold deref, get, mbind, M_bind.
    rewrite Hb. cbn. by rewrite Hp.
  - destruct Hl as [(b & Hb & Hp) Hl]. cbn [prune_skip]. unfold deref, get, mbind, M_bind.
    rewrite Hb. cbn. rewrite Hp. apply (IH p k); [done|done|]. cbn in *. lia.
Qed.

Lemma prune_skip_long s l c k :
  linear_chain s l -> head l = Some c -> (k < length l)%nat ->
  exists start, head (drop k l) = Some start /\ prune_skip k c s = Ret (Some start) s.
Proof.
  revert c k. induction l as [|x l IH]; [done|]. intros c k Hl [= ->] Hk.
  destruct k as [|k]; [exists c; done|]. destruct l as [|p l]; [cbn in Hk; lia|].
  destruct Hl as [(b & Hb & Hp) Hl]. cbn [prune_skip drop]. unfold deref, get, mbind, M_bind.
  rewrite Hb. cbn. rewrite Hp. apply (IH p k); [done|done|]. cbn in *. lia.
Qed.

Lemma linear_chain_drop s l k : linear_chain s l -> (k < length l)%nat -> linear_chain s (drop k l).
Proof.
  revert k. induction l as [|x l IH]; [done|]. intros k Hl Hk. destruct k as [|k]; [done|].
  destruct l as [|p l]; [cbn in Hk; lia|]. destruct Hl as [_ Hl]. apply IH; [done|]. cbn in *. lia.
Qed.

Lemma release_all_ext s s' l m :
  (forall x, hash <$> heap s' !! x = hash <$> heap s !! x) ->
  release_all s' l m = release_all s l m.
Proof.
  intros Hh. unfold release_all. revert m. induction l as [|a l IH]; intros m; [done|].
  cbn [foldl]. rewrite IH. f_equal. f_equal. unfold hash_of. specialize (Hh a).
  destruct (heap s' !! a), (heap s !! a); by simplify_eq/=.
Qed.

Lemma prune_chain (fuel : nat) (staleness : N) (s : HotStuffCore) (l : list addr) :
  linear_chain s l -> NoDup l -> head l = Some (b_exec s) ->
  ((length l <= N.to_nat staleness)%nat -> prune fuel staleness s = Ret tt s) /\
  ((N.to_nat staleness < length l)%nat ->
   (2 * (length l - N.to_nat staleness) < fuel)%nat ->
   let release := drop (N.to_nat staleness) l in
   exists start s',
     head release = Some start /\
     prune fuel staleness s = Ret tt s' /\
     storage s' = release_all s (rev release) (storage s) /\
     heap s' = descend_heap release (alter (with_qc_ref None) start (heap s)) /\
     s' = with_storage (storage s') (with_heap (heap s') s)).
Proof.
  intros Hl Hnd Hh. split.
  - intros Hk. unfold prune, get, mbind, M_bind.
    by rewrite (prune_skip_short s l _ _ Hl Hh Hk).
  - intros Hk Hf. cbv zeta. set (release := drop (N.to_nat staleness) l).
    destruct (prune_skip_long s l _ _ Hl Hh Hk) as (start & Hstart & Hskip).
    exists start.
    assert (Hlr : linear_chain s release) by (by apply linear_chain_drop).
    assert (Hndr : NoDup release).
    { rewrite <- (take_drop (N.to_nat staleness) l) in Hnd. by apply NoDup_app in Hnd as (_ & _ & ?). }
    destruct (linear_chain_in_heap s release start Hlr) as [sb Hsb].
    { apply list_elem_of_lookup. exists 0%nat. by rewrite <- head_lookup. }
    set (s1 := with_heap (alter (with_qc_ref None) start (heap s)) s).
    assert (W : wp (prune fuel staleness) (fun _ s' =>
      s' = with_storage (release_all s (rev release) (storage s))
             (with_heap (descend_heap release (heap s1)) s)) s).
    { unfold prune. wp_steps. eapply wp_intro; [exact Hskip|]. fields. wp_steps.
      rewrite (insert_alter_heap _ _ _ (with_qc_ref None)) by done. fold s1.
      assert (Hl1 : linear_chain s1 release) by (by apply linear_chain_alter_parents).
      assert (Hlen : (2 * length release < fuel)%nat).
      { unfold release. rewrite length_drop. exact Hf. }
      fold release in Hstart. clearbody release.
      eapply (wp_prune_descend release s1 []); [done|done|done|lia|].
      rewrite app_nil_r.
      set (s2 := with_heap (descend_heap release (heap s1)) s1).
      replace (rev release) with (rev release ++ []) by apply app_nil_r.
      apply wp_prune_ascend.
      + intros x Hx. apply list_elem_of_In, in_rev, list_elem_of_In in Hx.
        subst s2. fields. rewrite descend_heap_lookup by done.
        destruct (linear_chain_in_heap s1 release x Hl1 Hx) as [b Hb]. rewrite Hb.
        case_decide; [by exists (pruned b)|]. exists b. split; [done|].
        eapply (linear_chain_last s1 release); [done| |done].
        clear -Hx H. revert Hx H. generalize release. intros k. induction k as [|c k IH]; [done|].
        destruct k as [|p k]; [by intros ->%list_elem_of_singleton|].
        change (removelast (c :: p :: k)) with (c :: removelast (p :: k)).
        intros [->|Hx]%elem_of_cons Hn.
        * exfalso. apply Hn, list_elem_of_here.
        * apply IH; [done|]. intros ?. apply Hn. by apply list_elem_of_further.
      + rewrite length_rev. lia.
      + rewrite length_rev.
        destruct (fuel - (length release - 1) - length release)%nat as [|n] eqn:En; [lia|].
        cbn [prune_loop]. wp_steps. subst s2. fields. state_eq.
        rewrite app_nil_r. apply release_all_ext. intros x. fields.
        rewrite descend_heap_lookup by done. subst s1. fields.
        destruct (decide (x = start)) as [->|Hne].
        * rewrite lookup_alter_eq. destruct (heap s !! start); by case_decide.
        * rewrite lookup_alter_ne by done. destruct (heap s !! x); by case_decide. }
    apply wp_elim_unit in W as (s' & E & ->). eexists. split; [done|]. split; [done|].
    by fields.
Qed.

Lemma release_all_lookup s l m h :
  release_all s l m !! h = if decide (h ∈ hash_of s <$> l) then None else m !! h.
Proof.
  unfold release_all. revert m. induction l as [|a l IH]; intros m.
  - cbn. by rewrite decide_False by apply not_elem_of_nil.
  - cbn [foldl fmap list_fmap]. rewrite IH. destruct (decide (h = hash_of s a)) as [->|Hne].
    + rewrite lookup_delete_eq. rewrite (decide_True (P := _ ∈ _ :: _)) by apply list_elem_of_here.
      by case_decide.
    + rewrite lookup_delete_ne by done. destruct (decide (h ∈ hash_of s <$> l)).
      * by rewrite decide_True by (by apply list_elem_of_further).
      * rewrite decide_False; [done|]. by intros [?|?]%elem_of_cons.
Qed.


(** * Equivocating proposals *)

Lemma wp_new_view fuel s (Q : unit -> HotStuffCore -> Prop) E :
  initialised s -> view_trans s = false ->
  (forall s', heap s' = heap s -> storage s' = storage s -> hqc s' = hqc s ->
     vheight s' = vheight s -> view s' = view s -> proposals s' = proposals s ->
     finished_propose s' = finished_propose s -> propagate_echos s' = propagate_echos s ->
     propagate_acks s' = propagate_acks s -> qc_waiting s' = qc_waiting s ->
     receive_proposal_waiting s' = receive_proposal_waiting s ->
     (exists mid, out s' = out s ++ mid /\ forallb is_view_change_event mid = true) ->
     hsc_id s' = hsc_id s -> priv_key s' = priv_key s -> hashing s' = hashing s ->
     Q tt s') ->
  wpx (_new_view (on_receive_blamenotify (S fuel))) Q E s.
Proof.
  intros (q & first & second & hb & Hq & Hhqc & Hfirst) Hvt HQ.
  assert (Hf : (hqc s).1 = Some first) by (by rewrite Hhqc).
  assert (Hs : (hqc s).2 = Some second) by (by rewrite Hhqc).
  unfold _new_view. wp_steps. unfold on_view_trans. wp_steps.
  cbn [on_receive_blamenotify]. wp_steps.
  apply HQ; fields; try done.
  eexists. split; [by rewrite <- !app_assoc|done].
Qed.

Lemma wp_blame fuel s (Q : unit -> HotStuffCore -> Prop) E :
  initialised s -> view_trans s = false ->
  (forall s', blamed_from s s' -> Q tt s') ->
  wpx (_blame (S fuel)) Q E s.
Proof.
  intros Hi Hvt HQ. pose proof Hi as (q & first & second & hb & Hq & Hhqc & Hfirst).
  unfold _blame. wp_steps. fold (own_blame s).
  unfold on_receive_blame. wp_steps. rewrite Hvt.
  destruct (_ <=? _).
  { wp_steps. apply HQ. split; fields; try done. exists []. by rewrite <- app_assoc. }
  cbn [Blame.blamer own_blame]. case_bool_decide.
  { wp_steps. apply HQ. split; fields; try done. exists []. by rewrite <- app_assoc. }
  wp_steps. cbn [Blame.cert own_blame]. unfold create_part_cert. wp_steps.
  destruct (_ =? _).
  - apply wp_new_view.
    + exists (QuorumCert.add_part (hsc_id s)
         {| PartCert.priv_key := priv_key s; PartCert.obj_hash := Blame.proof_obj_hash (hashing s) (view s) |} q),
        first, second, hb. by fields.
    + by fields.
    + intros s' ? ? ? ? ? ? ? ? ? ? ? (mid & Ho & Hm) ? ? ?. fields_in_all. wp_steps.
      apply HQ. split; fields; try done. exists mid. split; [|done].
      rewrite Ho. rewrite <- !app_assoc. cbn [app]. unfold own_blame. congruence.
  - wp_steps. apply HQ; split; fields; try done. exists []. by rewrite <- app_assoc.
Qed.

Lemma with_hqc_promises_id (s : HotStuffCore) :
  with_hqc_update_waiting (hqc_update_waiting s) (with_promises (promises s) (with_hqc (hqc s) s)) = s.
Proof. by destruct s. Qed.

Lemma wp_update_hqc r q rb s (Q : unit -> HotStuffCore -> Prop) E :
  heap s !! r = Some rb ->
  QuorumCert.obj_hash q = Vote.proof_obj_hash (hashing s) (get_hash rb) ->
  (exists first hb, (hqc s).1 = Some first /\ heap s !! first = Some hb) ->
  (forall hq pm hw, hq = hqc s \/ hq = (Some r, Some (QuorumCert.clone q)) ->
     Q tt (with_hqc_update_waiting hw (with_promises pm (with_hqc hq s)))) ->
  wpx (update_hqc r (Some q)) Q E s.
Proof.
  intros Hr Hq (first & hb & Hf & Hhb) HQ. unfold update_hqc. wp_steps.
  apply wp_assert; [by apply N.eqb_eq|]. wp_steps.
  destruct (_ <? _).
  - wp_steps. unfold on_hqc_update. wp_steps.
    apply (HQ (Some r, Some (QuorumCert.clone q))
             (resolve_in (hqc_update_waiting s) pm_void
                (<[fresh (dom (promises s)):=pm_pending]> (promises s)))
             (fresh (dom (promises s)))). by right.
  - wp_steps. rewrite <- (with_hqc_promises_id s). apply HQ. by left.
Qed.

Lemma wp_on_qc_finish r s (Q : unit -> HotStuffCore -> Prop) E :
  (forall pm qw, Q tt (with_qc_waiting qw (with_promises pm s))) ->
  wpx (on_qc_finish r) Q E s.
Proof.
  intros HQ. unfold on_qc_finish. wp_steps. destruct (qc_waiting s !! r).
  - wp_steps. apply (HQ (resolve_in p pm_void (promises s)) (delete r (qc_waiting s))).
  - wp_steps. specialize (HQ (promises s) (qc_waiting s)). by destruct s.
Qed.

Lemma wp_state_eq_Q (Q : unit -> HotStuffCore -> Prop) s s' : Q tt s' -> s = s' -> Q tt s.
Proof. by intros ? ->. Qed.

Ltac second_final Hpr Ho Hmid :=
  split; [unfold pslot_of; fields; rewrite Hpr; fields; by rewrite lookup_insert_eq|];
  split; [unfold is_finished; fields; by rewrite lookup_insert_eq|];
  split; [unfold is_resolved; fields; apply resolve_in_is_resolved|];
  repeat (split; [done|]);
  eexists; split; [|exact Hmid]; rewrite Ho; unfold own_blame; by fields.

Lemma wp_judge_second (fuel : nat) (prop : Proposal.t) (s : HotStuffCore) (b : Block) (b1 : addr) hq pm hw :
  second_proposal s (Proposal.blk prop) b b1 ->
  (exists f sd fb, hq = (Some f, Some sd) /\ heap s !! f = Some fb) ->
  wp (judge_proposal_ (on_receive_proposal (S fuel)) (S fuel) prop)
     (fun _ s' =>
        pslot_of s' (height b) = {[ b1; Proposal.blk prop ]} /\
        is_finished s' (Proposal.blk prop) = true /\
        is_resolved s' (receive_proposal_waiting s) = true /\
        heap s' = heap s /\ vheight s' = vheight s /\ view s' = view s /\
        propagate_echos s' = propagate_echos s /\ propagate_acks s' = propagate_acks s /\
        exists mid,
          out s' = out s ++ stop_blame_timer :: mid ++ [do_broadcast_blame (own_blame s)] /\
          forallb is_view_change_event mid = true)
     (with_hqc_update_waiting hw (with_promises pm (with_hqc hq s))).
Proof.
  intros [Hvt Hfin Hb Hd Hslot Hne Hinit Hqc] (f & sd & fb & -> & Hfb).
  pose proof Hinit as (bq & first & second & hb & Hbq & Hhqc & Hfirst).
  unfold judge_proposal_.
  wp_steps.
  change (pslot_of (with_hqc_update_waiting hw (with_promises pm (with_hqc (Some f, Some sd) s))) (height b))
    with (pslot_of s (height b)).
  rewrite Hslot.
  destruct (_ <=? 1) eqn:Hsz1.
  2:{ apply N.leb_gt in Hsz1. unfold set_size in Hsz1. rewrite size_singleton in Hsz1. lia. }
  wp_steps.
  destruct (1 <? _) eqn:Hsz2.
  2:{ apply N.ltb_ge in Hsz2. unfold set_size in Hsz2.
      rewrite size_union, !size_singleton in Hsz2 by (by apply disjoint_singleton_l, not_elem_of_singleton).
      lia. }
  wp_step. apply wp_blame.
  - exists bq, f, sd, fb. by fields.
  - by fields.
  - intros s' [Hh Hst Hq' Hvh Hvw Hpr Hfp Hec Hac Hqw Hrpw (mid & Ho & Hmid)]. fields_in_all.
    wp_steps. eapply wp_deref; [by rewrite Hh|]. wp_step.
    destruct (qc_ref b).
    + apply wp_on_qc_finish. intros pm' qw'. wp_steps. unfold on_receive_proposal_. wp_steps.
      rewrite Hrpw. second_final Hpr Ho Hmid.
    + wp_steps. unfold on_receive_proposal_. wp_steps. rewrite Hrpw. second_final Hpr Ho Hmid.
Qed.

Lemma on_receive_proposal_second (fuel : nat) (prop : Proposal.t) (s : HotStuffCore) (b : Block) (b1 : addr) :
  second_proposal s (Proposal.blk prop) b b1 ->
  exists s',
    on_receive_proposal (S (S fuel)) prop s = Ret tt s' /\
    pslot_of s' (height b) = {[ b1; Proposal.blk prop ]} /\
    is_finished s' (Proposal.blk prop) = true /\
    is_resolved s' (receive_proposal_waiting s) = true /\
    heap s' = heap s /\ vheight s' = vheight s /\ view s' = view s /\
    propagate_echos s' = propagate_echos s /\ propagate_acks s' = propagate_acks s /\
    exists mid,
      out s' = out s ++ stop_blame_timer :: mid ++ [do_broadcast_blame (own_blame s)] /\
      forallb is_view_change_event mid = true.
Proof.
  intros Hsp. pose proof Hsp as [Hvt Hfin Hb Hd Hslot Hne Hinit Hqc].
  pose proof Hinit as (bq & first & second & hb & Hbq & Hhqc & Hfirst).
  apply wp_elim_unit.
  cbn [on_receive_proposal]. unfold on_receive_proposal_body. wp_steps.
  rewrite Hvt, Hfin. unfold sanity_check_delivered. wp_steps. rewrite Hd. wp_steps.
  destruct (qc_ref b) as [r|] eqn:Hr.
  - destruct (Hqc r eq_refl) as (q & rb & Hq & Hrb & Hoh). rewrite Hq.
    eapply wp_update_hqc; [done|done|by exists first, hb; rewrite Hhqc|].
    intros hq pm hw Hhq. eapply wp_judge_second; [done|].
    destruct Hhq as [->| ->]; [by exists first, second, hb|by exists r, (QuorumCert.clone q), rb].
  - wp_step. eapply wp_state_eq; [symmetry; apply with_hqc_promises_id|].
    eapply wp_judge_second; [done|]. by exists first, second, hb.
Qed.


(** C6 (as amended).  When a second distinct proposal arrives at the height
    of an earlier one, both are recorded in [proposals[height]]; the second
    is not propagated (no echo is sent or counted for it, the only outputs
    are those of the view-change engine), while equivocation is flagged:
    blaming starts.  The proposal is marked as processed and the promise of
    received proposals is resolved with it. *)
Theorem second_proposal_recorded (fuel : nat) (prop : Proposal.t) (s : HotStuffCore) (b : Block) (b1 : addr) :
  second_proposal s (Proposal.blk prop) b b1 ->
  exists s' mid,
    on_receive_proposal (S (S fuel)) prop s = Ret tt s' /\
    b1 ∈ pslot_of s' (height b) /\ Proposal.blk prop ∈ pslot_of s' (height b) /\
    propagate_echos s' = propagate_echos s /\ propagate_acks s' = propagate_acks s /\
    out s' = out s ++ stop_blame_timer :: mid ++ [do_broadcast_blame (own_blame s)] /\
    forallb is_view_change_event mid = true /\
    is_finished s' (Proposal.blk prop) = true /\
    is_resolved s' (receive_proposal_waiting s) = true.
Proof.
  intros Hsp.
  destruct (on_receive_proposal_second fuel prop s b b1 Hsp)
    as (s' & E & Hslot & Hfin & Hres & _ & _ & _ & He & Ha & mid & Ho & Hmid).
  exists s', mid. rewrite Hslot. repeat split; try done.
  - apply elem_of_union_l, elem_of_singleton. done.
  - apply elem_of_union_r, elem_of_singleton. done.
Qed.
(** ** Handlers that commit nothing *)

Lemma quiet_refl s : quiet s s.
Proof. by split. Qed.

Lemma quiet_trans s1 s2 s3 : quiet s1 s2 -> quiet s2 s3 -> quiet s1 s3.
Proof.
  intros [D1 O1 R1] [D2 O2 R2]. split; [auto|congruence|auto].
Qed.

Lemma quietly_bind {A B} (m : M A) (f : A -> M B) :
  quietly m -> (forall a, quietly (f a)) -> quietly (m ≫= f).
Proof.
  intros Hm Hf s. unfold mbind, M_bind. specialize (Hm s). destruct (m s) as [a s'| | |]; try done.
  specialize (Hf a s'). destruct (f a s'); try done; by eapply quiet_trans.
Qed.

Lemma quietly_pure {A} (m : M A) :
  (forall s, match m s with Ret _ s' => s' = s | Raise _ s' => s' = s | _ => True end) -> quietly m.
Proof. intros Hm s. specialize (Hm s). destruct (m s); try done; subst; apply quiet_refl. Qed.

Lemma quietly_ret {A} (a : A) : quietly (mret a).
Proof. by apply quietly_pure. Qed.
Lemma quietly_throw {A} e : quietly (@throw A e).
Proof. by apply quietly_pure. Qed.
Lemma quietly_abort {A} : quietly (@abort A).
Proof. by apply quietly_pure. Qed.
Lemma quietly_nofuel {A} : quietly (@nofuel A).
Proof. by apply quietly_pure. Qed.
Lemma quietly_get : quietly get.
Proof. by apply quietly_pure. Qed.
Lemma quietly_gets {A} (f : HotStuffCore -> A) : quietly (gets f).
Proof. by apply quietly_pure. Qed.
Lemma quietly_assert b : quietly (assert b).
Proof. apply quietly_pure. intros s. by destruct b. Qed.
Lemma quietly_nonzero n : quietly (nonzero n).
Proof. apply quietly_pure. intros s. unfold nonzero. by destruct (n =? 0). Qed.
Lemma quietly_deref a : quietly (deref a).
Proof. apply quietly_pure. intros s. unfold deref, mbind, M_bind, get. by destruct (heap s !! a). Qed.
Lemma quietly_deref_opt {A} (p : option A) : quietly (deref_opt p).
Proof. apply quietly_pure. intros s. by destruct p. Qed.
Lemma quietly_find_blk h : quietly (find_blk h).
Proof. by apply quietly_pure. Qed.

Lemma quietly_modify f : (forall s, quiet s (f s)) -> quietly (modify f).
Proof. intros Hf s. apply Hf. Qed.

Lemma filter_commit_snoc l ev :
  is_commit_event ev = false -> List.filter is_commit_event (l ++ [ev]) = List.filter is_commit_event l.
Proof. intros He. rewrite List.filter_app. cbn. rewrite He. apply app_nil_r. Qed.

Lemma quietly_emit ev : is_commit_event ev = false -> quietly (emit ev).
Proof.
  intros He. apply quietly_modify. intros s. split; fields; try done. by apply filter_commit_snoc.
Qed.

Lemma quietly_update a f : (forall b, decision (f b) = decision b) -> quietly (update a f).
Proof.
  intros Hf s. unfold update, deref, mbind, M_bind, get, modify.
  destruct (heap s !! a) as [b|] eqn:Hb; [|done]. cbn. split; fields; try done.
  intros x (b' & Hb' & Hd). fields_in_all. destruct (decide (x = a)) as [->|Hne].
  - rewrite lookup_insert_eq in Hb'. simplify_eq. rewrite Hf in Hd. by exists b.
  - rewrite lookup_insert_ne in Hb' by done. by exists b'.
Qed.

Lemma is_resolved_insert_fresh (m : gmap promise_t pm_state) p st :
  match m !! p with Some (pm_resolved _) => true | _ => false end = true ->
  match <[fresh (dom m) := st]> m !! p with Some (pm_resolved _) => true | _ => false end = true.
Proof.
  intros Hp. destruct (decide (p = fresh (dom m))) as [->|Hne].
  - assert (Hn : m !! fresh (dom m) = None) by apply not_elem_of_dom, is_fresh.
    by rewrite Hn in Hp.
  - by rewrite lookup_insert_ne.
Qed.

Lemma quietly_new_promise : quietly new_promise.
Proof.
  intros s. unfold new_promise, mbind, M_bind, get, modify. cbn. split; fields; try done.
  intros p. unfold is_resolved. fields. apply is_resolved_insert_fresh.
Qed.

Lemma quietly_resolve p v : quietly (resolve p v).
Proof.
  apply quietly_modify. intros s. split; fields; try done.
  intros p'. unfold is_resolved. fields. destruct (decide (p' = p)) as [->|Hne].
  - intros _. apply resolve_in_is_resolved.
  - by rewrite resolve_in_other.
Qed.

Lemma quietly_forM_ {A} (l : list A) (f : A -> M unit) :
  (forall x, quietly (f x)) -> quietly (forM_ l f).
Proof.
  intros Hf. induction l as [|x l IH]; cbn [forM_]; [apply quietly_ret|].
  apply quietly_bind; [apply Hf|]. intros _. apply IH.
Qed.

(** A field update that touches neither the heap, the outputs nor the
    promises is quiet. *)
Ltac quiet_field := let s := fresh "s" in intros s; split; fields; done.

Create HintDb frame discriminated.

(** One step of the proof that a handler is quiet. *)
Ltac frame_step :=
  lazymatch goal with
  | |- quietly (_ ≫= _) => apply quietly_bind; [|intros ?]
  | |- quietly (mret _) => apply quietly_ret
  | |- quietly (throw _) => apply quietly_throw
  | |- quietly abort => apply quietly_abort
  | |- quietly nofuel => apply quietly_nofuel
  | |- quietly get => apply quietly_get
  | |- quietly (gets _) => apply quietly_gets
  | |- quietly (assert _) => apply quietly_assert
  | |- quietly (nonzero _) => apply quietly_nonzero
  | |- quietly (deref _) => apply quietly_deref
  | |- quietly (deref_opt _) => apply quietly_deref_opt
  | |- quietly (find_blk _) => apply quietly_find_blk
  | |- quietly (modify _) => apply quietly_modify; quiet_field
  | |- quietly (emit _) => apply quietly_emit; reflexivity
  | |- quietly (update _ _) => apply quietly_update; intros ?; reflexivity
  | |- quietly new_promise => apply quietly_new_promise
  | |- quietly (resolve _ _) => apply quietly_resolve
  | |- quietly (forM_ _ _) => apply quietly_forM_; intros ?
  | |- quietly (if ?b then _ else _) => destruct b
  | |- quietly (match ?x with _ => _ end) => destruct x
  | |- quietly _ => first [solve [auto with frame] | progress cbv beta zeta]
  end.
Ltac frame := repeat frame_step.

Lemma quietly_on_propose_ prop : quietly (on_propose_ prop).
Proof. unfold on_propose_. frame. Qed.
Lemma quietly_on_receive_proposal_ prop : quietly (on_receive_proposal_ prop).
Proof. unfold on_receive_proposal_. frame. Qed.
Lemma quietly_on_hqc_update : quietly on_hqc_update.
Proof. unfold on_hqc_update. frame. Qed.
Lemma quietly_on_view_change : quietly on_view_change.
Proof. unfold on_view_change. frame. Qed.
Lemma quietly_on_view_trans : quietly on_view_trans.
Proof. unfold on_view_trans. frame. Qed.
Lemma quietly_on_qc_finish blk : quietly (on_qc_finish blk).
Proof. unfold on_qc_finish. frame. Qed.
Lemma quietly_async_qc_finish blk : quietly (async_qc_finish blk).
Proof. unfold async_qc_finish. frame. Qed.
#[export] Hint Resolve quietly_on_propose_ quietly_on_receive_proposal_ quietly_on_hqc_update
  quietly_on_view_change quietly_on_view_trans quietly_on_qc_finish quietly_async_qc_finish : frame.

Lemma quietly_sanity_check_delivered blk : quietly (sanity_check_delivered blk).
Proof. unfold sanity_check_delivered. frame. Qed.
Lemma quietly_get_delivered_blk h : quietly (get_delivered_blk h).
Proof. unfold get_delivered_blk. frame. Qed.
#[export] Hint Resolve quietly_sanity_check_delivered quietly_get_delivered_blk : frame.
Lemma quietly_update_hqc b qc : quietly (update_hqc b qc).
Proof. unfold update_hqc. frame. Qed.
Lemma quietly_tails_erase b : quietly (tails_erase b).
Proof. unfold tails_erase. frame. Qed.
Lemma quietly_tails_insert b : quietly (tails_insert b).
Proof. unfold tails_insert. frame. Qed.
Lemma quietly_push_parent b h : quietly (push_parent b h).
Proof. unfold push_parent. frame. Qed.
#[export] Hint Resolve quietly_update_hqc quietly_tails_erase quietly_tails_insert quietly_push_parent : frame.
Lemma quietly_on_deliver_blk b : quietly (on_deliver_blk b).
Proof. unfold on_deliver_blk. frame. Qed.
#[export] Hint Resolve quietly_on_deliver_blk : frame.

Lemma quietly_new_view rec : (forall bn, quietly (rec bn)) -> quietly (_new_view rec).
Proof. intros Hrec. unfold _new_view. frame. Qed.

Lemma quietly_on_receive_blamenotify fuel bn : quietly (on_receive_blamenotify fuel bn).
Proof.
  revert bn. induction fuel as [|fuel IH]; intros bn; cbn [on_receive_blamenotify]; [apply quietly_nofuel|].
  frame. by apply quietly_new_view.
Qed.
#[export] Hint Resolve quietly_on_receive_blamenotify : frame.

Lemma quietly_on_receive_blame fuel blame : quietly (on_receive_blame fuel blame).
Proof. unfold on_receive_blame. frame. apply quietly_new_view. auto with frame. Qed.
#[export] Hint Resolve quietly_on_receive_blame : frame.
Lemma quietly_blame fuel : quietly (_blame fuel).
Proof. unfold _blame. frame. Qed.
#[export] Hint Resolve quietly_blame : frame.
Lemma quietly_on_viewtrans_timeout : quietly on_viewtrans_timeout.
Proof. unfold on_viewtrans_timeout. frame. Qed.
Lemma quietly_on_receive_notify n : quietly (on_receive_notify n).
Proof. unfold on_receive_notify. frame. Qed.

Section QuietPropagation.
Variable rec : Proposal.t -> M unit.
Hypothesis quietly_rec : forall prop, quietly (rec prop).
#[local] Hint Resolve quietly_rec : frame.

Lemma quietly_on_receive_vote_ vote : quietly (on_receive_vote_ rec vote).
Proof. unfold on_receive_vote_. frame. Qed.
#[local] Hint Resolve quietly_on_receive_vote_ : frame.
Lemma quietly_vote_ blk : quietly (_vote_ rec blk).
Proof. unfold _vote_. frame. Qed.
#[local] Hint Resolve quietly_vote_ : frame.
Lemma quietly_on_propose_propagated_ h : quietly (on_propose_propagated_ rec h).
Proof. unfold on_propose_propagated_. frame. Qed.
#[local] Hint Resolve quietly_on_propose_propagated_ : frame.
Lemma quietly_on_receive_ack_ ack : quietly (on_receive_ack_ rec ack).
Proof. unfold on_receive_ack_. frame. Qed.
#[local] Hint Resolve quietly_on_receive_ack_ : frame.
Lemma quietly_on_echo_quorum_ echo : quietly (on_echo_quorum_ rec echo).
Proof. unfold on_echo_quorum_. frame. Qed.
#[local] Hint Resolve quietly_on_echo_quorum_ : frame.
Lemma quietly_on_receive_echo_ echo : quietly (on_receive_echo_ rec echo).
Proof. unfold on_receive_echo_. frame. Qed.
#[local] Hint Resolve quietly_on_receive_echo_ : frame.
Lemma quietly_propagate_blk_ blk : quietly (_propagate_blk_ rec blk).
Proof. unfold _propagate_blk_. frame. Qed.
#[local] Hint Resolve quietly_propagate_blk_ : frame.
Lemma quietly_branch_walk fuel b pref : quietly (branch_walk fuel b pref).
Proof. revert b. induction fuel as [|fuel IH]; intros b; cbn [branch_walk]; frame. Qed.
#[local] Hint Resolve quietly_branch_walk : frame.
Lemma quietly_judge_proposal_ fuel prop : quietly (judge_proposal_ rec fuel prop).
Proof. unfold judge_proposal_. frame. Qed.
#[local] Hint Resolve quietly_judge_proposal_ : frame.
Lemma quietly_on_receive_proposal_body fuel prop : quietly (on_receive_proposal_body rec fuel prop).
Proof. unfold on_receive_proposal_body. frame. Qed.
End QuietPropagation.

Lemma quietly_on_receive_proposal fuel prop : quietly (on_receive_proposal fuel prop).
Proof.
  revert prop. induction fuel as [|fuel IH]; intros prop; cbn [on_receive_proposal]; [apply quietly_nofuel|].
  by apply quietly_on_receive_proposal_body.
Qed.
#[export] Hint Resolve quietly_on_receive_proposal : frame.

Lemma quietly_on_receive_vote fuel vote : quietly (on_receive_vote fuel vote).
Proof. apply quietly_on_receive_vote_. auto with frame. Qed.
Lemma quietly_on_receive_ack fuel ack : quietly (on_receive_ack fuel ack).
Proof. apply quietly_on_receive_ack_. auto with frame. Qed.
Lemma quietly_on_receive_echo fuel echo : quietly (on_receive_echo fuel echo).
Proof. apply quietly_on_receive_echo_. auto with frame. Qed.
Lemma quietly_propagate_blk fuel blk : quietly (_propagate_blk fuel blk).
Proof. apply quietly_propagate_blk_. auto with frame. Qed.
#[export] Hint Resolve quietly_on_receive_vote quietly_on_receive_ack quietly_on_receive_echo
  quietly_propagate_blk quietly_on_viewtrans_timeout quietly_on_receive_notify : frame.

Lemma quietly_add_blk b : decision b <> 1%Z -> quietly (add_blk b).
Proof.
  intros Hd. unfold add_blk. frame. apply quietly_modify. intros s. split; fields; try done.
  intros x (b' & Hb' & Hd'). fields_in_all.
  match type of Hb' with <[?k := _]> _ !! _ = _ => destruct (decide (x = k)) as [->|Hne] end.
  - rewrite lookup_insert_eq in Hb'. by simplify_eq.
  - rewrite lookup_insert_ne in Hb' by done. by exists b'.
Qed.

Lemma quietly_get_hashes l : quietly (get_hashes l).
Proof. induction l as [|p l IH]; cbn [get_hashes]; frame. Qed.
#[export] Hint Resolve quietly_get_hashes : frame.

Lemma quietly_on_propose fuel cmds parents extra : quietly (on_propose fuel cmds parents extra).
Proof. unfold on_propose. frame. by apply quietly_add_blk. Qed.
Lemma quietly_storage_add_blk d : quietly (storage_add_blk d).
Proof. unfold storage_add_blk. frame. by apply quietly_add_blk. Qed.
Lemma quietly_on_init nfaulty delta : quietly (on_init nfaulty delta).
Proof. unfold on_init. frame. Qed.
Lemma quietly_add_replica rid addr pk : quietly (add_replica rid addr pk).
Proof. unfold add_replica. frame. Qed.
Lemma quietly_set_vote_disabled f : quietly (set_vote_disabled f).
Proof. unfold set_vote_disabled. frame. Qed.
Lemma quietly_prune_skip n a : quietly (prune_skip n a).
Proof. revert a. induction n as [|n IH]; intros a; cbn [prune_skip]; frame. Qed.
Lemma quietly_try_release_blk a : quietly (try_release_blk a).
Proof. unfold try_release_blk. frame. Qed.
#[export] Hint Resolve quietly_prune_skip quietly_try_release_blk : frame.
Lemma quietly_prune_loop fuel st : quietly (prune_loop fuel st).
Proof. revert st. induction fuel as [|fuel IH]; intros st; cbn [prune_loop]; frame. Qed.
#[export] Hint Resolve quietly_prune_loop : frame.
Lemma quietly_prune fuel staleness : quietly (prune fuel staleness).
Proof. unfold prune. frame. Qed.
#[export] Hint Resolve quietly_on_propose quietly_storage_add_blk quietly_on_init quietly_add_replica
  quietly_set_vote_disabled quietly_prune : frame.

Lemma quietly_step fuel i : commits i = false -> quietly (step fuel i).
Proof. destruct i; try done; intros _; cbn [step]; frame. Qed.

Lemma quiet_no_commit s s' : quiet s s' -> no_commit s s'.
Proof. by intros [? ? ?]. Qed.

Ltac run_m :=
  repeat progress
    (unfold find_blk, assert, deref, update, emit, get, gets, modify, throw, abort,
       mbind, mret, M_bind, M_ret; cbv beta iota).

Lemma on_receive_pre_commit_cases fuel pc s :
  match on_receive_pre_commit fuel pc s with
  | Ret _ s' | Raise _ s' => no_commit s s' \/ pre_commit_quorum s pc
  | _ => True
  end.
Proof.
  pose proof (quiet_no_commit s s (quiet_refl s)) as Hrefl.
  unfold on_receive_pre_commit, get_delivered_blk. run_m.
  destruct (bool_decide _); run_m; [|done].
  destruct (storage s !! PreCommit.blk_hash pc) as [blk|] eqn:Hst; run_m; [|by left].
  destruct (heap s !! blk) as [b|] eqn:Hb; run_m; [|done].
  destruct (delivered b) eqn:Hd; run_m; [|by left].
  rewrite ?Hb; run_m.
  destruct (_ <=? _); run_m; [by left|].
  case_bool_decide as Hin; run_m; [by left|].
  rewrite ?Hb; run_m.
  destruct (N.eqb_spec (set_size (preCommitted b) + 1) (ReplicaConfig.nmajority (config s)))
    as [Hsz|Hsz]; run_m.
  - destruct (check_commit _ _ _); try done; right; exists blk, b;
      (split_and!; [by unfold delivered_of; rewrite Hst; cbn; rewrite Hb; cbn; rewrite Hd|done|done|]);
      rewrite <- Hsz; unfold set_size; rewrite size_union by set_solver;
      rewrite size_singleton; lia.
  - left. split.
    + intros a (b' & Hb' & Hdec). fields_in_all.
      destruct (decide (a = blk)) as [->|Hne].
      * rewrite lookup_insert_eq in Hb'. injection Hb' as <-. by exists b.
      * rewrite lookup_insert_ne in Hb' by done. by exists b'.
    + by fields.
Qed.

Lemma on_pre_commit_timeout_cases fuel blk s :
  match on_pre_commit_timeout fuel blk s with
  | Ret _ s' | Raise _ s' =>
      no_commit s s' \/
      exists b, heap s !! blk = Some b /\ pre_commit_quorum s (own_pre_commit s b)
  | _ => True
  end.
Proof.
  unfold on_pre_commit_timeout. run_m.
  destruct (heap s !! blk) as [b|] eqn:Hb; run_m; [|done].
  set (pc := PreCommit.mk _ _ _).
  set (s1 := with_out _ s).
  pose proof (on_receive_pre_commit_cases fuel pc s1) as H.
  assert (Hnc : forall s', no_commit s1 s' -> no_commit s s').
  { intros s' [H1 H2]. split; [exact H1|].
    rewrite H2. subst s1. fields. by rewrite filter_commit_snoc. }
  destruct (on_receive_pre_commit fuel pc s1); try done;
    (destruct H as [H|H]; [left; by apply Hnc|right; exists b; split; [done|exact H]]).
Qed.

(** C2 (amended).  Whatever input the core handles, and whether the
    handler returns or throws, no block becomes decided and no [do_decide]
    or [do_consensus] is output, unless the input is one of three: a
    PreCommit from a replica not yet counted that brings the [preCommitted]
    set of its own block to exactly [nmajority]; the replica's own pre-commit
    timeout, whose self-delivered PreCommit does the same; or
    [on_commit_timeout], which calls [check_commit] with no quorum at all.
    The quorum is counted for the block named in the message only: the
    ancestors that [check_commit] decides with it need none. *)
Theorem commit_needs_trigger fuel i s s' :
  (step fuel i s = Ret tt s' \/ exists e, step fuel i s = Raise e s') ->
  no_commit s s' \/ commit_trigger s i.
Proof.
  intros Hrun.
  destruct (commits i) eqn:Hc.
  - destruct i as [| | | | | | | | | | | | |pc|blk0| | |blk| |]; try discriminate Hc;
      cbn [step] in Hrun.
    + pose proof (on_receive_pre_commit_cases fuel pc s) as H.
      destruct Hrun as [Hr|[e Hr]]; rewrite Hr in H;
        (destruct H as [H|H]; [by left|right; by constructor]).
    + right. constructor.
    + pose proof (on_pre_commit_timeout_cases fuel blk s) as H.
      destruct Hrun as [Hr|[e Hr]]; rewrite Hr in H;
        (destruct H as [H|(b & Hb & H)]; [by left|right; by econstructor]).
  - left. apply quiet_no_commit.
    pose proof (quietly_step fuel i Hc s) as H.
    destruct Hrun as [Hr|[e Hr]]; by rewrite Hr in H.
Qed.

(** * The promise of a quorum certificate *)

Lemma async_qc_finish_spec blk b s :
  heap s !! blk = Some b ->
  exists p s', async_qc_finish blk s = Ret p s' /\
    if (height b =? 0) || (ReplicaConfig.nmajority (config s) <=? set_size (echos_of s (hash b)))
    then is_resolved s' p = true
    else qc_waiting s' !! blk = Some p /\
         is_resolved s' p = default false (is_resolved s <$> qc_waiting s !! blk).
Proof.
  intros Hb. unfold async_qc_finish, new_promise, resolve. run_m. rewrite Hb. run_m.
  destruct (_ || _).
  - eexists _, _. split; [reflexivity|]. unfold is_resolved. fields.
    apply (resolve_in_is_resolved).
  - destruct (qc_waiting s !! blk) as [p|] eqn:Hp; run_m.
    + eexists _, _. split; [reflexivity|]. by rewrite Hp.
    + eexists _, _. split; [reflexivity|]. fields. rewrite lookup_insert_eq. split; [done|].
      unfold is_resolved. fields. by rewrite lookup_insert_eq.
Qed.

Lemma on_qc_finish_resolves blk p s :
  qc_waiting s !! blk = Some p ->
  exists s', on_qc_finish blk s = Ret tt s' /\ is_resolved s' p = true /\
    qc_waiting s' !! blk = None /\ heap s' = heap s /\ commit_interval s' = commit_interval s.
Proof.
  intros Hp. unfold on_qc_finish, resolve. run_m. rewrite Hp. run_m.
  eexists. split; [reflexivity|]. fields. split_and!; try done.
  - unfold is_resolved. fields. apply resolve_in_is_resolved.
  - apply lookup_delete_eq.
Qed.

Lemma delivered_of_echos s h f :
  delivered_of (with_propagate_echos f s) h = delivered_of s h.
Proof. done. Qed.

Lemma wlp_bind {A B} (m : M A) (f : A -> M B) Q E s :
  wlp m (fun a s' => wlp (f a) Q E s') E s -> wlp (m ≫= f) Q E s.
Proof. unfold wlp, mbind, M_bind. by destruct (m s). Qed.

Lemma wlp_wpx {A} (m : M A) Q E s : wpx m Q E s -> wlp m Q E s.
Proof. unfold wlp, wpx. by destruct (m s). Qed.

Lemma wlp_quietly {A} (m : M A) (Q : A -> HotStuffCore -> Prop) (E : string -> HotStuffCore -> Prop) s :
  quietly m -> (forall a s', quiet s s' -> Q a s') -> (forall e s', quiet s s' -> E e s') ->
  wlp m Q E s.
Proof. intros Hm HQ HE. specialize (Hm s). unfold wlp. destruct (m s); auto. Qed.

Lemma wp_on_qc_finish_waiting r p s (Q : unit -> HotStuffCore -> Prop) E :
  qc_waiting s !! r = Some p ->
  Q tt (with_qc_waiting (delete r (qc_waiting s))
          (with_promises (resolve_in p pm_void (promises s)) s)) ->
  wpx (on_qc_finish r) Q E s.
Proof. intros Hp HQ. unfold on_qc_finish. wp_steps. rewrite Hp. by wp_steps. Qed.

Ltac wlp_step := apply wlp_bind, wlp_wpx; wp_step.

Lemma on_receive_echo_quorum fuel echo s blk p :
  echo_quorum s echo blk -> qc_waiting s !! blk = Some p ->
  wlp (on_receive_echo fuel echo) (fun _ s' => is_resolved s' p = true)
    (fun _ s' => is_resolved s' p = true) s.
Proof.
  intros [[c Hc] Hnew Hsz Ht Hop Hd] Hp.
  pose proof (quietly_on_receive_ack_ _ (quietly_on_receive_proposal fuel)) as Hack.
  unfold on_receive_echo, on_receive_echo_.
  apply wlp_bind, wlp_wpx, wp_assert; [by rewrite Hc, bool_decide_true|].
  wlp_step. rewrite bool_decide_false by done.
  wlp_step. wlp_step. rewrite Hsz, N.eqb_refl.
  unfold is_propagate_timeout in *. fields. rewrite Ht. cbn [negb andb].
  apply wlp_bind. unfold on_echo_quorum_. rewrite Hop, N.eqb_refl.
  apply wlp_bind, wlp_wpx, (wp_get_delivered_blk _ _ blk); [exact Hd|].
  apply wlp_bind, wlp_wpx, (wp_on_qc_finish_waiting _ p); [exact Hp|].
  match goal with |- wlp _ _ _ ?s2 => assert (Hres : is_resolved s2 p = true) end.
  { unfold is_resolved. fields. apply resolve_in_is_resolved. }
  apply wlp_quietly.
  - frame.
  - intros returned s' Hq. apply wlp_quietly.
    + frame.
    + intros _ s'' Hq'. by apply Hq', Hq.
    + intros _ s'' Hq'. by apply Hq', Hq.
  - intros _ s' Hq. by apply Hq.
Qed.

Lemma on_receive_echo_quorum_returns fuel echo s blk b p :
  echo_quorum s echo blk -> qc_waiting s !! blk = Some p ->
  heap s !! blk = Some b -> commit_interval s <> 0 ->
  get_height b mod commit_interval s <> 0 ->
  wp (on_receive_echo fuel echo)
    (fun _ s' => is_resolved s' p = true /\ qc_waiting s' !! blk = None /\
                 echos_of s' (Echo.blk_hash echo) = echos_of s (Echo.blk_hash echo) ∪ {[ Echo.rid echo ]})
    s.
Proof.
  intros [[c Hc] Hnew Hsz Ht Hop Hd] Hp Hb Hci Hmod.
  unfold on_receive_echo, on_receive_echo_.
  apply wp_bind, wp_assert; [by rewrite Hc, bool_decide_true|].
  wp_step. wp_step. rewrite bool_decide_false by done.
  wp_steps. rewrite Hsz, N.eqb_refl.
  unfold is_propagate_timeout in *. fields. rewrite Ht. cbn [negb andb].
  unfold on_echo_quorum_. rewrite Hop, N.eqb_refl.
  apply wp_bind, (wp_get_delivered_blk _ _ blk); [exact Hd|].
  apply wp_bind, (wp_on_qc_finish_waiting _ p); [exact Hp|].
  wp_steps.
  apply N.eqb_neq in Hmod. rewrite Hmod. cbn [negb]. wp_steps.
  split_and!.
  - unfold is_resolved. fields. apply resolve_in_is_resolved.
  - apply lookup_delete_eq.
  - unfold echos_of. fields. by rewrite lookup_insert_eq.
Qed.

Lemma wp_update_hqc_pending r q rb s (Q : unit -> HotStuffCore -> Prop) E :
  heap s !! r = Some rb ->
  QuorumCert.obj_hash q = Vote.proof_obj_hash (hashing s) (get_hash rb) ->
  (exists first hb, (hqc s).1 = Some first /\ heap s !! first = Some hb) ->
  (forall hq pm hw,
     (forall p, promises s !! p = Some pm_pending -> p <> hqc_update_waiting s ->
                pm !! p = Some pm_pending) ->
     Q tt (with_hqc_update_waiting hw (with_promises pm (with_hqc hq s)))) ->
  wpx (update_hqc r (Some q)) Q E s.
Proof.
  intros Hr Hq (first & hb & Hf & Hhb) HQ. unfold update_hqc. wp_steps.
  apply wp_assert; [by apply N.eqb_eq|]. wp_steps.
  destruct (_ <? _).
  - wp_steps. unfold on_hqc_update. wp_steps.
    apply (HQ (Some r, Some (QuorumCert.clone q))
             (resolve_in (hqc_update_waiting s) pm_void
                (<[fresh (dom (promises s)):=pm_pending]> (promises s)))
             (fresh (dom (promises s)))).
    intros p Hp Hne. rewrite resolve_in_other by done.
    rewrite lookup_insert_ne; [done|].
    intros <-. apply (is_fresh (dom (promises s))). by apply elem_of_dom.
  - wp_steps. rewrite <- (with_hqc_promises_id s). by apply HQ.
Qed.

Lemma on_receive_vote_quorum fuel vote s blk b c p :
  vote_quorum s vote blk b c -> qc_waiting s !! blk = Some p ->
  promises s !! p = Some pm_pending -> p <> hqc_update_waiting s ->
  wp (on_receive_vote fuel vote)
    (fun _ s' =>
       (exists b', heap s' !! blk = Some b' /\
          self_qc b' = Some (QuorumCert.compute
                               (QuorumCert.add_part (Vote.voter vote) c (aggregated s b))) /\
          voted b' = voted b ∪ {[ Vote.voter vote ]}) /\
       qc_waiting s' !! blk = Some p /\ is_resolved s' p = false)
    s.
Proof.
  intros [Hd Hb Hfin Hc Hnew Hsz Hobj (first & hb & Hf & Hhb)] Hp Hpend Hne.
  unfold on_receive_vote, on_receive_vote_.
  apply wp_bind, (wp_get_delivered_blk _ _ blk); [exact Hd|].
  apply wp_bind, wp_assert; [by rewrite Hc, bool_decide_true|].
  wp_step. wp_step. rewrite Hfin. cbn [negb]. wp_steps.
  destruct (N.leb_spec (ReplicaConfig.nmajority (config s)) (set_size (voted b))) as [Hle|_];
    [lia|].
  rewrite bool_decide_false by done. wp_steps.
  unfold aggregated in *.
  destruct (self_qc b) as [q0|] eqn:Hq0; wp_steps; rewrite ?Hq0; unfold create_quorum_cert;
    wp_steps; rewrite ?Hc; wp_steps; rewrite Hsz, N.eqb_refl; wp_steps;
    (eapply wp_update_hqc_pending;
     [fields; apply lookup_insert_eq
     |fields; exact Hobj
     |destruct (decide (first = blk)) as [->|Hfb];
      [eexists blk, _; fields; split; [done|apply lookup_insert_eq]
      |exists first, hb; fields; split; [done|by rewrite lookup_insert_ne]]
     |]).
  all: intros hq pm hw Hpm; fields_in_all; rewrite lookup_insert_eq;
    (split; [eexists; split; [reflexivity|]; by fields|]);
    split; [done|]; unfold is_resolved; fields; by rewrite (Hpm p Hpend Hne).
Qed.

(** * The statements at concrete inputs *)

(** ** Voting heights *)

(** C1 (the code at the failing input).  After replica 0 voted at height 2,
    the proposal of a block of height 1 on the same branch is accepted:
    [on_receive_proposal] returns normally and [vheight] goes from 2 down
    to 1. *)
Theorem on_receive_proposal_lowers_vheight :
  vheight proposed2 = 2 /\
  exists s' b,
    run 20 low_proposal proposed2 = Ret tt s' /\
    heap s' !! 3 = Some b /\ height b = 1 /\ is_finished s' 3 = true /\
    vheight s' = 1.
Proof.
  split; [vm_compute; reflexivity|].
  exists (state_after 20 low_proposal proposed2).
  eexists. split_and!; vm_compute; reflexivity.
Qed.

(** ** Configuration and view change *)

Lemma add_replica_votes_genesis_witness :
  exists s' g',
    run 0 (In_add_replicas four_replicas) (replica0 1) = Ret tt s' /\
    heap s' !! 0 = Some g' /\ voted g' = list_to_set [0; 1; 2; 3] /\ out s' = [].
Proof.
  destruct (add_replica_votes_genesis four_replicas (replica0 1) (Block_genesis toy_hashing))
    as (s' & g' & E & _ & Hg & Hv & _ & Ho); [vm_compute; reflexivity|].
  exists s', g'. split_and!; [exact E|exact Hg| |exact Ho].
  rewrite Hv. vm_compute; reflexivity.
Defined.

Lemma on_receive_blamenotify_unconditional_witness :
  view initial = 0 /\ view_trans initial = false /\
  exists s',
    on_receive_blamenotify 2 stray_blamenotify initial = Ret tt s' /\
    blame_qc s' = Some (QuorumCert.mk 1234 [] true) /\ view_trans s' = true /\
    on_receive_blamenotify 1 stray_blamenotify s' = Ret tt s'.
Proof.
  split; [vm_compute; reflexivity|]. split; [vm_compute; reflexivity|].
  destruct (on_receive_blamenotify_unconditional 0 stray_blamenotify initial) as [_ H].
  edestruct H as (s' & E & Hq & Hvt & _); [vm_compute; reflexivity..|].
  exists s'. split_and!; [exact E|exact Hq|exact Hvt|].
  by destruct (on_receive_blamenotify_unconditional 0 stray_blamenotify s') as [H' _]; apply H'.
Defined.

Lemma commit_path_proposed2 : commit_path proposed2 2 [2; 1] 0.
Proof.
  eapply commit_path_step; [vm_compute; reflexivity..|].
  eapply commit_path_step; [vm_compute; reflexivity..|].
  eapply commit_path_stop; vm_compute; first [reflexivity | by intros].
Defined.


Lemma storage_valid_decide s :
  bool_decide (map_Forall (fun _ p => is_Some (heap s !! p)) (storage s)) = true ->
  storage_valid s.
Proof. intros H%bool_decide_eq_true h p. apply H. Qed.



Lemma second_proposal_equivocation :
  exists b, second_proposal equivocation 2 b 1 /\ height b = 1.
Proof.
  eexists. split; [split|].
  all: try (vm_compute; reflexivity).
  - done.
  - eexists _, _, _, _. split_and!; vm_compute; reflexivity.
  - vm_compute. discriminate.
Defined.


Lemma second_proposal_recorded_witness :
  exists s',
    on_receive_proposal 2 (Proposal.mk 1 2) equivocation = Ret tt s' /\
    1 ∈ pslot_of s' 1 /\ 2 ∈ pslot_of s' 1 /\
    propagate_echos s' = propagate_echos equivocation /\ is_finished s' 2 = true.
Proof.
  destruct second_proposal_equivocation as (b & Hsp & Hh).
  destruct (second_proposal_recorded 0 (Proposal.mk 1 2) equivocation b 1 Hsp)
    as (s' & mid & E & H1 & H2 & He & _ & _ & _ & Hf & _).
  rewrite Hh in H1, H2. exists s'. exact (conj E (conj H1 (conj H2 (conj He Hf)))).
Defined.

(** C6 (counterexample).  The second of two distinct proposals of height 1
    is stored in [proposals[1]], next to the first. *)
Lemma second_proposal_is_stored :
  pslot_of equivocation 1 = {[ 1 ]} /\
  exists s',
    on_receive_proposal 2 (Proposal.mk 1 2) equivocation = Ret tt s' /\
    pslot_of s' 1 = {[ 1; 2 ]}.
Proof.
  split; [vm_compute; reflexivity|].
  exists (state_after 2 [In_on_receive_proposal (Proposal.mk 1 2)] equivocation).
  split; vm_compute; reflexivity.
Qed.


(** ** Pruning *)

Lemma linear_chain_chain5 : linear_chain chain5 [5; 4; 3; 2; 1; 0].
Proof.
  repeat split; eexists; (split; [vm_compute; reflexivity|reflexivity]).
Defined.



(** ** Committing *)

Lemma commit_needs_trigger_witness :
  exists s',
    step 20 (In_on_receive_pre_commit (pre_commit_of 3 111)) pre_committed2 = Ret tt s' /\
    decided_in s' 1 /\ pre_commit_quorum pre_committed2 (pre_commit_of 3 111).
Proof.
  set (s' := state_after 20 [In_on_receive_pre_commit (pre_commit_of 3 111)] pre_committed2).
  assert (E : step 20 (In_on_receive_pre_commit (pre_commit_of 3 111)) pre_committed2 = Ret tt s')
    by (vm_compute; reflexivity).
  assert (Hd : decided_in s' 1) by (eexists; split; vm_compute; reflexivity).
  exists s'. split; [exact E|]. split; [exact Hd|].
  destruct (commit_needs_trigger 20 _ pre_committed2 s' (or_introl E)) as [[Hnc _]|Ht].
  - exfalso. destruct (Hnc 1 Hd) as (b & Hb & Hdec).
    vm_compute in Hb. injection Hb as <-. discriminate Hdec.
  - inversion Ht as [pc Hq Hpc| |]. exact Hq.
Defined.

(** C2 (counterexample).  [on_commit_timeout] commits a block for which no
    PreCommit was counted; and the PreCommit quorum of [B2] commits its
    parent [B1], for which none was counted either. *)
Lemma commit_without_pre_commit_quorum :
  (exists s' b,
     step 20 (In_on_commit_timeout 1) (proposed1 1) = Ret tt s' /\
     ReplicaConfig.nmajority (config s') = 3 /\
     heap s' !! 1 = Some b /\ decision b = 1%Z /\ preCommitted b = ∅ /\
     List.filter is_commit_event (out s') =
       [do_consensus 1; do_decide (Finality.mk 0 1%Z 0 1 1 111)]) /\
  (exists s' b,
     run 20 [In_on_receive_pre_commit (pre_commit_of 1 122);
             In_on_receive_pre_commit (pre_commit_of 2 122);
             In_on_receive_pre_commit (pre_commit_of 3 122)] proposed2_ci1 = Ret tt s' /\
     heap s' !! 1 = Some b /\ decision b = 1%Z /\ preCommitted b = ∅).
Proof.
  split.
  - exists (state_after 20 [In_on_commit_timeout 1] (proposed1 1)). eexists.
    split_and!; vm_compute; reflexivity.
  - exists (state_after 20 [In_on_receive_pre_commit (pre_commit_of 1 122);
             In_on_receive_pre_commit (pre_commit_of 2 122);
             In_on_receive_pre_commit (pre_commit_of 3 122)] proposed2_ci1). eexists.
    split_and!; vm_compute; reflexivity.
Qed.

(** ** The promise of a quorum certificate *)

Lemma echo_quorum_echoed : echo_quorum echoed (echo_of 2 111) 1.
Proof.
  split; try (vm_compute; reflexivity).
  - eexists. reflexivity.
  - apply (bool_decide_unpack _). vm_compute. exact I.
Defined.

Lemma vote_quorum_voted2 :
  exists b, heap voted2 !! 1 = Some b /\
    vote_quorum voted2 (vote_of 3 111) 1 b (PartCert.mk 3 (Vote.proof_obj_hash toy_hashing 111)).
Proof.
  eexists. split; [vm_compute; reflexivity|].
  split; try (vm_compute; reflexivity).
  - apply (bool_decide_unpack _). vm_compute. exact I.
  - eexists _, _. split; vm_compute; reflexivity.
Defined.



(** * What every call keeps *)

Section Keeps.
Context (R : relation HotStuffCore) `{!PreOrder R}.

Lemma keeps_at_bind {A B} (m : M A) (f : A -> M B) s :
  keeps_at R m s -> (forall a, keeps R (f a)) -> keeps_at R (m ≫= f) s.
Proof.
  intros Hm Hf s'. unfold mbind, M_bind. specialize (Hm). unfold keeps_at in Hm.
  destruct (m s) as [a s1| e s1 | |]; cbn; try done.
  - intros H. transitivity s1; [by apply Hm|by apply (Hf a s1)].
  - intros [= <-]. by apply Hm.
Qed.

Lemma keeps_bind {A B} (m : M A) (f : A -> M B) :
  keeps R m -> (forall a, keeps R (f a)) -> keeps R (m ≫= f).
Proof. intros Hm Hf s. by apply keeps_at_bind. Qed.

Lemma keeps_at_bind_reads {A B} (m : M A) (f : A -> M B) s :
  reads m -> (forall a, m s = Ret a s -> keeps_at R (f a) s) -> keeps_at R (m ≫= f) s.
Proof.
  intros Hm Hf s'. unfold mbind, M_bind. specialize (Hm s).
  destruct (m s) as [a s1| e s1 | |] eqn:E; cbn; try done.
  - assert (s1 = s) as -> by (by apply Hm). by apply Hf.
  - intros [= <-]. rewrite (Hm s1) by done. reflexivity.
Qed.

Lemma reads_keeps {A} (m : M A) : reads m -> keeps R m.
Proof. intros Hm s s' H. rewrite (Hm s s' H). reflexivity. Qed.

Lemma keeps_at_of_keeps {A} (m : M A) s : keeps R m -> keeps_at R m s.
Proof. intros H. apply H. Qed.

Lemma keeps_modify f : (forall s, R s (f s)) -> keeps R (modify f).
Proof. intros Hf s s' [= <-]. apply Hf. Qed.

Lemma keeps_emit ev : (forall s, R s (with_out (out s ++ [ev]) s)) -> keeps R (emit ev).
Proof. intros Hf. by apply keeps_modify. Qed.

Lemma keeps_update a f :
  (forall s b, heap s !! a = Some b -> R s (with_heap (<[a := f b]> (heap s)) s)) ->
  keeps R (update a f).
Proof.
  intros Hf s s'. unfold update, deref, mbind, M_bind, get, modify.
  destruct (heap s !! a) as [b|] eqn:Hb; [|done]. cbn. intros [= <-]. by apply Hf.
Qed.

Lemma keeps_forM_ {A} (l : list A) (f : A -> M unit) :
  (forall x, keeps R (f x)) -> keeps R (forM_ l f).
Proof.
  intros Hf. induction l as [|x l IH]; cbn [forM_].
  - intros s s' [= <-]. reflexivity.
  - apply keeps_bind; [apply Hf|]. intros _. apply IH.
Qed.

Lemma keeps_reaches s s' :
  (forall fuel i, keeps R (step fuel i)) -> reaches s s' -> R s s'.
Proof.
  intros Hstep. induction 1 as [s|fuel i s s1 s2 H1 _ IH]; [reflexivity|].
  transitivity s1; [by apply (Hstep fuel i s)|exact IH].
Qed.
End Keeps.

Lemma reads_ret {A} (a : A) : reads (mret a).
Proof. by intros s s' [= <-]. Qed.
Lemma reads_throw {A} e : reads (@throw A e).
Proof. by intros s s' [= <-]. Qed.
Lemma reads_abort {A} : reads (@abort A).
Proof. by intros s s'. Qed.
Lemma reads_nofuel {A} : reads (@nofuel A).
Proof. by intros s s'. Qed.
Lemma reads_get : reads get.
Proof. by intros s s' [= <-]. Qed.
Lemma reads_gets {A} (f : HotStuffCore -> A) : reads (gets f).
Proof. by intros s s' [= <-]. Qed.
Lemma reads_bind {A B} (m : M A) (f : A -> M B) :
  reads m -> (forall a, reads (f a)) -> reads (m ≫= f).
Proof.
  intros Hm Hf s s'. unfold mbind, M_bind. specialize (Hm s).
  destruct (m s) as [a s1| e s1 | |]; cbn; try done.
  - intros H. rewrite (Hf a s1 s' H). by apply Hm.
  - intros [= <-]. by apply Hm.
Qed.
Lemma reads_assert b : reads (assert b).
Proof. intros s s'. unfold assert. by destruct b; intros [= <-]. Qed.
Lemma reads_nonzero n : reads (nonzero n).
Proof. intros s s'. unfold nonzero. by destruct (n =? 0); intros [= <-]. Qed.
Lemma reads_deref a : reads (deref a).
Proof.
  intros s s'. unfold deref, mbind, M_bind, get. by destruct (heap s !! a); intros [= <-].
Qed.
Lemma reads_deref_opt {A} (p : option A) : reads (deref_opt p).
Proof. intros s s'. by destruct p; intros [= <-]. Qed.
Lemma reads_find_blk h : reads (find_blk h).
Proof. by intros s s' [= <-]. Qed.

Ltac reads_step :=
  lazymatch goal with
  | |- reads (_ ≫= _) => apply reads_bind; [|intros ?]
  | |- reads (mret _) => apply reads_ret
  | |- reads (throw _) => apply reads_throw
  | |- reads abort => apply reads_abort
  | |- reads nofuel => apply reads_nofuel
  | |- reads get => apply reads_get
  | |- reads (gets _) => apply reads_gets
  | |- reads (assert _) => apply reads_assert
  | |- reads (nonzero _) => apply reads_nonzero
  | |- reads (deref _) => apply reads_deref
  | |- reads (deref_opt _) => apply reads_deref_opt
  | |- reads (find_blk _) => apply reads_find_blk
  | |- reads (if ?b then _ else _) => destruct b
  | |- reads (match ?x with _ => _ end) => destruct x
  | |- reads _ => progress cbv beta zeta
  end.

Lemma reads_sanity_check_delivered blk : reads (sanity_check_delivered blk).
Proof. unfold sanity_check_delivered. repeat reads_step. Qed.
Lemma reads_get_delivered_blk h : reads (get_delivered_blk h).
Proof. unfold get_delivered_blk. repeat reads_step. Qed.
Lemma reads_get_hashes l : reads (get_hashes l).
Proof. induction l as [|p l IH]; cbn [get_hashes]; repeat reads_step. exact IH. Qed.
Lemma reads_branch_walk fuel b pref : reads (branch_walk fuel b pref).
Proof. revert b. induction fuel as [|fuel IH]; intros b; cbn [branch_walk]; repeat reads_step. apply IH. Qed.
Lemma reads_commit_walk fuel b q : reads (commit_walk fuel b q).
Proof. revert b q. induction fuel as [|fuel IH]; intros b q; cbn [commit_walk]; repeat reads_step. apply IH. Qed.
Lemma reads_prune_skip n a : reads (prune_skip n a).
Proof. revert a. induction n as [|n IH]; intros a; cbn [prune_skip]; repeat reads_step. apply IH. Qed.

Create HintDb keeps discriminated.
Create HintDb reads discriminated.
#[export] Hint Resolve reads_ret reads_throw reads_abort reads_nofuel reads_get reads_gets
  reads_assert reads_nonzero reads_deref reads_deref_opt reads_find_blk
  reads_sanity_check_delivered reads_get_delivered_blk reads_get_hashes reads_branch_walk
  reads_commit_walk reads_prune_skip : reads.

Ltac head_of t := lazymatch t with ?f _ => head_of f | _ => t end.

(** One step of the proof that a handler keeps a relation; [tac] proves
    that the writes of the handler do. *)
Ltac keep_step tac :=
  lazymatch goal with
  | |- keeps ?R (_ ≫= _) => apply (keeps_bind R); [|intros ?]
  | |- keeps ?R (modify _) => apply (keeps_modify R); tac
  | |- keeps ?R (emit _) => apply (keeps_emit R); tac
  | |- keeps ?R (update _ _) => apply (keeps_update R); tac
  | |- keeps ?R (forM_ _ _) => apply (keeps_forM_ R); intros ?
  | |- keeps _ (if ?b then _ else _) => destruct b
  | |- keeps _ (match ?x with _ => _ end) => destruct x
  | |- keeps ?R ?m =>
      first [ solve [apply (reads_keeps R); auto with reads]
            | solve [auto with keeps]
            | progress cbv beta zeta
            | let h := head_of m in unfold h ]
  end.
Ltac keep tac := repeat keep_step tac.

(** ** Nothing is forgotten *)

#[export] Instance block_grows_preorder : PreOrder block_grows.
Proof.
  split.
  - intros b. by split.
  - intros b1 b2 b3 [] []. split; try congruence; try (etrans; eassumption).
    + intros H1. destruct (bg_delivered0 H1) as [H2 ?]. destruct (bg_delivered1 H2). split; congruence.
    + auto.
Qed.

#[export] Instance grows_preorder : PreOrder grows.
Proof.
  split.
  - intros s. split; try done. intros a b Hb. by exists b.
    intros h a Ha. by left.
  - intros s1 s2 s3 [H1 E1 A1 F1 P1 O1 S1] [H2 E2 A2 F2 P2 O2 S2]. split.
    + intros a b Hb. destruct (H1 a b Hb) as (b2 & Hb2 & G1).
      destruct (H2 a b2 Hb2) as (b3 & Hb3 & G2). exists b3. split; [done|]. by etrans.
    + intros h. etrans; [apply E1|apply E2].
    + intros h. etrans; [apply A1|apply A2].
    + auto.
    + auto.
    + by etrans.
    + intros h a Ha. destruct (S2 h a Ha) as [Hs|(Hn & b & Hb & Hh)].
      * destruct (S1 h a Hs) as [?|(Hn & b & Hb & Hh)]; [by left|]. right. split; [done|].
        destruct (H2 a b Hb) as (b3 & Hb3 & G). exists b3. split; [done|].
        rewrite <- Hh. apply G.
      * right. split; [|by exists b].
        destruct (heap s1 !! a) as [b1|] eqn:Hb1; [|done].
        destruct (H1 a b1 Hb1) as (b2 & Hb2 & _). congruence.
Qed.

(** A write to fields that [grows] does not read. *)
Lemma grows_fields s s' :
  heap s' = heap s -> storage s' = storage s ->
  propagate_echos s' = propagate_echos s -> propagate_acks s' = propagate_acks s ->
  finished_propose s' = finished_propose s -> promises s' = promises s -> out s' = out s ->
  grows s s'.
Proof.
  intros Hh Hs He Ha Hf Hp Ho. split; unfold echos_of, acks_of, is_finished, is_resolved;
    rewrite ?Hh, ?Hs, ?He, ?Ha, ?Hf, ?Hp, ?Ho; try done.
  - intros a b Hb. by exists b.
  - intros h a Ha'. by left.
Qed.

Lemma grows_heap s a b b' :
  heap s !! a = Some b -> block_grows b b' ->
  grows s (with_heap (<[a := b']> (heap s)) s).
Proof.
  intros Hb G. split; fields; try done.
  - intros x bx Hx. destruct (decide (x = a)) as [->|Hne].
    + rewrite lookup_insert_eq. exists b'. split; [done|]. by simplify_eq.
    + rewrite lookup_insert_ne by done. by exists bx.
  - intros h x Hx. by left.
Qed.

Lemma grows_out s ev : grows s (with_out (out s ++ [ev]) s).
Proof.
  split; fields; try done.
  - intros a b Hb. by exists b.
  - by apply prefix_app_r.
  - intros h a Ha. by left.
Qed.

Lemma grows_promises s pm :
  (forall p, is_resolved s p = true ->
     match pm !! p with Some (pm_resolved _) => true | _ => false end = true) ->
  grows s (with_promises pm s).
Proof.
  intros Hp. split; fields; try done.
  - intros a b Hb. by exists b.
  - intros h a Ha. by left.
Qed.

Lemma grows_echos s h rid :
  grows s (with_propagate_echos (<[h := echos_of s h ∪ {[ rid ]}]> (propagate_echos s)) s).
Proof.
  split; fields; try done.
  - intros a b Hb. by exists b.
  - intros h'. unfold echos_of. fields. destruct (decide (h' = h)) as [->|Hne].
    + rewrite lookup_insert_eq. cbn. apply union_subseteq_l.
    + by rewrite lookup_insert_ne.
  - intros k a Ha. by left.
Qed.

Lemma grows_acks s h rid :
  grows s (with_propagate_acks (<[h := acks_of s h ∪ {[ rid ]}]> (propagate_acks s)) s).
Proof.
  split; fields; try done.
  - intros a b Hb. by exists b.
  - intros h'. unfold acks_of. fields. destruct (decide (h' = h)) as [->|Hne].
    + rewrite lookup_insert_eq. cbn. apply union_subseteq_l.
    + by rewrite lookup_insert_ne.
  - intros k a Ha. by left.
Qed.

Lemma grows_finished s a :
  grows s (with_finished_propose (<[a := true]> (finished_propose s)) s).
Proof.
  split; fields; try done.
  - intros x b Hb. by exists b.
  - intros x. unfold is_finished. fields. destruct (decide (x = a)) as [->|Hne].
    + by rewrite lookup_insert_eq.
    + by rewrite lookup_insert_ne.
  - intros k x Hx. by left.
Qed.

Lemma grows_release s h : grows s (with_storage (delete h (storage s)) s).
Proof.
  split; fields; try done.
  - intros x b Hb. by exists b.
  - intros k x Hx. left. by apply lookup_delete_Some in Hx as [_ ?].
Qed.

Lemma keeps_grows_new_promise : keeps grows new_promise.
Proof.
  intros s s'. unfold new_promise, mbind, M_bind, get, modify. cbn. intros [= <-].
  apply grows_promises. intros p. unfold is_resolved. apply is_resolved_insert_fresh.
Qed.

Lemma keeps_grows_resolve p v : keeps grows (resolve p v).
Proof.
  apply (keeps_modify grows). intros s. apply grows_promises.
  intros p'. unfold is_resolved. destruct (decide (p' = p)) as [->|Hne].
  - intros _. apply resolve_in_is_resolved.
  - by rewrite resolve_in_other.
Qed.

Lemma keeps_grows_add_blk b : keeps grows (add_blk b).
Proof.
  intros s s'.
  assert (Hn : heap s !! new_addr s = None).
  { apply not_elem_of_dom. unfold new_addr. apply is_fresh. }
  unfold add_blk, mbind, M_bind, get, modify.
  destruct (storage s !! hash b) as [a|] eqn:Hs; cbn; intros [= <-]; [reflexivity|].
  split; fields; try done.
  - intros x bx Hx. exists bx. split; [|reflexivity]. rewrite lookup_insert_ne; [done|]. congruence.
  - intros h a Ha. destruct (decide (h = hash b)) as [->|Hne].
    + rewrite lookup_insert_eq in Ha. injection Ha as <-. right. split; [done|].
      exists b. by rewrite lookup_insert_eq.
    + rewrite lookup_insert_ne in Ha by done. by left.
Qed.
#[export] Hint Resolve keeps_grows_new_promise keeps_grows_resolve keeps_grows_add_blk : keeps.

Ltac block_grows_atom :=
  split; fields; try done; try (intros; split; done);
  try apply union_subseteq_l.

Ltac grows_atom :=
  intros;
  first [ apply grows_out
        | apply grows_fields; reflexivity
        | apply grows_echos
        | apply grows_acks
        | apply grows_finished
        | apply grows_release
        | eapply grows_heap; [eassumption|block_grows_atom] ].

#[export] Instance grows_undelivered_preorder blk : PreOrder (grows_undelivered blk).
Proof.
  split.
  - intros s Hu. split; [reflexivity|done].
  - intros s1 s2 s3 H1 H2 Hu. destruct (H1 Hu) as [G1 Hu2]. destruct (H2 Hu2) as [G2 Hu3].
    split; [by etrans|done].
Qed.

Lemma grows_undelivered_fields blk s s' :
  heap s' = heap s -> grows s s' -> grows_undelivered blk s s'.
Proof. intros Hh G Hu. split; [done|]. unfold undelivered. by rewrite Hh. Qed.

Lemma grows_undelivered_heap blk s b b' :
  heap s !! blk = Some b -> delivered b' = delivered b ->
  hash b' = hash b -> cmds b' = cmds b -> parent_hashes b' = parent_hashes b ->
  decision b' = decision b -> voted b' = voted b -> preCommitted b' = preCommitted b ->
  grows_undelivered blk s (with_heap (<[blk := b']> (heap s)) s).
Proof.
  intros Hb Hd' Hh Hc Hp Hdc Hv Hpc (b0 & Hb0 & Hd). simplify_eq. split.
  - eapply grows_heap; [done|]. split; try done; try congruence; try (intros ?; congruence).
    all: first [by rewrite Hv|by rewrite Hpc].
  - exists b'. fields. rewrite lookup_insert_eq. split; [done|congruence].
Qed.

Ltac grows_undelivered_atom :=
  intros;
  first [ apply grows_undelivered_fields; [reflexivity|apply grows_fields; reflexivity]
        | eapply grows_undelivered_heap; [eassumption|..]; fields; first [reflexivity|eassumption] ].

Lemma keeps_at_grows_guarded {A B} blk (m : M A) (f : A -> M B) s :
  undelivered s blk -> keeps (grows_undelivered blk) m ->
  (forall a s1, undelivered s1 blk -> keeps_at grows (f a) s1) ->
  keeps_at grows (m ≫= f) s.
Proof.
  intros Hu Hm Hf s'. unfold mbind, M_bind. specialize (Hm s). unfold keeps_at in Hm.
  destruct (m s) as [a s1| e s1 | |]; cbn; try done.
  - intros H. destruct (Hm s1 eq_refl Hu) as [G Hu1]. etrans; [exact G|]. by apply (Hf a s1).
  - intros [= <-]. by destruct (Hm s1 eq_refl Hu).
Qed.

Lemma deref_Ret a s b s' : deref a s = Ret b s' -> heap s !! a = Some b /\ s' = s.
Proof.
  unfold deref, mbind, M_bind, get. destruct (heap s !! a); cbn; [|done]. by intros [= -> ->].
Qed.

Lemma keeps_grows_on_deliver_blk blk : keeps grows (on_deliver_blk blk).
Proof.
  intros s. unfold on_deliver_blk.
  apply (keeps_at_bind_reads grows); [apply reads_deref|]. intros b Hb.
  apply deref_Ret in Hb as [Hs _].
  destruct (delivered b) eqn:Hd; [exact (reads_keeps grows _ (reads_ret _) s)|].
  assert (Hu : undelivered s blk) by by exists b.
  clear Hs. revert Hu. generalize s. clear s.
  repeat (let s := fresh "s" in let Hu := fresh "Hu" in
          intros s Hu; apply (keeps_at_grows_guarded blk);
          [exact Hu|solve [keep grows_undelivered_atom]|intros ?]).
  intros s' _. apply (keeps_at_of_keeps grows). keep grows_atom.
Qed.
#[export] Hint Resolve keeps_grows_on_deliver_blk : keeps.

Lemma keeps_grows_on_receive_blamenotify fuel bn : keeps grows (on_receive_blamenotify fuel bn).
Proof.
  revert bn. induction fuel as [|fuel IH]; intros bn; cbn [on_receive_blamenotify]; keep grows_atom.
Qed.
#[export] Hint Resolve keeps_grows_on_receive_blamenotify : keeps.

Lemma keeps_grows_on_receive_proposal fuel prop : keeps grows (on_receive_proposal fuel prop).
Proof.
  revert prop. induction fuel as [|fuel IH]; intros prop; cbn [on_receive_proposal];
    keep grows_atom.
Qed.
#[export] Hint Resolve keeps_grows_on_receive_proposal : keeps.

Lemma keeps_grows_prune_loop fuel st : keeps grows (prune_loop fuel st).
Proof.
  revert st. induction fuel as [|fuel IH]; intros st; cbn [prune_loop]; keep grows_atom.
Qed.
#[export] Hint Resolve keeps_grows_prune_loop : keeps.

Lemma keeps_grows_step fuel i : keeps grows (step fuel i).
Proof. destruct i; cbn [step]; keep grows_atom. Qed.

Lemma run_reaches fuel l s s' : state_of (run fuel l s) = Some s' -> reaches s s'.
Proof.
  revert s. induction l as [|i l IH]; intros s; unfold run; cbn [forM_].
  - intros [= <-]. constructor.
  - unfold mbind, M_bind. destruct (step fuel i s) as [[] s1|e s1| |] eqn:E; cbn; try done.
    + intros H. eapply reaches_step; [by rewrite E|]. by apply IH.
    + intros [= <-]. eapply reaches_step; [by rewrite E|]. constructor.
Qed.

Lemma reaches_grows s s' : reaches s s' -> grows s s'.
Proof. apply (keeps_reaches grows). apply keeps_grows_step. Qed.

(** X1.  A delivered block stays delivered and keeps its height, and no
    block ever changes its hash, commands or parent hashes, whatever calls
    the core handles afterwards. *)
Theorem delivered_block_stable (s s' : HotStuffCore) (a : addr) (b : Block) :
  reaches s s' -> heap s !! a = Some b ->
  exists b', heap s' !! a = Some b' /\
    hash b' = hash b /\ cmds b' = cmds b /\ parent_hashes b' = parent_hashes b /\
    (delivered b = true -> delivered b' = true /\ height b' = height b).
Proof.
  intros Hr Hb. destruct (g_heap _ _ (reaches_grows _ _ Hr) a b Hb) as (b' & Hb' & G).
  exists b'. split; [done|]. by destruct G.
Qed.

(** X2.  A decision is final: a block that is decided stays decided. *)
Theorem decision_final (s s' : HotStuffCore) (a : addr) :
  reaches s s' -> decided_in s a -> decided_in s' a.
Proof.
  intros Hr (b & Hb & Hd). destruct (g_heap _ _ (reaches_grows _ _ Hr) a b Hb) as (b' & Hb' & G).
  exists b'. split; [done|]. by apply G.
Qed.

(** X3.  The sets of counted senders only grow: the voters and the
    pre-committers of a block, and the replicas whose Echo or Ack is
    recorded for a hash, are never removed. *)
Theorem counted_senders_grow (s s' : HotStuffCore) :
  reaches s s' ->
  (forall a b, heap s !! a = Some b ->
     exists b', heap s' !! a = Some b' /\
       voted b ⊆ voted b' /\ preCommitted b ⊆ preCommitted b') /\
  (forall h, echos_of s h ⊆ echos_of s' h /\ acks_of s h ⊆ acks_of s' h).
Proof.
  intros Hr. pose proof (reaches_grows _ _ Hr) as G. split.
  - intros a b Hb. destruct (g_heap _ _ G a b Hb) as (b' & Hb' & Gb).
    exists b'. split; [done|]. by destruct Gb.
  - intros h. split; apply G.
Qed.

(** ** The view, the store and the configuration *)

#[export] Instance same_view_preorder : PreOrder same_view.
Proof.
  split.
  - intros s. by split.
  - intros s1 s2 s3 [V1 T1 B1 P1] [V2 T2 B2 P2]. split; [congruence|auto|by etrans|].
    intros h. etrans; [apply P1|apply P2].
Qed.
#[export] Instance same_store_preorder : PreOrder same_store.
Proof. split; [by intros s h a Ha|]. intros s1 s2 s3 H1 H2 h a Ha. by apply H2, H1. Qed.
#[export] Instance same_config_preorder : PreOrder same_config.
Proof.
  split; [by intros s; split|]. intros s1 s2 s3 [C1 D1] [C2 D2]. split; congruence.
Qed.

Ltac same_view_atom :=
  intros; split; fields; first [done | apply union_subseteq_l | by intros].
Ltac same_store_atom := intros; intros ? ?; fields; first [done | by intros].
Ltac same_config_atom := intros; split; reflexivity.

(** Reading the state at a known point of a handler. *)
Lemma keeps_at_get {B} R (f : HotStuffCore -> M B) s :
  keeps_at R (f s) s -> keeps_at R (get ≫= f) s.
Proof. intros H s'. unfold mbind, M_bind, get. apply H. Qed.

Lemma keeps_at_deref {B} R `{!PreOrder R} a (f : Block -> M B) s :
  (forall b, heap s !! a = Some b -> keeps_at R (f b) s) -> keeps_at R (deref a ≫= f) s.
Proof.
  intros H. apply (keeps_at_bind_reads R); [apply reads_deref|].
  intros b [Hb _]%deref_Ret. by apply H.
Qed.

Lemma keeps_at_modify R f s : R s (f s) -> keeps_at R (modify f) s.
Proof. by intros H s' [= <-]. Qed.

Lemma same_view_proposals s h x :
  same_view s (with_proposals (<[h := pslot_of s h ∪ {[ x ]}]> (proposals s)) s).
Proof.
  split; fields; try done. intros h'. unfold pslot_of. fields.
  destruct (decide (h' = h)) as [->|Hne].
  - rewrite lookup_insert_eq. cbn. apply union_subseteq_l.
  - by rewrite lookup_insert_ne.
Qed.

Lemma keeps_same_view_judge_proposal_ rec fuel prop :
  (forall p, keeps same_view (rec p)) ->
  keeps same_view (_blame fuel) ->
  keeps same_view (judge_proposal_ rec fuel prop).
Proof.
  intros Hrec Hblame s. unfold judge_proposal_.
  apply (keeps_at_deref same_view). intros b Hb. apply keeps_at_get.
  apply (keeps_at_bind same_view); [|intros ?; keep same_view_atom].
  destruct (_ <=? _); [|apply (keeps_at_of_keeps same_view); keep same_view_atom].
  apply (keeps_at_bind same_view); [|intros ?; keep same_view_atom].
  apply keeps_at_modify, same_view_proposals.
Qed.

Lemma keeps_same_view_on_receive_blamenotify fuel bn :
  keeps same_view (on_receive_blamenotify fuel bn).
Proof.
  revert bn. induction fuel as [|fuel IH]; intros bn; cbn [on_receive_blamenotify];
    keep same_view_atom.
Qed.
#[export] Hint Resolve keeps_same_view_on_receive_blamenotify : keeps.
Lemma keeps_same_view_blame fuel : keeps same_view (_blame fuel).
Proof. keep same_view_atom. Qed.
#[export] Hint Resolve keeps_same_view_blame : keeps.
Lemma keeps_same_view_on_receive_proposal fuel prop :
  keeps same_view (on_receive_proposal fuel prop).
Proof.
  revert prop. induction fuel as [|fuel IH]; intros prop; cbn [on_receive_proposal].
  - keep same_view_atom.
  - assert (Hj : forall p, keeps same_view (judge_proposal_ (on_receive_proposal fuel) fuel p)).
    { intros p. apply keeps_same_view_judge_proposal_; auto with keeps. }
    unfold on_receive_proposal_body. keep same_view_atom.
Qed.
#[export] Hint Resolve keeps_same_view_on_receive_proposal : keeps.
Lemma keeps_same_view_prune_loop fuel st : keeps same_view (prune_loop fuel st).
Proof.
  revert st. induction fuel as [|fuel IH]; intros st; cbn [prune_loop]; keep same_view_atom.
Qed.
#[export] Hint Resolve keeps_same_view_prune_loop : keeps.
Lemma keeps_same_view_step fuel i : changes_view i = false -> keeps same_view (step fuel i).
Proof. destruct i; try done; intros _; cbn [step]; keep same_view_atom. Qed.

Lemma keeps_same_store_add_blk b : keeps same_store (add_blk b).
Proof.
  intros s s'. unfold add_blk, mbind, M_bind, get, modify.
  destruct (storage s !! hash b) as [a|] eqn:Hs; cbn; intros [= <-]; [reflexivity|].
  intros h x Hx. fields. rewrite lookup_insert_ne; [done|]. congruence.
Qed.
#[export] Hint Resolve keeps_same_store_add_blk : keeps.
Lemma keeps_same_store_on_receive_blamenotify fuel bn :
  keeps same_store (on_receive_blamenotify fuel bn).
Proof.
  revert bn. induction fuel as [|fuel IH]; intros bn; cbn [on_receive_blamenotify];
    keep same_store_atom.
Qed.
#[export] Hint Resolve keeps_same_store_on_receive_blamenotify : keeps.
Lemma keeps_same_store_on_receive_proposal fuel prop :
  keeps same_store (on_receive_proposal fuel prop).
Proof.
  revert prop. induction fuel as [|fuel IH]; intros prop; cbn [on_receive_proposal];
    keep same_store_atom.
Qed.
#[export] Hint Resolve keeps_same_store_on_receive_proposal : keeps.
Lemma keeps_same_store_step fuel i : releases i = false -> keeps same_store (step fuel i).
Proof. destruct i; try done; intros _; cbn [step]; keep same_store_atom. Qed.

Lemma keeps_same_config_on_receive_blamenotify fuel bn :
  keeps same_config (on_receive_blamenotify fuel bn).
Proof.
  revert bn. induction fuel as [|fuel IH]; intros bn; cbn [on_receive_blamenotify];
    keep same_config_atom.
Qed.
#[export] Hint Resolve keeps_same_config_on_receive_blamenotify : keeps.
Lemma keeps_same_config_on_receive_proposal fuel prop :
  keeps same_config (on_receive_proposal fuel prop).
Proof.
  revert prop. induction fuel as [|fuel IH]; intros prop; cbn [on_receive_proposal];
    keep same_config_atom.
Qed.
#[export] Hint Resolve keeps_same_config_on_receive_proposal : keeps.
Lemma keeps_same_config_prune_loop fuel st : keeps same_config (prune_loop fuel st).
Proof.
  revert st. induction fuel as [|fuel IH]; intros st; cbn [prune_loop]; keep same_config_atom.
Qed.
#[export] Hint Resolve keeps_same_config_prune_loop : keeps.
Lemma keeps_same_config_step fuel i : configures i = false -> keeps same_config (step fuel i).
Proof. destruct i; try done; intros _; cbn [step]; keep same_config_atom. Qed.

(** ** What a switch suspends *)

#[export] Instance guarded_preorder G Q `{!PreOrder Q} : PreOrder (guarded G Q).
Proof.
  split.
  - intros s HG. split; [reflexivity|done].
  - intros s1 s2 s3 H1 H2 HG. destruct (H1 HG) as [Q1 G2]. destruct (H2 G2) as [Q2 G3].
    split; [by etrans|done].
Qed.
#[export] Instance frozen_preorder : PreOrder frozen.
Proof.
  split; [by intros s; split|]. intros s1 s2 s3 [] []. split; congruence.
Qed.
#[export] Instance no_vote_preorder : PreOrder no_vote.
Proof. split; [by intros s|]. intros s1 s2 s3 H1 H2. unfold no_vote in *. congruence. Qed.

Lemma filter_snoc_false {A} (f : A -> bool) l x :
  f x = false -> List.filter f (l ++ [x]) = List.filter f l.
Proof. intros Hx. rewrite List.filter_app. cbn. rewrite Hx. apply app_nil_r. Qed.

(** A handler that returns at once when the switch is set. *)
Lemma keeps_guard_top {A} G Q `{!PreOrder Q} (a : A) (k : HotStuffCore -> M A) :
  keeps (guarded G Q) (s ← get; if G s then mret a else k s).
Proof.
  intros s s'. unfold mbind, M_bind, get. destruct (G s) eqn:HG.
  - intros [= <-]. reflexivity.
  - intros _ HG'. congruence.
Qed.

Ltac frozen_atom :=
  intros; intros ?; split;
  [split; fields; first [done | apply filter_snoc_false; reflexivity]
  |fields; assumption].
Ltac no_vote_atom :=
  intros; intros ?; split;
  [unfold no_vote; fields; first [done | apply filter_snoc_false; reflexivity]
  |fields; assumption].

Abbreviation in_transition_frozen := (guarded view_trans frozen).
Abbreviation vote_disabled_silent := (guarded vote_disabled no_vote).

Lemma keeps_frozen_on_receive_blamenotify fuel bn :
  keeps in_transition_frozen (on_receive_blamenotify fuel bn).
Proof.
  destruct fuel as [|fuel]; cbn [on_receive_blamenotify]; [keep frozen_atom|].
  apply (keeps_guard_top view_trans frozen).
Qed.
Lemma keeps_frozen_on_receive_blame fuel blame :
  keeps in_transition_frozen (on_receive_blame fuel blame).
Proof. apply (keeps_guard_top view_trans frozen). Qed.
Lemma keeps_frozen_on_receive_proposal fuel prop :
  keeps in_transition_frozen (on_receive_proposal fuel prop).
Proof.
  destruct fuel as [|fuel]; cbn [on_receive_proposal]; [keep frozen_atom|].
  apply (keeps_guard_top view_trans frozen).
Qed.
Lemma keeps_frozen_on_propose fuel cmds parents extra :
  keeps in_transition_frozen (on_propose fuel cmds parents extra).
Proof. apply (keeps_guard_top view_trans frozen). Qed.
Lemma keeps_frozen_on_propose_propagated_ rec h :
  keeps in_transition_frozen (on_propose_propagated_ rec h).
Proof. apply (keeps_guard_top view_trans frozen). Qed.
#[export] Hint Resolve keeps_frozen_on_receive_blamenotify keeps_frozen_on_receive_blame
  keeps_frozen_on_receive_proposal keeps_frozen_on_propose keeps_frozen_on_propose_propagated_ : keeps.
Lemma keeps_frozen_prune_loop fuel st : keeps in_transition_frozen (prune_loop fuel st).
Proof.
  revert st. induction fuel as [|fuel IH]; intros st; cbn [prune_loop]; keep frozen_atom.
Qed.
#[export] Hint Resolve keeps_frozen_prune_loop : keeps.
Lemma keeps_frozen_step fuel i :
  changes_view i = false -> keeps in_transition_frozen (step fuel i).
Proof. destruct i; try done; intros _; cbn [step]; keep frozen_atom. Qed.

Lemma keeps_at_reads {A B} R `{!PreOrder R} (m : M A) (f : A -> M B) s :
  reads m -> (forall a, keeps_at R (f a) s) -> keeps_at R (m ≫= f) s.
Proof. intros Hm Hf. apply (keeps_at_bind_reads R); [done|]. intros a _. apply Hf. Qed.

Lemma keeps_silent_on_propose_propagated_ rec h :
  keeps vote_disabled_silent (on_propose_propagated_ rec h).
Proof.
  intros s. destruct (vote_disabled s) eqn:Hvd; [|intros s' _ ?; congruence].
  unfold on_propose_propagated_. apply keeps_at_get.
  destruct (view_trans s); [apply (keeps_at_of_keeps vote_disabled_silent); keep no_vote_atom|].
  apply (keeps_at_reads vote_disabled_silent); [apply reads_get_delivered_blk|]. intros blk.
  apply (keeps_at_reads vote_disabled_silent); [apply reads_sanity_check_delivered|]. intros _.
  apply keeps_at_get. rewrite Hvd. cbn [negb].
  apply (keeps_at_of_keeps vote_disabled_silent). keep no_vote_atom.
Qed.
#[export] Hint Resolve keeps_silent_on_propose_propagated_ : keeps.
Lemma keeps_silent_on_receive_blamenotify fuel bn :
  keeps vote_disabled_silent (on_receive_blamenotify fuel bn).
Proof.
  revert bn. induction fuel as [|fuel IH]; intros bn; cbn [on_receive_blamenotify];
    keep no_vote_atom.
Qed.
#[export] Hint Resolve keeps_silent_on_receive_blamenotify : keeps.
Lemma keeps_silent_on_receive_proposal fuel prop :
  keeps vote_disabled_silent (on_receive_proposal fuel prop).
Proof.
  revert prop. induction fuel as [|fuel IH]; intros prop; cbn [on_receive_proposal];
    keep no_vote_atom.
Qed.
#[export] Hint Resolve keeps_silent_on_receive_proposal : keeps.
Lemma keeps_silent_prune_loop fuel st : keeps vote_disabled_silent (prune_loop fuel st).
Proof.
  revert st. induction fuel as [|fuel IH]; intros st; cbn [prune_loop]; keep no_vote_atom.
Qed.
#[export] Hint Resolve keeps_silent_prune_loop : keeps.
Lemma keeps_silent_step fuel i :
  (forall f, i <> In_set_vote_disabled f) -> keeps vote_disabled_silent (step fuel i).
Proof.
  destruct i; intros Hi; try (by destruct (Hi f)); cbn [step]; keep no_vote_atom.
Qed.

(** * What only some calls change *)

(** X4.  Only [on_viewtrans_timeout] changes the view: whatever other call
    the core handles, and whether it returns or throws, the view number is
    the same, a view transition that was entered is not left, and no blamer
    and no proposal recorded for the view is dropped. *)
Theorem view_changes_only_on_timeout (fuel : nat) (i : Input) (s s' : HotStuffCore) :
  state_of (step fuel i s) = Some s' -> i <> In_on_viewtrans_timeout ->
  view s' = view s /\ (view_trans s = true -> view_trans s' = true) /\
  blamed s ⊆ blamed s' /\ (forall h, pslot_of s h ⊆ pslot_of s' h).
Proof.
  intros Hs Hi. assert (Hc : changes_view i = false) by (by destruct i).
  by destruct (keeps_same_view_step fuel i Hc s s' Hs).
Qed.

(** X5.  Only [prune] removes a block from the store: after any other
    call, whether it returns or throws, every hash that was stored still
    stands for the same block. *)
Theorem store_released_only_by_prune (fuel : nat) (i : Input) (s s' : HotStuffCore)
    (h : uint256_t) (a : addr) :
  state_of (step fuel i s) = Some s' -> (forall staleness, i <> In_prune staleness) ->
  storage s !! h = Some a -> storage s' !! h = Some a.
Proof.
  intros Hs Hi. assert (Hc : releases i = false) by (destruct i; try done; by destruct (Hi staleness)).
  apply (keeps_same_store_step fuel i Hc s s' Hs).
Qed.


(** X7.  With [vote_disabled] set the replica broadcasts no Vote: whatever
    call other than [set_vote_disabled] it handles, no [do_broadcast_vote] is
    output and the switch stays set. *)
Theorem vote_disabled_silences (fuel : nat) (i : Input) (s s' : HotStuffCore) :
  vote_disabled s = true ->
  state_of (step fuel i s) = Some s' -> (forall f, i <> In_set_vote_disabled f) ->
  vote_disabled s' = true /\
  List.filter is_vote (out s') = List.filter is_vote (out s).
Proof.
  intros Hvd Hs Hi. by destruct (keeps_silent_step fuel i Hi s s' Hs Hvd).
Qed.

(** X8.  The configuration is fixed while the protocol runs: only
    [add_replica] and [on_init] change the replica set, [nmajority] and
    [delta], and only [set_vote_disabled] changes the switch. *)
Theorem configuration_fixed (fuel : nat) (i : Input) (s s' : HotStuffCore) :
  state_of (step fuel i s) = Some s' -> configures i = false ->
  config s' = config s /\ vote_disabled s' = vote_disabled s.
Proof. intros Hs Hc. apply (keeps_same_config_step fuel i Hc s s' Hs). Qed.

(** * Blaming and the change of view *)

Lemma on_receive_blame_ignored (fuel : nat) (blame : Blame.t) (s : HotStuffCore) :
  view_trans s = true \/ ReplicaConfig.nmajority (config s) <= set_size (blamed s) \/
  Blame.blamer blame ∈ blamed s ->
  on_receive_blame fuel blame s = Ret tt s.
Proof.
  intros H. unfold on_receive_blame. run_m.
  destruct (view_trans s); [done|].
  destruct (N.leb_spec (ReplicaConfig.nmajority (config s)) (set_size (blamed s))); [done|].
  case_bool_decide; [done|]. destruct H as [?|[?|?]]; [done|lia|done].
Qed.

Lemma on_receive_blame_counted (fuel : nat) (blame : Blame.t) (s : HotStuffCore)
    (q : QuorumCert.t) (c : PartCert.t) :
  view_trans s = false -> Blame.blamer blame ∉ blamed s ->
  set_size (blamed s) + 1 < ReplicaConfig.nmajority (config s) ->
  blame_qc s = Some q -> Blame.cert blame = Some c ->
  on_receive_blame fuel blame s = Ret tt (blame_counted (Blame.blamer blame) c q s).
Proof.
  intros Hvt Hnew Hlt Hq Hc. unfold blame_counted.
  assert (W : wp (on_receive_blame fuel blame) (fun _ s' =>
    s' = with_blame_qc (Some (QuorumCert.add_part (Blame.blamer blame) c q))
           (with_blamed (blamed s ∪ {[ Blame.blamer blame ]}) s)) s).
  { unfold on_receive_blame. wp_steps. rewrite Hvt.
    destruct (N.leb_spec (ReplicaConfig.nmajority (config s)) (set_size (blamed s))); [lia|].
    rewrite bool_decide_false by done. wp_steps. rewrite ?Hc. wp_steps.
    assert (Hne : (set_size (blamed s) + 1 =? ReplicaConfig.nmajority (config s)) = false)
      by (apply N.eqb_neq; lia).
    rewrite Hne. by wp_steps. }
  apply wp_elim_unit in W as (s' & E & ->). exact E.
Qed.

Lemma on_receive_blame_quorum (fuel : nat) (blame : Blame.t) (s : HotStuffCore)
    (q : QuorumCert.t) (c : PartCert.t) (first : addr) (second : QuorumCert.t) (hb : Block) :
  view_trans s = false -> Blame.blamer blame ∉ blamed s ->
  set_size (blamed s) + 1 = ReplicaConfig.nmajority (config s) ->
  blame_qc s = Some q -> Blame.cert blame = Some c ->
  hqc s = (Some first, Some second) -> heap s !! first = Some hb ->
  exists s',
    on_receive_blame (S fuel) blame s = Ret tt s' /\
    view_trans s' = true /\ view s' = view s /\
    blamed s' = blamed s ∪ {[ Blame.blamer blame ]} /\
    blame_qc s' = Some (QuorumCert.compute (QuorumCert.add_part (Blame.blamer blame) c q)) /\
    is_resolved s' (view_trans_waiting s) = true /\
    hqc s' = hqc s /\ heap s' = heap s /\ config s' = config s /\
    hashing s' = hashing s /\
    out s' = out s ++
      [do_broadcast_blamenotify
         (BlameNotify.mk (view s) (get_hash hb) (Some (QuorumCert.clone second))
            (Some (QuorumCert.clone
                     (QuorumCert.compute (QuorumCert.add_part (Blame.blamer blame) c q)))));
       stop_commit_timer_all;
       set_viewtrans_timer (Times 2 (ReplicaConfig.delta (config s)))].
Proof.
  intros Hvt Hnew Heq Hq Hc Hhqc Hfirst.
  assert (Hf : (hqc s).1 = Some first) by (by rewrite Hhqc).
  assert (Hs : (hqc s).2 = Some second) by (by rewrite Hhqc).
  apply wp_elim_unit.
  unfold on_receive_blame. wp_steps. rewrite Hvt.
  destruct (N.leb_spec (ReplicaConfig.nmajority (config s)) (set_size (blamed s))); [lia|].
  rewrite bool_decide_false by done. wp_steps. rewrite ?Hc. wp_steps.
  rewrite Heq, N.eqb_refl.
  unfold _new_view. wp_steps. unfold on_view_trans. wp_steps.
  cbn [on_receive_blamenotify]. wp_steps.
  repeat split; try done.
  - unfold is_resolved. fields.
    by destruct (resolve_in_resolved
      (<[fresh (dom (promises s)) := pm_pending]> (promises s))
      (view_trans_waiting s) pm_void) as [w ->].
  - by rewrite <- !app_assoc.
Qed.

Lemma on_viewtrans_timeout_next (s : HotStuffCore) (first : addr)
    (second : QuorumCert.t) (hb : Block) :
  hqc s = (Some first, Some second) -> heap s !! first = Some hb ->
  let p := fresh (dom (promises s)) in
  on_viewtrans_timeout s =
    Ret tt
      (with_out (out s ++ [set_blame_timer (Times 3 (ReplicaConfig.delta (config s)));
                           do_notify (Notify.mk (get_hash hb) (Some (QuorumCert.clone second)))])
         (with_promises
            (resolve_in (view_change_waiting s) pm_void (<[p := pm_pending]> (promises s)))
            (with_view_change_waiting p (next_view s)))).
Proof.
  intros Hhqc Hfirst p.
  assert (Hf : (hqc s).1 = Some first) by (by rewrite Hhqc).
  assert (Hs : (hqc s).2 = Some second) by (by rewrite Hhqc).
  assert (W : wp on_viewtrans_timeout (fun _ s' => s' =
      with_out (out s ++ [set_blame_timer (Times 3 (ReplicaConfig.delta (config s)));
                           do_notify (Notify.mk (get_hash hb) (Some (QuorumCert.clone second)))])
         (with_promises
            (resolve_in (view_change_waiting s) pm_void (<[p := pm_pending]> (promises s)))
            (with_view_change_waiting p (next_view s)))) s).
  { unfold on_viewtrans_timeout. wp_steps. unfold on_view_change. wp_steps.
    unfold next_view. state_eq. by rewrite <- app_assoc. }
  apply wp_elim_unit in W as (s' & E & ->). exact E.
Qed.

(** X9.  [on_receive_blame] ignores a Blame during a view transition,
    once [nmajority] blamers are recorded, and from a blamer already
    recorded.  Otherwise it records the blamer and adds the part to the
    blame certificate; the Blame that brings the count to [nmajority]
    starts the view transition: the certificate is computed, a BlameNotify
    carrying it and [hqc] is broadcast, the commit timers are stopped and
    the view-transition timer is armed with [2 * delta]. *)
Theorem on_receive_blame_spec (fuel : nat) (blame : Blame.t) (s : HotStuffCore)
    (q : QuorumCert.t) (c : PartCert.t) :
  (view_trans s = true \/ ReplicaConfig.nmajority (config s) <= set_size (blamed s) \/
   Blame.blamer blame ∈ blamed s ->
   on_receive_blame fuel blame s = Ret tt s) /\
  (view_trans s = false -> set_size (blamed s) < ReplicaConfig.nmajority (config s) ->
   Blame.blamer blame ∉ blamed s -> blame_qc s = Some q -> Blame.cert blame = Some c ->
   (set_size (blamed s) + 1 <> ReplicaConfig.nmajority (config s) ->
    on_receive_blame fuel blame s = Ret tt (blame_counted (Blame.blamer blame) c q s)) /\
   (set_size (blamed s) + 1 = ReplicaConfig.nmajority (config s) ->
    forall first second hb,
      hqc s = (Some first, Some second) -> heap s !! first = Some hb ->
      exists s',
        on_receive_blame (S fuel) blame s = Ret tt s' /\
        view_trans s' = true /\ view s' = view s /\
        blamed s' = blamed s ∪ {[ Blame.blamer blame ]} /\
        blame_qc s' = Some (QuorumCert.compute (QuorumCert.add_part (Blame.blamer blame) c q)) /\
        hqc s' = hqc s /\ heap s' = heap s /\
        out s' = out s ++
          [do_broadcast_blamenotify
             (BlameNotify.mk (view s) (get_hash hb) (Some (QuorumCert.clone second))
                (Some (QuorumCert.clone
                         (QuorumCert.compute (QuorumCert.add_part (Blame.blamer blame) c q)))));
           stop_commit_timer_all;
           set_viewtrans_timer (Times 2 (ReplicaConfig.delta (config s)))])).
Proof.
  split; [apply on_receive_blame_ignored|].
  intros Hvt Hlt Hnew Hq Hc. split.
  - intros Hne. apply on_receive_blame_counted; try done. lia.
  - intros Heq first second hb Hhqc Hfirst.
    destruct (on_receive_blame_quorum fuel blame s q c first second hb)
      as (s' & E & Hvt' & Hv & Hb & Hbq & _ & Hh & Hp & _ & _ & Ho); try done.
    exists s'. by split_and!.
Qed.

(** X10.  A view change takes a blame quorum and the view-transition
    timeout: from a replica that is not in a view transition and has
    recorded one blamer less than [nmajority], the Blame of a new blamer
    followed by [on_viewtrans_timeout] leads to the next view (the number
    incremented modulo 2^32) outside a transition, with no proposal and no
    blamer recorded, a blame certificate without parts for the new view and
    [hqc] unchanged; the outputs are, in this order, the BlameNotify, the
    stop of the commit timers, the view-transition timer ([2 * delta]), the
    blame timer ([3 * delta]) and a Notify carrying [hqc]. *)
Theorem view_change_round (fuel : nat) (blame : Blame.t) (s : HotStuffCore)
    (q : QuorumCert.t) (c : PartCert.t) (first : addr) (second : QuorumCert.t) (hb : Block) :
  view_trans s = false -> Blame.blamer blame ∉ blamed s ->
  set_size (blamed s) + 1 = ReplicaConfig.nmajority (config s) ->
  blame_qc s = Some q -> Blame.cert blame = Some c ->
  hqc s = (Some first, Some second) -> heap s !! first = Some hb ->
  exists s',
    run (S fuel) [In_on_receive_blame blame; In_on_viewtrans_timeout] s = Ret tt s' /\
    view s' = (view s + 1) mod uint32_max /\ view_trans s' = false /\
    proposals s' = ∅ /\ blamed s' = ∅ /\
    blame_qc s' = Some (QuorumCert.mk (Blame.proof_obj_hash (hashing s) (view s')) [] false) /\
    hqc s' = hqc s /\
    out s' = out s ++
      [do_broadcast_blamenotify
         (BlameNotify.mk (view s) (get_hash hb) (Some (QuorumCert.clone second))
            (Some (QuorumCert.clone
                     (QuorumCert.compute (QuorumCert.add_part (Blame.blamer blame) c q)))));
       stop_commit_timer_all;
       set_viewtrans_timer (Times 2 (ReplicaConfig.delta (config s)));
       set_blame_timer (Times 3 (ReplicaConfig.delta (config s)));
       do_notify (Notify.mk (get_hash hb) (Some (QuorumCert.clone second)))].
Proof.
  intros Hvt Hnew Hsz Hq Hc Hhqc Hfirst.
  destruct (on_receive_blame_quorum fuel blame s q c first second hb Hvt Hnew Hsz Hq Hc Hhqc Hfirst)
    as (s1 & E1 & Hvt1 & Hv1 & Hb1 & Hq1 & _ & Hh1 & Hp1 & Hc1 & Hhash & Ho1).
  rewrite <- Hh1 in Hhqc. rewrite <- Hp1 in Hfirst.
  pose proof (on_viewtrans_timeout_next s1 first second hb Hhqc Hfirst) as E2. cbv zeta in E2.
  eexists. split.
  { unfold run. cbn [forM_ step]. unfold mbind at 1, M_bind at 1. rewrite E1.
    unfold mbind at 1, M_bind at 1. rewrite E2. reflexivity. }
  unfold next_view. fields. rewrite Hv1, Hc1, Ho1, Hh1, Hhash, <- app_assoc.
  done.
Qed.

(** * The highest certified block *)

Lemma get_delivered_blk_None s h :
  delivered_of s h = None -> storage_valid s ->
  get_delivered_blk h s = Raise "block not delivered" s.
Proof.
  intros Hd Hv.
  assert (W : wpx (get_delivered_blk h) (fun _ _ => False)
                (fun e s' => e = "block not delivered" /\ s' = s) s).
  { by apply wp_get_delivered_blk_throw. }
  apply wpx_elim_raise in W as (e & s' & E & -> & ->). exact E.
Qed.

(** X11.  [on_receive_notify] throws when the block of the Notify is not a
    delivered block of the store (whose handles all name block objects),
    and changes nothing then.  For a
    delivered block with a certificate for its hash, [hqc] is replaced (by
    the block and a clone of the certificate, the promise of the [hqc] update
    being resolved) only if the block is strictly higher than [hqc]; a block
    of the same or a lower height leaves the state unchanged. *)
Theorem on_receive_notify_spec (notify : Notify.t) (s : HotStuffCore) :
  (delivered_of s (Notify.blk_hash notify) = None -> storage_valid s ->
   on_receive_notify notify s = Raise "block not delivered" s) /\
  (forall blk b q first second hb,
     delivered_of s (Notify.blk_hash notify) = Some blk -> heap s !! blk = Some b ->
     Notify.qc notify = Some q ->
     QuorumCert.obj_hash q = Vote.proof_obj_hash (hashing s) (get_hash b) ->
     hqc s = (Some first, second) -> heap s !! first = Some hb ->
     (height b <= height hb -> on_receive_notify notify s = Ret tt s) /\
     (height hb < height b ->
      exists s',
        on_receive_notify notify s = Ret tt s' /\
        hqc s' = (Some blk, Some (QuorumCert.clone q)) /\
        is_resolved s' (hqc_update_waiting s) = true /\
        heap s' = heap s /\ out s' = out s /\ vheight s' = vheight s /\ b_exec s' = b_exec s)).
Proof.
  split.
  - intros Hd Hv. unfold on_receive_notify, mbind, M_bind.
    by rewrite (get_delivered_blk_None s _ Hd Hv).
  - intros blk b q first second hb Hd Hb Hq Hobj Hhqc Hfirst.
    assert (Hf : (hqc s).1 = Some first) by (by rewrite Hhqc).
    split.
    + intros Hle.
      assert (W : wp (on_receive_notify notify) (fun _ s' => s' = s) s).
      { unfold on_receive_notify.
        apply wp_bind, (wp_get_delivered_blk _ _ blk); [exact Hd|].
        rewrite Hq. unfold update_hqc. wp_steps.
        apply wp_assert; [by apply N.eqb_eq|]. wp_steps.
        apply N.ltb_ge in Hle. rewrite Hle. by wp_steps. }
      apply wp_elim_unit in W as (s' & E & ->). exact E.
    + intros Hlt. apply wp_elim_unit.
      unfold on_receive_notify.
      apply wp_bind, (wp_get_delivered_blk _ _ blk); [exact Hd|].
      rewrite Hq. unfold update_hqc. wp_steps.
      apply wp_assert; [by apply N.eqb_eq|]. wp_steps.
      apply N.ltb_lt in Hlt. rewrite Hlt. wp_steps. unfold on_hqc_update. wp_steps.
      repeat split; try done.
      unfold is_resolved. fields.
      by destruct (resolve_in_resolved
        (<[fresh (dom (promises s)) := pm_pending]> (promises s))
        (hqc_update_waiting s) pm_void) as [w ->].
Qed.

(** * Committing again *)

Lemma wp_check_commit fuel blk s bb bv q b :
  heap s !! blk = Some bb -> height bb <> 0 ->
  commit_path s blk q b -> (length q < fuel)%nat ->
  heap s !! b = Some bv -> b = b_exec s \/ decision bv = 1%Z ->
  check_commit fuel blk s =
    Ret tt (with_b_exec blk (foldl (fun s a => commit_one a s) s (rev q))).
Proof.
  intros Hbb Hh Hp Hf Hbv Hok.
  assert (Hz : (get_height bb =? 0) = false) by (by apply N.eqb_neq).
  assert (W : wp (check_commit fuel blk) (fun _ s' =>
                s' = with_b_exec blk (foldl (fun s a => commit_one a s) s (rev q))) s).
  { unfold check_commit. wp_steps. rewrite Hz.
    apply wp_bind. eapply wpx_mono; [by eapply (wp_commit_walk s fuel blk q b [])| |done].
    intros [q' b'] s' [-> [= -> ->]]. fields. cbn [app]. wp_steps.
    assert (Hc : negb (b =? b_exec s) && negb (decision bv =? 1)%Z = false).
    { destruct Hok as [->| ->]; [by rewrite N.eqb_refl|]. by rewrite Z.eqb_refl, andb_false_r. }
    rewrite Hc. wp_steps.
    apply wp_commit_loop.
    - intros a Ha. eapply commit_path_in_heap; [done|]. apply list_elem_of_In, in_rev. by apply list_elem_of_In.
    - by wp_steps. }
  apply wp_elim_unit in W as (s' & E & ->). exact E.
Qed.

(** X12.  [check_commit] on a decided block of non-zero height that is not
    higher than [b_exec] outputs nothing and moves [b_exec] back to that
    block.  A later [check_commit] on a block above it, whose walk along
    [parents[0]] leads down to that block, then commits the whole branch
    between them, outputting [do_consensus] and the Finality of every
    command of those blocks, whether or not they were decided before. *)
Theorem check_commit_moves_b_exec_back (fuel fuel' : nat) (blk : addr) (s : HotStuffCore)
    (bb be : Block) :
  heap s !! blk = Some bb -> height bb <> 0 -> decision bb = 1%Z ->
  heap s !! b_exec s = Some be -> height bb <= height be ->
  check_commit (S fuel) blk s = Ret tt (with_b_exec blk s) /\
  (forall tip bt q,
     heap s !! tip = Some bt -> commit_path (with_b_exec blk s) tip q blk ->
     (length q < fuel')%nat ->
     exists s',
       check_commit fuel' tip (with_b_exec blk s) = Ret tt s' /\
       b_exec s' = tip /\
       out s' = out s ++ flat_map (commit_events s) (rev q) /\
       forall a, a ∈ q -> decided_in s' a).
Proof.
  intros Hbb Hh Hd Hbe Hle. split.
  - assert (Hp : commit_path s blk [] blk) by (by econstructor).
    assert (Hl : (length (@nil addr) < S fuel)%nat) by (cbn; lia).
    by rewrite (wp_check_commit (S fuel) blk s bb bb [] blk Hbb Hh Hp Hl Hbb (or_intror Hd)).
  - intros tip bt q Hbt Hp Hf.
    assert (Hht : height bt <> 0).
    { inversion Hp as [b0 bb0 be0 H1 H2 H3|a ab be0 p pb q0 b0 H1 H2 H3 H4 H5 H6 H7]; subst;
        fields_in_all; rewrite Hbt in H1; injection H1 as <-; [congruence|lia]. }
    rewrite (wp_check_commit fuel' tip (with_b_exec blk s) bt bb q blk Hbt Hht Hp Hf Hbb (or_introl eq_refl)).
    eexists. split; [done|].
    destruct (commit_loop_committed (with_b_exec blk s) (rev q)) as [Ho Hhp Hr].
    fields. split; [done|]. split; [by rewrite Ho|].
    intros a Ha. unfold decided_in. fields. rewrite Hhp.
    rewrite decide_True by (apply list_elem_of_In; rewrite <- in_rev; by apply list_elem_of_In).
    destruct (commit_path_in_heap _ _ _ _ Hp a Ha) as [ba Hba]. fields_in_all.
    rewrite Hba. cbn. by eexists.
Qed.

(** * A call handled twice *)

Lemma after_bind {A B} (m : M A) (k : A -> M B) P s :
  (forall a s1, m s = Ret a s1 -> after (k a) P s1) -> after (m ≫= k) P s.
Proof.
  intros H b s'. unfold mbind, M_bind. destruct (m s) as [a s1| | |] eqn:E; try done.
  intros Hk. by apply (H a s1 eq_refl b s').
Qed.
Lemma after_ret {A} (a : A) (P : HotStuffCore -> Prop) s : P s -> after (mret a) P s.
Proof. by intros H b s' [= _ <-]. Qed.
Lemma after_throw {A} e P s : after (@throw A e) P s.
Proof. by intros b s'. Qed.
Lemma after_get {B} (k : HotStuffCore -> M B) P s : after (k s) P s -> after (get ≫= k) P s.
Proof. intros H. apply after_bind. by intros a s1 [= <- <-]. Qed.
Lemma after_assert {B} b (k : unit -> M B) P s :
  (b = true -> after (k tt) P s) -> after (assert b ≫= k) P s.
Proof.
  intros H. apply after_bind. unfold assert. destruct b; [|done]. intros [] s1 [= <-]. by apply H.
Qed.
Lemma after_deref {B} a (k : Block -> M B) P s :
  (forall b, heap s !! a = Some b -> after (k b) P s) -> after (deref a ≫= k) P s.
Proof. intros H. apply after_bind. intros b s1 [Hb ->]%deref_Ret. by apply H. Qed.
Lemma after_modify {B} f (k : unit -> M B) P s :
  after (k tt) P (f s) -> after (modify f ≫= k) P s.
Proof. intros H. apply after_bind. by intros [] s1 [= <-]. Qed.
Lemma after_update {B} a f (k : unit -> M B) P s :
  (forall b, heap s !! a = Some b -> after (k tt) P (with_heap (<[a := f b]> (heap s)) s)) ->
  after (update a f ≫= k) P s.
Proof.
  intros H. apply after_bind. intros [] s1. unfold update, deref, mbind, M_bind, get, modify.
  destruct (heap s !! a) as [b|] eqn:Hb; [|done]. cbn. intros [= <-]. by apply H.
Qed.
Lemma after_reads {A B} (m : M A) (k : A -> M B) P s :
  reads m -> (forall a, m s = Ret a s -> after (k a) P s) -> after (m ≫= k) P s.
Proof.
  intros Hm H. apply after_bind. intros a s1 E.
  assert (s1 = s) as -> by (apply (Hm s s1); by rewrite E). by apply H.
Qed.
Lemma after_keeps {A} R (m : M A) (P : HotStuffCore -> Prop) s :
  keeps R m -> (forall s', R s s' -> P s') -> after m P s.
Proof. intros Hm H a s' E. apply H, (Hm s s'). by rewrite E. Qed.
Lemma after_bind_keeps {A B} R (m : M A) (k : A -> M B) (P : HotStuffCore -> Prop) s :
  keeps R m -> (forall a s1, R s s1 -> after (k a) P s1) -> after (m ≫= k) P s.
Proof. intros Hm H. apply after_bind. intros a s1 E. apply H, (Hm s s1). by rewrite E. Qed.

Lemma get_delivered_blk_Ret h s blk s' :
  get_delivered_blk h s = Ret blk s' ->
  s' = s /\ storage s !! h = Some blk /\ exists b, heap s !! blk = Some b /\ delivered b = true.
Proof.
  unfold get_delivered_blk, find_blk. run_m.
  destruct (storage s !! h) as [a|]; run_m; [|done].
  destruct (heap s !! a) as [b|] eqn:Hb; run_m; [|done].
  destruct (delivered b) eqn:Hd; run_m; [|done].
  intros [= <- <-]. eauto.
Qed.

Lemma get_delivered_blk_intro h s blk b :
  storage s !! h = Some blk -> heap s !! blk = Some b -> delivered b = true ->
  get_delivered_blk h s = Ret blk s.
Proof.
  intros Hs Hb Hd. unfold get_delivered_blk, find_blk. run_m. rewrite Hs. run_m.
  rewrite Hb. run_m. by rewrite Hd.
Qed.

(** ** Echo and Ack *)

Lemma on_receive_echo_recorded fuel echo s :
  after (on_receive_echo fuel echo)
    (fun s' => is_Some (Echo.cert echo) /\ Echo.rid echo ∈ echos_of s' (Echo.blk_hash echo)) s.
Proof.
  unfold on_receive_echo, on_receive_echo_.
  apply after_assert. intros Hc%bool_decide_eq_true. apply after_get.
  case_bool_decide as Hin; [by apply after_ret|].
  apply after_modify. apply (after_keeps grows); [keep grows_atom|].
  intros s' G. split; [done|]. apply (g_echos _ _ G). unfold echos_of. fields.
  rewrite lookup_insert_eq. cbn. apply elem_of_union. right. by apply elem_of_singleton.
Qed.

Lemma on_receive_echo_duplicate fuel echo s :
  is_Some (Echo.cert echo) -> Echo.rid echo ∈ echos_of s (Echo.blk_hash echo) ->
  on_receive_echo fuel echo s = Ret tt s.
Proof.
  intros Hc Hin. unfold on_receive_echo, on_receive_echo_. run_m.
  rewrite bool_decide_true by done. run_m. by rewrite bool_decide_true.
Qed.

Lemma on_receive_ack_recorded fuel ack s :
  after (on_receive_ack fuel ack)
    (fun s' => is_Some (Ack.cert ack) /\
       (ReplicaConfig.nmajority (config s') <= set_size (acks_of s' (Ack.blk_hash ack)) \/
        Ack.rid ack ∈ acks_of s' (Ack.blk_hash ack))) s.
Proof.
  unfold on_receive_ack, on_receive_ack_.
  apply after_assert. intros Hc%bool_decide_eq_true. apply after_get.
  destruct (N.leb_spec (ReplicaConfig.nmajority (config s)) (set_size (acks_of s (Ack.blk_hash ack))));
    [apply after_ret; by auto|].
  case_bool_decide as Hin; [apply after_ret; by auto|].
  apply after_modify. apply (after_keeps grows); [keep grows_atom|].
  intros s' G. split; [done|]. right. apply (g_acks _ _ G). unfold acks_of. fields.
  rewrite lookup_insert_eq. cbn. apply elem_of_union. right. by apply elem_of_singleton.
Qed.

Lemma on_receive_ack_duplicate fuel ack s :
  is_Some (Ack.cert ack) ->
  ReplicaConfig.nmajority (config s) <= set_size (acks_of s (Ack.blk_hash ack)) \/
  Ack.rid ack ∈ acks_of s (Ack.blk_hash ack) ->
  on_receive_ack fuel ack s = Ret tt s.
Proof.
  intros Hc Hin. unfold on_receive_ack, on_receive_ack_. run_m.
  rewrite bool_decide_true by done. run_m.
  destruct (N.leb_spec (ReplicaConfig.nmajority (config s)) (set_size (acks_of s (Ack.blk_hash ack))));
    [done|].
  destruct Hin as [?|?]; [lia|]. by rewrite bool_decide_true.
Qed.

(** ** Blame and BlameNotify *)

Lemma on_receive_blame_recorded fuel blame s :
  after (on_receive_blame fuel blame)
    (fun s' => view_trans s' = true \/
       ReplicaConfig.nmajority (config s') <= set_size (blamed s') \/
       Blame.blamer blame ∈ blamed s') s.
Proof.
  unfold on_receive_blame. apply after_get.
  destruct (view_trans s) eqn:Hvt; [apply after_ret; by auto|].
  destruct (N.leb_spec (ReplicaConfig.nmajority (config s)) (set_size (blamed s)));
    [apply after_ret; by auto|].
  case_bool_decide as Hin; [apply after_ret; by auto|].
  apply after_modify. apply (after_keeps same_view); [keep same_view_atom|].
  intros s' G. right. right. apply (sv_blamed _ _ G). fields.
  apply elem_of_union. right. by apply elem_of_singleton.
Qed.

Lemma on_receive_blame_duplicate fuel blame s :
  view_trans s = true \/ ReplicaConfig.nmajority (config s) <= set_size (blamed s) \/
  Blame.blamer blame ∈ blamed s ->
  on_receive_blame fuel blame s = Ret tt s.
Proof.
  intros H. unfold on_receive_blame. run_m.
  destruct (view_trans s); [done|].
  destruct (N.leb_spec (ReplicaConfig.nmajority (config s)) (set_size (blamed s))); [done|].
  case_bool_decide; [done|]. destruct H as [?|[?|?]]; [done|lia|done].
Qed.

Lemma on_receive_blamenotify_entered fuel bn s :
  after (on_receive_blamenotify fuel bn) (fun s' => view_trans s' = true) s.
Proof.
  destruct fuel as [|fuel]; cbn [on_receive_blamenotify]; [done|].
  apply after_get. destruct (view_trans s) eqn:Hvt; [by apply after_ret|].
  apply after_bind. intros q s0 _. apply after_modify. unfold _new_view.
  apply after_bind. intros s1 s2 _. apply after_bind. intros q1 s3 _.
  apply after_modify. apply after_bind. intros ? ? _. apply after_bind. intros ? ? _.
  apply after_bind. intros ? ? _. apply after_bind. intros ? ? _. apply after_bind. intros ? ? _.
  apply after_modify. apply (after_keeps same_view); [keep same_view_atom|].
  intros s' G. by apply (sv_view_trans _ _ G).
Qed.

Lemma on_receive_blamenotify_ignored fuel bn s :
  view_trans s = true -> on_receive_blamenotify (S fuel) bn s = Ret tt s.
Proof. intros Hvt. cbn [on_receive_blamenotify]. run_m. by rewrite Hvt. Qed.

(** ** Proposal and Vote *)

Ltac skip_to_finished :=
  repeat lazymatch goal with
    | |- after (modify (fun s => with_finished_propose _ s) ≫= _) _ _ => fail
    | |- after (_ ≫= _) _ _ => apply after_bind; intros ? ? _
    end.

Lemma on_receive_proposal_processed fuel prop s :
  after (on_receive_proposal fuel prop)
    (fun s' => view_trans s' = true \/ is_finished s' (Proposal.blk prop) = true) s.
Proof.
  destruct fuel as [|fuel]; cbn [on_receive_proposal]; [done|].
  unfold on_receive_proposal_body. apply after_get.
  destruct (view_trans s) eqn:Hvt; [apply after_ret; by left|].
  destruct (is_finished s (Proposal.blk prop)) eqn:Hf; [apply after_ret; by right|].
  unfold judge_proposal_. skip_to_finished.
  apply after_modify. apply (after_keeps grows); [keep grows_atom|].
  intros s' G. right. apply (g_finished _ _ G). unfold is_finished. fields.
  by rewrite lookup_insert_eq.
Qed.

Lemma on_receive_proposal_ignored fuel prop s :
  view_trans s = true \/ is_finished s (Proposal.blk prop) = true ->
  on_receive_proposal (S fuel) prop s = Ret tt s.
Proof.
  intros H. cbn [on_receive_proposal]. unfold on_receive_proposal_body. run_m.
  destruct (view_trans s); [done|]. destruct H as [?|H]; [done|]. by rewrite H.
Qed.

Lemma keeps_and {A} (R1 R2 : relation HotStuffCore) (m : M A) :
  keeps R1 m -> keeps R2 m -> keeps (fun s s' => R1 s s' /\ R2 s s') m.
Proof. intros H1 H2 s s' E. split; [by apply H1|by apply H2]. Qed.

Lemma on_receive_vote_recorded fuel vote s :
  after (on_receive_vote fuel vote) (vote_recorded fuel vote) s.
Proof.
  unfold on_receive_vote, on_receive_vote_.
  apply after_reads; [apply reads_get_delivered_blk|].
  intros blk (_ & Hst & b & Hb & Hd)%get_delivered_blk_Ret.
  apply after_assert. intros Hc%bool_decide_eq_true. apply after_get.
  apply after_bind. intros [] s1 E1.
  assert (H1 : grows s s1 /\ same_store s s1 /\ same_view s s1 /\
               (is_finished s1 blk = true \/ (view_trans s1 = true /\ fuel <> 0%nat))).
  { destruct (is_finished s blk) eqn:Hf; cbn [negb] in E1.
    - injection E1 as <-. split; [reflexivity|]. split; [reflexivity|]. split; [reflexivity|]. by left.
    - set (p := Proposal.mk (Vote.voter vote) blk) in E1.
      assert (E1' : state_of (on_receive_proposal fuel p s) = Some s1) by (by rewrite E1).
      split; [exact (keeps_grows_on_receive_proposal fuel p s s1 E1')|].
      split; [exact (keeps_same_store_on_receive_proposal fuel p s s1 E1')|].
      split; [exact (keeps_same_view_on_receive_proposal fuel p s s1 E1')|].
      destruct (on_receive_proposal_processed fuel p s tt s1 E1) as [Hv|Hp]; [|by left].
      right. split; [done|]. intros ->. subst p. done. }
  destruct H1 as (G1 & S1 & V1 & F1).
  destruct (g_heap _ _ G1 blk b Hb) as (b1 & Hb1 & Gb1).
  destruct (bg_delivered _ _ Gb1 Hd) as [Hd1 _].
  apply after_deref. intros b1' Hb1'. simplify_eq. apply after_get.
  destruct (N.leb_spec (ReplicaConfig.nmajority (config s1)) (set_size (voted b1))).
  { apply after_ret. split; [done|]. exists blk, b1. repeat split; auto. }
  case_bool_decide as Hin.
  { apply after_ret. split; [done|]. exists blk, b1. repeat split; auto. }
  apply after_update. intros b1' Hb1'. simplify_eq.
  apply (after_keeps (fun s s' => grows s s' /\ same_store s s' /\ same_view s s')).
  { apply keeps_and; [keep grows_atom|]. apply keeps_and; [keep same_store_atom|keep same_view_atom]. }
  intros s' (G & S & V). fields_in_all. split; [done|].
  destruct (g_heap _ _ G blk _ (lookup_insert_eq _ _ _)) as (b' & Hb' & Gb').
  exists blk, b'. split; [apply S; fields; by apply S1|]. split; [done|].
  split; [by apply Gb'|]. split.
  - destruct F1 as [F1|[F1 ?]]; [left; by apply (g_finished _ _ G)|right].
    split; [|done]. by apply (sv_view_trans _ _ V).
  - right. apply (bg_voted _ _ Gb'). fields. apply elem_of_union. right. by apply elem_of_singleton.
Qed.

Lemma delivered_of_intro s h blk b :
  storage s !! h = Some blk -> heap s !! blk = Some b -> delivered b = true ->
  delivered_of s h = Some blk.
Proof. intros Hs Hb Hd. unfold delivered_of. rewrite Hs. cbn. rewrite Hb. cbn. by rewrite Hd. Qed.

Lemma on_receive_vote_duplicate fuel vote s :
  vote_recorded fuel vote s -> on_receive_vote fuel vote s = Ret tt s.
Proof.
  intros (Hc & blk & b & Hst & Hb & Hd & Hf & Hin).
  assert (W : wp (on_receive_vote fuel vote) (fun _ s' => s' = s) s).
  { unfold on_receive_vote, on_receive_vote_.
    apply wp_bind, (wp_get_delivered_blk _ _ blk); [by eapply delivered_of_intro|].
    apply wp_bind, wp_assert; [by apply bool_decide_eq_true|]. wp_step. wp_step.
    apply wp_bind.
    apply (wp_intro _ _ _ _ tt s).
    { destruct Hf as [->|[Hvt Hfuel]]; [done|]. destruct (is_finished s blk); [done|]. cbn [negb].
      destruct fuel as [|fuel]; [done|]. apply on_receive_proposal_ignored. by left. }
    wp_steps.
    destruct (N.leb_spec (ReplicaConfig.nmajority (config s)) (set_size (voted b))); [by wp_steps|].
    destruct Hin as [?|?]; [lia|]. rewrite bool_decide_true by done. by wp_steps. }
  apply wp_elim_unit in W as (s' & E & ->). exact E.
Qed.

(** ** PreCommit, delivery and commit *)

Lemma on_receive_pre_commit_recorded fuel pc s :
  after (on_receive_pre_commit fuel pc) (pre_commit_recorded pc) s.
Proof.
  unfold on_receive_pre_commit.
  apply after_assert. intros Hc%bool_decide_eq_true.
  apply after_reads; [apply reads_get_delivered_blk|].
  intros blk (_ & Hst & b & Hb & Hd)%get_delivered_blk_Ret.
  apply after_deref. intros b' Hb'. simplify_eq. apply after_get.
  destruct (N.leb_spec (ReplicaConfig.nmajority (config s)) (set_size (preCommitted b))).
  { apply after_ret. split; [done|]. exists blk, b. repeat split; auto. }
  case_bool_decide as Hin.
  { apply after_ret. split; [done|]. exists blk, b. repeat split; auto. }
  apply after_update. intros b' Hb'. simplify_eq.
  apply (after_keeps (fun s s' => grows s s' /\ same_store s s')).
  { apply keeps_and; [keep grows_atom|keep same_store_atom]. }
  intros s' (G & S). fields_in_all. split; [done|].
  destruct (g_heap _ _ G blk _ (lookup_insert_eq _ _ _)) as (b' & Hb' & Gb').
  exists blk, b'. split; [by apply S|]. split; [done|]. split; [by apply Gb'|].
  right. apply (bg_preCommitted _ _ Gb'). fields.
  apply elem_of_union. right. by apply elem_of_singleton.
Qed.

Lemma on_receive_pre_commit_duplicate fuel pc s :
  pre_commit_recorded pc s -> on_receive_pre_commit fuel pc s = Ret tt s.
Proof.
  intros (Hc & blk & b & Hst & Hb & Hd & Hin).
  assert (W : wp (on_receive_pre_commit fuel pc) (fun _ s' => s' = s) s).
  { unfold on_receive_pre_commit.
    apply wp_bind, wp_assert; [by apply bool_decide_eq_true|].
    apply wp_bind, (wp_get_delivered_blk _ _ blk); [by eapply delivered_of_intro|].
    wp_steps.
    destruct (N.leb_spec (ReplicaConfig.nmajority (config s)) (set_size (preCommitted b)));
      [by wp_steps|].
    destruct Hin as [?|?]; [lia|]. rewrite bool_decide_true by done. by wp_steps. }
  apply wp_elim_unit in W as (s' & E & ->). exact E.
Qed.

Ltac skip_to_delivered :=
  repeat lazymatch goal with
    | |- after (update _ (with_delivered true) ≫= _) _ _ => fail
    | |- after (_ ≫= _) _ _ => apply after_bind; intros ? ? _
    end.

Lemma on_deliver_blk_delivered blk s :
  after (on_deliver_blk blk)
    (fun s' => exists b, heap s' !! blk = Some b /\ delivered b = true) s.
Proof.
  unfold on_deliver_blk. apply after_deref. intros b Hb.
  destruct (delivered b) eqn:Hd; [apply after_ret; by exists b|].
  skip_to_delivered. apply after_update. intros b' Hb'. apply after_ret.
  eexists. fields. by rewrite lookup_insert_eq.
Qed.

Lemma on_deliver_blk_again blk s b :
  heap s !! blk = Some b -> delivered b = true -> on_deliver_blk blk s = Ret false s.
Proof. intros Hb Hd. unfold on_deliver_blk. run_m. rewrite Hb. run_m. by rewrite Hd. Qed.

#[export] Instance same_heights_preorder : PreOrder same_heights.
Proof.
  split.
  - intros s a b Hb. by exists b.
  - intros s1 s2 s3 H1 H2 a b Hb. destruct (H1 a b Hb) as (b2 & Hb2 & E2).
    destruct (H2 a b2 Hb2) as (b3 & Hb3 & E3). exists b3. split; [done|congruence].
Qed.

Lemma keeps_same_heights_commit_body a : keeps same_heights (commit_body a).
Proof.
  unfold commit_body. keep ltac:(idtac).
  - intros s b Hb x bx Hx. fields. destruct (decide (x = a)) as [->|Hne].
    + rewrite lookup_insert_eq. eexists. split; [done|]. by simplify_eq.
    + rewrite lookup_insert_ne by done. by exists bx.
  - intros s x bx Hx. by exists bx.
  - intros s x bx Hx. by exists bx.
Qed.

Lemma check_commit_done fuel blk s :
  after (check_commit fuel blk)
    (fun s' => exists bb, heap s' !! blk = Some bb /\
       (height bb = 0 \/ (b_exec s' = blk /\ fuel <> 0%nat))) s.
Proof.
  unfold check_commit. apply after_deref. intros bb Hbb. unfold get_height.
  destruct (N.eqb_spec (height bb) 0) as [Hz|Hz]; [apply after_ret; exists bb; by auto|].
  apply after_bind. intros [q b] s1 E.
  assert (s1 = s) as ->.
  { apply (reads_commit_walk fuel blk [] s s1). by rewrite E. }
  assert (Hfuel : fuel <> 0%nat) by (intros ->; done).
  apply after_get. apply after_bind. intros bv s2 [_ ->]%deref_Ret.
  destruct (_ && _); [apply after_throw|].
  apply (after_bind_keeps same_heights).
  { apply (keeps_forM_ same_heights). intros a. apply keeps_same_heights_commit_body. }
  intros [] s3 G. intros [] s4 [= <-]. destruct (G blk bb Hbb) as (b' & Hb' & Hh).
  exists b'. fields. split; [done|]. right. done.
Qed.

Lemma with_b_exec_id (s : HotStuffCore) : with_b_exec (b_exec s) s = s.
Proof. by destruct s. Qed.

Lemma check_commit_again fuel blk s bb :
  heap s !! blk = Some bb -> height bb = 0 \/ (b_exec s = blk /\ fuel <> 0%nat) ->
  check_commit fuel blk s = Ret tt s.
Proof.
  intros Hbb H.
  assert (W : wp (check_commit fuel blk) (fun _ s' => s' = s) s).
  { unfold check_commit. wp_steps. unfold get_height.
    destruct (N.eqb_spec (height bb) 0) as [Hz|Hz]; [by wp_steps|].
    destruct H as [?|[He Hf]]; [done|]. destruct fuel as [|fuel]; [done|].
    assert (Hbe : heap s !! b_exec s = Some bb) by (by rewrite He).
    cbn [commit_walk]. wp_steps. rewrite N.ltb_irrefl. wp_steps.
    rewrite He, N.eqb_refl. cbn [negb andb forM_ rev]. wp_steps.
    rewrite <- He. apply with_b_exec_id. }
  apply wp_elim_unit in W as (s' & E & ->). exact E.
Qed.

Lemma bind_ret_inv {A} (m : M A) s s' :
  (m ≫= fun _ => mret tt) s = Ret tt s' -> exists a, m s = Ret a s'.
Proof.
  unfold mbind, M_bind. destruct (m s) as [a s1| | |]; try done. intros [= <-]. by exists a.
Qed.

(** X13.  A message handled twice is counted once: when the delivery of a
    block, a Proposal, a Vote, a Blame, a BlameNotify, an Echo, an Ack, a
    PreCommit or a commit timeout has been handled and the call returned,
    handling the same call again returns and leaves the state, outputs
    included, unchanged. *)
Theorem replay_ignored (fuel : nat) (i : Input) (s s' : HotStuffCore) :
  replayable i = true -> step fuel i s = Ret tt s' -> step fuel i s' = Ret tt s'.
Proof.
  destruct i; try done; intros _; cbn [step]; intros E.
  - apply bind_ret_inv in E as [r E].
    destruct (on_deliver_blk_delivered blk s r s' E) as (b & Hb & Hd).
    unfold mbind, M_bind. by rewrite (on_deliver_blk_again blk s' b Hb Hd).
  - destruct fuel as [|fuel]; [done|].
    apply on_receive_proposal_ignored. by apply (on_receive_proposal_processed _ _ s tt s' E).
  - apply on_receive_vote_duplicate. by apply (on_receive_vote_recorded _ _ s tt s' E).
  - apply on_receive_blame_duplicate. by apply (on_receive_blame_recorded _ _ s tt s' E).
  - destruct fuel as [|fuel]; [done|].
    apply on_receive_blamenotify_ignored. by apply (on_receive_blamenotify_entered _ _ s tt s' E).
  - destruct (on_receive_echo_recorded _ _ s tt s' E). by apply on_receive_echo_duplicate.
  - destruct (on_receive_ack_recorded _ _ s tt s' E). by apply on_receive_ack_duplicate.
  - apply on_receive_pre_commit_duplicate. by apply (on_receive_pre_commit_recorded _ _ s tt s' E).
  - unfold on_commit_timeout in *.
    destruct (check_commit_done _ _ s tt s' E) as (bb & Hbb & H). by eapply check_commit_again.
Qed.

(** * Voting *)

Lemma set_size_mono (X Y : gset N) : X ⊆ Y -> set_size X <= set_size Y.
Proof. intros H%subseteq_size. unfold set_size. lia. Qed.

#[export] Instance votes_on_ack_quorum_preorder : PreOrder votes_on_ack_quorum.
Proof.
  split.
  - intros s. split; [done|done|by left].
  - intros s1 s2 s3 [C1 A1 V1] [C2 A2 V2]. split.
    + congruence.
    + intros h. etrans; [apply A1|apply A2].
    + destruct V1 as [N1|(h & Hlt & Hle)].
      * destruct V2 as [N2|(h & Hlt & Hle)].
        -- left. unfold no_vote in *. congruence.
        -- right. exists h. rewrite C1 in Hlt, Hle. split; [|done].
           pose proof (set_size_mono _ _ (A1 h)). lia.
      * right. exists h. split; [done|].
        pose proof (set_size_mono _ _ (A2 h)). lia.
Qed.

Ltac votes_atom :=
  intros; split;
  [fields; reflexivity
  |intros ?; unfold acks_of; fields; done
  |left; unfold no_vote; fields; first [done | apply filter_snoc_false; reflexivity]].

Lemma keeps_votes_on_receive_ack_ fuel ack :
  keeps votes_on_ack_quorum (on_receive_ack_ (on_receive_proposal fuel) ack).
Proof.
  intros s. unfold on_receive_ack_.
  apply (keeps_at_reads votes_on_ack_quorum); [apply reads_assert|]. intros _.
  apply keeps_at_get.
  destruct (N.leb_spec (ReplicaConfig.nmajority (config s)) (set_size (acks_of s (Ack.blk_hash ack))))
    as [Hle|Hlt]; [apply (keeps_at_of_keeps votes_on_ack_quorum); keep votes_atom|].
  case_bool_decide as Hin; [apply (keeps_at_of_keeps votes_on_ack_quorum); keep votes_atom|].
  set (s1 := with_propagate_acks
               (<[Ack.blk_hash ack := acks_of s (Ack.blk_hash ack) ∪ {[ Ack.rid ack ]}]>
                  (propagate_acks s)) s).
  assert (A1 : forall h, acks_of s h ⊆ acks_of s1 h).
  { intros h. unfold acks_of, s1. fields. destruct (decide (h = Ack.blk_hash ack)) as [->|Hne].
    - rewrite lookup_insert_eq. cbn. apply union_subseteq_l.
    - by rewrite lookup_insert_ne. }
  assert (Hsz : set_size (acks_of s1 (Ack.blk_hash ack)) =
                set_size (acks_of s (Ack.blk_hash ack)) + 1).
  { unfold acks_of at 1, s1. fields. rewrite lookup_insert_eq. cbn. unfold set_size.
    rewrite size_union by set_solver. rewrite size_singleton. lia. }
  intros s'. unfold mbind at 1, M_bind at 1, modify at 1. fold s1.
  unfold mbind at 1, M_bind at 1, get at 1. fold s1.
  destruct (N.eqb_spec (set_size (acks_of s (Ack.blk_hash ack)) + 1)
              (ReplicaConfig.nmajority (config s1))) as [Heq|Hne]; cbn [andb].
  - destruct (negb (is_ack_timeout s1 (Ack.blk_hash ack)));
      [|intros [= <-]; split; [done|exact A1|by left]].
    destruct (Ack.opcode ack =? PropagateType.BLOCK);
      [|intros [= <-]; split; [done|exact A1|by left]].
    intros Hs'.
    assert (G : grows s1 s').
    { revert Hs'. apply (keeps_at_of_keeps grows). keep grows_atom. }
    assert (C : same_config s1 s').
    { revert Hs'. apply (keeps_at_of_keeps same_config). keep same_config_atom. }
    destruct C as [C _]. split.
    + by rewrite C.
    + intros h. etrans; [apply A1|apply (g_acks _ _ G)].
    + right. exists (Ack.blk_hash ack). split; [done|].
      pose proof (set_size_mono _ _ (g_acks _ _ G (Ack.blk_hash ack))) as Hm.
      change (config s1) with (config s) in Heq. lia.
  - intros [= <-]. split; [done|exact A1|by left].
Qed.
#[export] Hint Resolve keeps_votes_on_receive_ack_ : keeps.

Lemma keeps_votes_on_receive_blamenotify fuel bn :
  keeps votes_on_ack_quorum (on_receive_blamenotify fuel bn).
Proof.
  revert bn. induction fuel as [|fuel IH]; intros bn; cbn [on_receive_blamenotify];
    keep votes_atom.
Qed.
#[export] Hint Resolve keeps_votes_on_receive_blamenotify : keeps.
Lemma keeps_votes_on_receive_proposal fuel prop :
  keeps votes_on_ack_quorum (on_receive_proposal fuel prop).
Proof.
  revert prop. induction fuel as [|fuel IH]; intros prop; cbn [on_receive_proposal];
    keep votes_atom.
Qed.
#[export] Hint Resolve keeps_votes_on_receive_proposal : keeps.
Lemma keeps_votes_prune_loop fuel st : keeps votes_on_ack_quorum (prune_loop fuel st).
Proof.
  revert st. induction fuel as [|fuel IH]; intros st; cbn [prune_loop]; keep votes_atom.
Qed.
#[export] Hint Resolve keeps_votes_prune_loop : keeps.

Ltac plain_no_vote_atom :=
  intros; unfold no_vote; fields; first [done | apply filter_snoc_false; reflexivity].

Lemma votes_step fuel i s s' :
  state_of (step fuel i s) = Some s' -> no_vote s s' \/ ack_quorum_formed s s'.
Proof.
  destruct (configures i) eqn:Hc.
  - intros Hs. left. revert s s' Hs. change (keeps no_vote (step fuel i)).
    destruct i; try done; cbn [step]; keep plain_no_vote_atom.
  - intros Hs. apply (vq_votes s s'). revert s s' Hs.
    change (keeps votes_on_ack_quorum (step fuel i)).
    destruct i; try done; cbn [step]; keep votes_atom.
Qed.

(** X14.  The replica votes only when an Ack quorum completes: whatever call
    the core handles, and whether it returns or throws, if a
    [do_broadcast_vote] is output during the call then the Acks recorded for
    some hash went from fewer than [nmajority] before the call to at least
    [nmajority] after it. *)
Theorem vote_needs_ack_quorum (fuel : nat) (i : Input) (s s' : HotStuffCore) :
  state_of (step fuel i s) = Some s' ->
  List.filter is_vote (out s') <> List.filter is_vote (out s) ->
  exists h, set_size (acks_of s h) < ReplicaConfig.nmajority (config s) /\
            ReplicaConfig.nmajority (config s) <= set_size (acks_of s' h).
Proof.
  intros Hs Hv. destruct (votes_step fuel i s s' Hs) as [N|Q]; [done|exact Q].
Qed.

(** * Proposing *)

#[export] Instance same_vheight_preorder : PreOrder same_vheight.
Proof. split; [by intros s|]. intros s1 s2 s3. unfold same_vheight. congruence. Qed.

Ltac same_vheight_atom := intros; unfold same_vheight; fields; done.

Lemma keeps_same_vheight_add_blk b : keeps same_vheight (add_blk b).
Proof.
  intros s s'. unfold add_blk, mbind, M_bind, get, modify.
  destruct (storage s !! hash b); cbn; by intros [= <-].
Qed.
#[export] Hint Resolve keeps_same_vheight_add_blk : keeps.

Lemma keeps_same_vheight_on_deliver_blk blk : keeps same_vheight (on_deliver_blk blk).
Proof. unfold on_deliver_blk. keep same_vheight_atom. Qed.

Lemma wlp_bind_ret {A B} (m : M A) (k : A -> M B) (Q : B -> HotStuffCore -> Prop) s :
  (forall a s1, m s = Ret a s1 -> wlp (k a) Q (fun _ _ => True) s1) ->
  wlp (m ≫= k) Q (fun _ _ => True) s.
Proof.
  intros H. unfold wlp, mbind, M_bind. destruct (m s) as [a s1| | |] eqn:E; try done.
  apply (H a s1 eq_refl).
Qed.

Lemma wlp_bind_reads {A B} (m : M A) (k : A -> M B) (Q : B -> HotStuffCore -> Prop) s :
  reads m -> (forall a, wlp (k a) Q (fun _ _ => True) s) ->
  wlp (m ≫= k) Q (fun _ _ => True) s.
Proof.
  intros Hm H. apply wlp_bind_ret. intros a s1 E.
  assert (s1 = s) as -> by (apply (Hm s s1); by rewrite E). apply H.
Qed.

Lemma wlp_bind_keeps {A B} R (m : M A) (k : A -> M B) (Q : B -> HotStuffCore -> Prop) s :
  keeps R m -> (forall a s1, R s s1 -> wlp (k a) Q (fun _ _ => True) s1) ->
  wlp (m ≫= k) Q (fun _ _ => True) s.
Proof.
  intros Hm H. apply wlp_bind_ret. intros a s1 E. apply H, (Hm s s1). by rewrite E.
Qed.

Lemma on_propose_above_vheight fuel cmds parents extra s :
  wlp (on_propose fuel cmds parents extra)
    (fun r s' =>
       match r with
       | None => view_trans s = true /\ s' = s
       | Some bnew =>
           view_trans s = false /\ parents <> [] /\
           exists b, heap s' !! bnew = Some b /\ delivered b = true /\
                     vheight s < height b /\ is_finished s' bnew = true
       end)
    (fun _ _ => True) s.
Proof.
  unfold on_propose. apply wlp_bind_ret. intros ? ? [= <- <-].
  destruct (view_trans s) eqn:Hvt; [done|].
  destruct parents as [|p0 parents]; [done|].
  apply (wlp_bind_keeps same_vheight).
  { apply (keeps_forM_ same_vheight). intros p. unfold tails_erase. keep same_vheight_atom. }
  intros [] s1 V1.
  apply wlp_bind_reads; [apply reads_deref|]. intros pb.
  apply wlp_bind_ret. intros ? ? [= <- <-]. cbv zeta.
  apply wlp_bind_reads; [apply reads_nonzero|]. intros _.
  apply wlp_bind_reads; [destruct (_ && _); repeat reads_step|]. intros qc.
  apply wlp_bind_reads; [apply reads_get_hashes|]. intros hashes.
  apply wlp_bind_reads; [repeat first [reads_step | match goal with |- reads (match ?x with _ => _ end) => destruct x end]|]. intros qrh.
  apply (wlp_bind_keeps same_vheight); [apply keeps_same_vheight_add_blk|].
  intros bnew s2 V2.
  apply (wlp_bind_keeps same_vheight); [destruct (_ =? _); keep same_vheight_atom|].
  intros _ s3 V3.
  apply wlp_bind_reads; [apply reads_deref|]. intros b3.
  apply (wlp_bind_keeps same_vheight); [keep same_vheight_atom|].
  intros _ s4 V4.
  apply wlp_bind_ret. intros r5 s5 E5.
  assert (V5 : same_vheight s4 s5).
  { apply (keeps_same_vheight_on_deliver_blk bnew s4 s5). by rewrite E5. }
  destruct (on_deliver_blk_delivered bnew s4 r5 s5 E5) as (b & Hb & Hd).
  apply wlp_bind_ret. intros b' ? [Hb' ->]%deref_Ret.
  assert (b' = b) as -> by congruence.
  apply wlp_bind_ret. intros ? ? [= <- <-].
  assert (Hv : vheight s5 = vheight s).
  { unfold same_vheight in *. congruence. }
  rewrite Hv. destruct (N.leb_spec (height b) (vheight s)) as [Hle|Hlt]; [done|].
  apply wlp_bind_ret. intros [] ? [= <-].
  apply wlp_bind_ret. intros [] ? [= <-].
  set (s6 := with_finished_propose _ _).
  assert (Hb6 : heap s6 !! bnew = Some b) by (subst s6; by fields).
  assert (Hf6 : is_finished s6 bnew = true).
  { subst s6. unfold is_finished. fields. by rewrite lookup_insert_eq. }
  apply (wlp_bind_keeps grows); [keep grows_atom|]. intros _ s7 G7.
  apply (wlp_bind_keeps grows); [keep grows_atom|]. intros _ s8 G8.
  apply (wlp_bind_keeps grows); [keep grows_atom|]. intros _ s9 G9.
  unfold wlp. cbn.
  assert (G : grows s6 s9) by (by etrans; [|etrans]).
  destruct (g_heap _ _ G bnew b Hb6) as (b9 & Hb9 & Gb).
  destruct (bg_delivered _ _ Gb Hd) as [Hd9 Hh9].
  split; [done|]. split; [done|]. exists b9. split; [done|]. split; [done|].
  split; [by rewrite Hh9|]. by apply (g_finished _ _ G).
Qed.

(** X15.  [on_propose] returns [nullptr], with the state unchanged, exactly
    during a view transition, and throws "empty parents", with the state
    unchanged, when called outside one without a parent.  A block it
    returns is delivered, marked as proposed and strictly higher than the
    [vheight] the replica had when it was called. *)
Theorem on_propose_guards (fuel : nat) (cmds : list uint256_t) (parents : list addr)
    (extra : list N) (s : HotStuffCore) :
  (view_trans s = true -> on_propose fuel cmds parents extra s = Ret None s) /\
  (view_trans s = false ->
   on_propose fuel cmds [] extra s = Raise "empty parents" s) /\
  (forall r s', on_propose fuel cmds parents extra s = Ret r s' ->
     match r with
     | None => view_trans s = true /\ s' = s
     | Some bnew =>
         view_trans s = false /\ parents <> [] /\
         exists b, heap s' !! bnew = Some b /\ delivered b = true /\
                   vheight s < height b /\ is_finished s' bnew = true
     end).
Proof.
  split; [|split].
  - intros Hvt. unfold on_propose. run_m. by rewrite Hvt.
  - intros Hvt. unfold on_propose. run_m. by rewrite Hvt.
  - intros r s' E. pose proof (on_propose_above_vheight fuel cmds parents extra s) as W.
    unfold wlp in W. by rewrite E in W.
Qed.

(** * Echos outside the quorum *)

(** X16.  An Echo of a sender not yet recorded that does not complete the
    quorum before the propagation timeout is recorded and has no other
    effect while the count stays below [nmajority], when it brings the
    count to [nmajority] after the propagation timeout, and when it comes
    after the quorum and after the Ack timeout.  An Echo that comes after
    the quorum and before the Ack timeout is answered: for a delivered
    block of a commit height an Ack is sent to the sender (another
    replica); for a block of another height nothing is output; and if the
    block is not delivered the handler throws, the sender staying
    recorded. *)
Theorem on_receive_echo_outside_quorum (fuel : nat) (echo : Echo.t) (s : HotStuffCore) :
  let h := Echo.blk_hash echo in
  let n := set_size (echos_of s h) + 1 in
  let nmajority := ReplicaConfig.nmajority (config s) in
  is_Some (Echo.cert echo) -> Echo.rid echo ∉ echos_of s h ->
  (n < nmajority \/ (n = nmajority /\ is_propagate_timeout s h = true) \/
   (nmajority < n /\ is_ack_timeout s h = true) ->
   on_receive_echo fuel echo s = Ret tt (echo_counted echo s)) /\
  (nmajority < n -> is_ack_timeout s h = false ->
   (delivered_of s h = None -> storage_valid s ->
    on_receive_echo fuel echo s = Raise "block not delivered" (echo_counted echo s)) /\
   (forall blk b,
      delivered_of s h = Some blk -> heap s !! blk = Some b -> commit_interval s <> 0 ->
      (height b mod commit_interval s <> 0 ->
       on_receive_echo fuel echo s = Ret tt (echo_counted echo s)) /\
      (height b mod commit_interval s = 0 -> Echo.rid echo <> hsc_id s ->
       on_receive_echo fuel echo s =
         Ret tt (with_out (out s ++ [do_send_ack (own_ack s h) (Echo.rid echo)])
                   (echo_counted echo s))))).
Proof.
  intros h n nmajority Hc Hnew. subst h n nmajority.
  apply (bool_decide_eq_true_2 _) in Hc. apply (bool_decide_eq_false_2 _) in Hnew.
  split; [|intros Hlt Hto; split].
  - intros H.
    assert (W : wp (on_receive_echo fuel echo) (fun _ s' => s' = echo_counted echo s) s).
    { unfold on_receive_echo, on_receive_echo_. wp_steps. rewrite Hnew. wp_steps.
      destruct H as [H|[[H Ht]|[H Ht]]].
      - assert (E1 : (set_size (echos_of s (Echo.blk_hash echo)) + 1 =?
                      ReplicaConfig.nmajority (config s)) = false) by (apply N.eqb_neq; lia).
        assert (E2 : (ReplicaConfig.nmajority (config s) <?
                      set_size (echos_of s (Echo.blk_hash echo)) + 1) = false)
          by (apply N.ltb_ge; lia).
        rewrite E1. cbn [andb]. wp_steps. rewrite E2. cbn [andb]. by wp_steps.
      - assert (E2 : (ReplicaConfig.nmajority (config s) <?
                      set_size (echos_of s (Echo.blk_hash echo)) + 1) = false)
          by (apply N.ltb_ge; lia).
        unfold is_propagate_timeout in *. fields. rewrite Ht, andb_false_r. wp_steps.
        rewrite E2. cbn [andb]. by wp_steps.
      - assert (E1 : (set_size (echos_of s (Echo.blk_hash echo)) + 1 =?
                      ReplicaConfig.nmajority (config s)) = false) by (apply N.eqb_neq; lia).
        rewrite E1. cbn [andb]. wp_steps.
        unfold is_ack_timeout in *. fields. rewrite Ht, andb_false_r. by wp_steps. }
    apply wp_elim_unit in W as (s' & E & ->). exact E.
  - intros Hd Hv.
    assert (W : wpx (on_receive_echo fuel echo) (fun _ _ => False)
                  (fun e s' => e = "block not delivered" /\ s' = echo_counted echo s) s).
    { unfold on_receive_echo, on_receive_echo_. wp_steps. rewrite Hnew. wp_steps.
      assert (E1 : (set_size (echos_of s (Echo.blk_hash echo)) + 1 =?
                    ReplicaConfig.nmajority (config s)) = false) by (apply N.eqb_neq; lia).
      assert (E2 : (ReplicaConfig.nmajority (config s) <?
                    set_size (echos_of s (Echo.blk_hash echo)) + 1) = true)
        by (apply N.ltb_lt; lia).
      rewrite E1. cbn [andb]. wp_steps. rewrite E2.
      unfold is_ack_timeout in *. fields. rewrite Hto. cbn [andb negb].
      apply wp_bind. apply wp_get_delivered_blk_throw; [exact Hv|exact Hd|done]. }
    apply wpx_elim_raise in W as (e & s' & E & -> & ->). exact E.
  - intros blk b Hd Hb Hci.
    assert (E1 : (set_size (echos_of s (Echo.blk_hash echo)) + 1 =?
                  ReplicaConfig.nmajority (config s)) = false) by (apply N.eqb_neq; lia).
    assert (E2 : (ReplicaConfig.nmajority (config s) <?
                  set_size (echos_of s (Echo.blk_hash echo)) + 1) = true)
      by (apply N.ltb_lt; lia).
    split.
    + intros Hh.
      assert (W : wp (on_receive_echo fuel echo) (fun _ s' => s' = echo_counted echo s) s).
      { unfold on_receive_echo, on_receive_echo_. wp_steps. rewrite Hnew. wp_steps.
        rewrite E1. cbn [andb]. wp_steps. rewrite E2.
        unfold is_ack_timeout in *. fields. rewrite Hto. cbn [andb negb].
        apply wp_bind, (wp_get_delivered_blk _ _ blk); [exact Hd|].
        wp_steps.
        apply N.eqb_neq in Hh. unfold get_height. rewrite Hh. cbn [negb]. by wp_steps. }
      apply wp_elim_unit in W as (s' & E & ->). exact E.
    + intros Hh Hrid.
      assert (W : wp (on_receive_echo fuel echo) (fun _ s' => s' =
                    with_out (out s ++ [do_send_ack (own_ack s (Echo.blk_hash echo)) (Echo.rid echo)])
                      (echo_counted echo s)) s).
      { unfold on_receive_echo, on_receive_echo_. wp_steps. rewrite Hnew. wp_steps.
        rewrite E1. cbn [andb]. wp_steps. rewrite E2.
        unfold is_ack_timeout in *. fields. rewrite Hto. cbn [andb negb].
        apply wp_bind, (wp_get_delivered_blk _ _ blk); [exact Hd|].
        wp_steps.
        apply N.eqb_eq in Hh. unfold get_height. rewrite Hh. cbn [negb].
        apply N.eqb_neq in Hrid. rewrite Hrid. by wp_steps. }
      apply wp_elim_unit in W as (s' & E & ->). exact E.
Qed.

(** * The blame timer *)

(** X17.  [on_blame_timeout] stops the blame timer, hands the replica's own
    Blame for the current view to [on_receive_blame], and then broadcasts
    it.  The Blame is broadcast also when it is not counted (during a view
    transition, once [nmajority] blamers are recorded, and when the replica
    is already a recorded blamer): the state is then unchanged but for the
    two outputs.  When it is counted and leaves the count below
    [nmajority], the replica is added to [blamed] and its part to
    [blame_qc], with the same two outputs. *)
Theorem on_blame_timeout_spec (fuel : nat) (s : HotStuffCore) (q : QuorumCert.t) :
  let evs := [stop_blame_timer; do_broadcast_blame (own_blame s)] in
  let c := PartCert.mk (priv_key s) (Blame.proof_obj_hash (hashing s) (view s)) in
  (view_trans s = true \/ ReplicaConfig.nmajority (config s) <= set_size (blamed s) \/
   hsc_id s ∈ blamed s ->
   on_blame_timeout fuel s = Ret tt (with_out (out s ++ evs) s)) /\
  (view_trans s = false -> set_size (blamed s) + 1 < ReplicaConfig.nmajority (config s) ->
   hsc_id s ∉ blamed s -> blame_qc s = Some q ->
   on_blame_timeout fuel s =
     Ret tt (with_out (out s ++ evs) (blame_counted (hsc_id s) c q s))).
Proof.
  intros evs c. subst evs c.
  set (s0 := with_out (out s ++ [stop_blame_timer]) s).
  set (c := PartCert.mk (priv_key s) (Blame.proof_obj_hash (hashing s) (view s))).
  split.
  - intros H. pose proof (on_receive_blame_ignored fuel (own_blame s) s0 H) as Hign.
    unfold on_blame_timeout, _blame. unfold mbind at 1, M_bind at 1, emit at 1, modify at 1.
    fold s0. unfold mbind at 1, M_bind at 1, get at 1.
    change (Blame.mk (hsc_id s0) (view s0) _) with (own_blame s).
    unfold mbind at 1, M_bind at 1. rewrite Hign.
    unfold emit, modify. f_equal. subst s0. state_eq. by rewrite <- app_assoc.
  - intros Hvt Hlt Hnew Hq.
    pose proof (on_receive_blame_counted fuel (own_blame s) s0 q c Hvt Hnew Hlt Hq eq_refl) as Hc.
    unfold on_blame_timeout, _blame. unfold mbind at 1, M_bind at 1, emit at 1, modify at 1.
    fold s0. unfold mbind at 1, M_bind at 1, get at 1.
    change (Blame.mk (hsc_id s0) (view s0) _) with (own_blame s).
    unfold mbind at 1, M_bind at 1. rewrite Hc.
    unfold emit, modify. f_equal. subst s0. unfold blame_counted. state_eq.
    by rewrite <- app_assoc.
Qed.

(** * The highest certificate is never unset *)

#[export] Instance keeps_hqc_set_preorder : PreOrder keeps_hqc_set.
Proof. split; [intros s H; exact H|]. intros s1 s2 s3 H1 H2 H. by apply H2, H1. Qed.

Lemma hqc_set_update a f b s :
  heap s !! a = Some b -> keeps_hqc_set s (with_heap (<[a := f b]> (heap s)) s).
Proof.
  intros Hb (first & second & hb & Hq & Hh).
  destruct (decide (first = a)) as [->|Hne].
  - exists a, second, (f b). fields. by rewrite lookup_insert_eq.
  - exists first, second, hb. fields. by rewrite lookup_insert_ne.
Qed.

Ltac hqc_atom :=
  intros;
  first [ eapply hqc_set_update; eassumption
        | intros (? & ? & ? & ? & ?); eexists _, _, _; fields; split; eassumption ].

Lemma keeps_hqc_set_add_blk b : keeps keeps_hqc_set (add_blk b).
Proof.
  intros s s'. unfold add_blk, mbind, M_bind, get, modify.
  destruct (storage s !! hash b); cbn; intros [= <-]; [done|].
  intros (first & second & hb & Hq & Hh). exists first, second, hb. fields. split; [done|].
  rewrite lookup_insert_ne; [done|]. intros <-.
  pose proof (is_fresh (dom (heap s))) as Hf. unfold new_addr in Hh.
  apply Hf. apply elem_of_dom. by exists hb.
Qed.
#[export] Hint Resolve keeps_hqc_set_add_blk : keeps.

Lemma keeps_hqc_set_update_hqc blk qc : keeps keeps_hqc_set (update_hqc blk qc).
Proof.
  intros s. unfold update_hqc. apply (keeps_at_deref keeps_hqc_set). intros b Hb.
  apply (keeps_at_reads keeps_hqc_set); [apply reads_deref_opt|]. intros q.
  apply keeps_at_get.
  apply (keeps_at_reads keeps_hqc_set); [apply reads_assert|]. intros _.
  apply (keeps_at_reads keeps_hqc_set); [apply reads_deref_opt|]. intros first.
  apply (keeps_at_reads keeps_hqc_set); [apply reads_deref|]. intros hb.
  destruct (_ <? _); [|apply (keeps_at_of_keeps keeps_hqc_set); keep hqc_atom].
  apply (keeps_at_bind keeps_hqc_set).
  - apply keeps_at_modify. intros _. exists blk, (QuorumCert.clone q), b. by fields.
  - intros _. unfold on_hqc_update. keep hqc_atom.
Qed.
#[export] Hint Resolve keeps_hqc_set_update_hqc : keeps.

Lemma on_init_sets_hqc nfaulty delta s g :
  heap s !! b0 s = Some g ->
  exists s', on_init nfaulty delta s = Ret tt s' /\ hqc_set s' /\
    hqc s' = (Some (b0 s), Some (QuorumCert.mk (Vote.proof_obj_hash (hashing s) (hash g)) [] true)).
Proof.
  intros Hg. apply wp_elim_unit. unfold on_init. wp_steps.
  split; [|done]. eexists _, _, _. fields. split; [done|]. apply lookup_insert_eq.
Qed.

Lemma keeps_hqc_set_on_init nfaulty delta : keeps keeps_hqc_set (on_init nfaulty delta).
Proof.
  intros s s' Hs _. destruct (heap s !! b0 s) as [g|] eqn:Hg.
  - destruct (on_init_sets_hqc nfaulty delta s g Hg) as (s1 & E & H & _).
    rewrite E in Hs. by injection Hs as <-.
  - revert Hs. unfold on_init. run_m. fields. by rewrite Hg.
Qed.
#[export] Hint Resolve keeps_hqc_set_on_init : keeps.

Lemma keeps_hqc_set_on_receive_blamenotify fuel bn :
  keeps keeps_hqc_set (on_receive_blamenotify fuel bn).
Proof.
  revert bn. induction fuel as [|fuel IH]; intros bn; cbn [on_receive_blamenotify];
    keep hqc_atom.
Qed.
#[export] Hint Resolve keeps_hqc_set_on_receive_blamenotify : keeps.
Lemma keeps_hqc_set_on_receive_proposal fuel prop :
  keeps keeps_hqc_set (on_receive_proposal fuel prop).
Proof.
  revert prop. induction fuel as [|fuel IH]; intros prop; cbn [on_receive_proposal];
    keep hqc_atom.
Qed.
#[export] Hint Resolve keeps_hqc_set_on_receive_proposal : keeps.
Lemma keeps_hqc_set_prune_loop fuel st : keeps keeps_hqc_set (prune_loop fuel st).
Proof.
  revert st. induction fuel as [|fuel IH]; intros st; cbn [prune_loop]; keep hqc_atom.
Qed.
#[export] Hint Resolve keeps_hqc_set_prune_loop : keeps.
Lemma keeps_hqc_set_step fuel i : keeps keeps_hqc_set (step fuel i).
Proof. destruct i; cbn [step]; keep hqc_atom. Qed.

(** X18.  [on_init] sets [hqc] to the genesis block with a computed
    certificate for its hash, and [hqc] is never unset afterwards: whatever
    calls the core handles, and whether they return or throw, [hqc.first]
    names a block object and [hqc.second] a certificate. *)
Theorem hqc_never_unset (nfaulty : N) (delta : QArith_base.Q) (s : HotStuffCore) (g : Block) :
  heap s !! b0 s = Some g ->
  exists s1,
    on_init nfaulty delta s = Ret tt s1 /\
    hqc s1 = (Some (b0 s), Some (QuorumCert.mk (Vote.proof_obj_hash (hashing s) (hash g)) [] true)) /\
    forall s', reaches s1 s' ->
      exists first second hb, hqc s' = (Some first, Some second) /\ heap s' !! first = Some hb.
Proof.
  intros Hg. destruct (on_init_sets_hqc nfaulty delta s g Hg) as (s1 & E & H & Hq).
  exists s1. split; [exact E|]. split; [exact Hq|].
  intros s' Hr. revert H. apply (keeps_reaches keeps_hqc_set); [|exact Hr].
  apply keeps_hqc_set_step.
Qed.

(** * The chain of delivered blocks *)

#[export] Instance keeps_chained_preorder : PreOrder keeps_chained.
Proof. split; [intros s H; exact H|]. intros s1 s2 s3 H1 H2 H. by apply H2, H1. Qed.

Lemma link_ok_spec s b :
  link_ok s b = true <->
  (delivered b = true -> forall p, head (parents b) = Some p ->
   exists pb, heap s !! p = Some pb /\ delivered pb = true /\
              height b = (height pb + 1) mod uint32_max).
Proof.
  unfold link_ok. destruct (delivered b); [|by split].
  destruct (head (parents b)) as [p|]; [|by split].
  destruct (heap s !! p) as [pb|] eqn:Hp.
  - rewrite andb_true_iff, N.eqb_eq. split.
    + intros [Hd Hh] _ ? [= <-]. by exists pb.
    + intros H. destruct (H eq_refl p eq_refl) as (pb' & Hpb' & Hd & Hh).
      assert (pb' = pb) as -> by congruence. done.
  - split; [done|]. intros H. destruct (H eq_refl p eq_refl) as (pb' & Hpb' & _). congruence.
Qed.

(** A write that changes neither [delivered] nor [height] and keeps or
    drops the first parent. *)
Lemma chained_update a b b' s :
  heap s !! a = Some b -> delivered b' = delivered b -> height b' = height b ->
  (forall p, head (parents b') = Some p -> head (parents b) = Some p) ->
  keeps_chained s (with_heap (<[a := b']> (heap s)) s).
Proof.
  intros Hb Hd Hh Hp Hc x bx Hx. fields_in_all. apply link_ok_spec. intros Hdx p Hpx. fields.
  assert (Hold : exists bo, heap s !! x = Some bo /\ delivered bo = true /\
                   head (parents bo) = Some p /\ height bx = height bo).
  { destruct (decide (x = a)) as [->|Hne].
    - rewrite lookup_insert_eq in Hx. injection Hx as <-. exists b.
      split; [done|]. split; [congruence|]. split; [by apply Hp|done].
    - rewrite lookup_insert_ne in Hx by done. by exists bx. }
  destruct Hold as (bo & Hbo & Hdo & Hpo & Hho).
  destruct (proj1 (link_ok_spec s bo) (Hc x bo Hbo) Hdo p Hpo) as (pb & Hpb & Hdp & Hhp).
  destruct (decide (p = a)) as [->|Hne].
  - rewrite lookup_insert_eq. exists b'. simplify_eq. split; [done|]. split; congruence.
  - rewrite lookup_insert_ne by done. exists pb. split; [done|]. split; congruence.
Qed.

(** A write to an undelivered block that leaves it undelivered. *)
Lemma chained_update_undelivered a b b' s :
  heap s !! a = Some b -> delivered b = false -> delivered b' = false ->
  keeps_chained s (with_heap (<[a := b']> (heap s)) s).
Proof.
  intros Hb Hd Hd' Hc x bx Hx. fields_in_all. apply link_ok_spec. intros Hdx p Hpx. fields.
  destruct (decide (x = a)) as [->|Hne].
  { rewrite lookup_insert_eq in Hx. injection Hx as <-. congruence. }
  rewrite lookup_insert_ne in Hx by done.
  destruct (proj1 (link_ok_spec s bx) (Hc x bx Hx) Hdx p Hpx) as (pb & Hpb & Hdp & Hhp).
  assert (p <> a) by (intros ->; congruence).
  rewrite lookup_insert_ne by done. by exists pb.
Qed.

(** The write that delivers a block linked to its first parent. *)
Lemma chained_deliver a b s :
  heap s !! a = Some b -> delivered b = false -> link_ok s (with_delivered true b) = true ->
  keeps_chained s (with_heap (<[a := with_delivered true b]> (heap s)) s).
Proof.
  intros Hb Hd Hl Hc x bx Hx. fields_in_all. apply link_ok_spec. intros Hdx p Hpx. fields.
  assert (Hp : exists pb, heap s !! p = Some pb /\ delivered pb = true /\
                 height bx = (height pb + 1) mod uint32_max).
  { destruct (decide (x = a)) as [->|Hne].
    - rewrite lookup_insert_eq in Hx. injection Hx as <-.
      by apply (proj1 (link_ok_spec s _) Hl).
    - rewrite lookup_insert_ne in Hx by done.
      by apply (proj1 (link_ok_spec s bx) (Hc x bx Hx)). }
  destruct Hp as (pb & Hpb & Hdp & Hhp).
  assert (p <> a) by (intros ->; congruence).
  rewrite lookup_insert_ne by done. by exists pb.
Qed.

(** A block object that is added is not delivered. *)
Lemma keeps_chained_add_blk b : delivered b = false -> keeps keeps_chained (add_blk b).
Proof.
  intros Hd s s'.
  assert (Hn : heap s !! new_addr s = None).
  { apply not_elem_of_dom. unfold new_addr. apply is_fresh. }
  unfold add_blk, mbind, M_bind, get, modify.
  destruct (storage s !! hash b); cbn; intros [= <-]; [done|].
  intros Hc x bx Hx. fields_in_all. apply link_ok_spec. intros Hdx p Hpx. fields.
  destruct (decide (x = new_addr s)) as [->|Hne].
  { rewrite lookup_insert_eq in Hx. injection Hx as <-. congruence. }
  rewrite lookup_insert_ne in Hx by done.
  destruct (proj1 (link_ok_spec s bx) (Hc x bx Hx) Hdx p Hpx) as (pb & Hpb & Hdp & Hhp).
  assert (p <> new_addr s) by (intros ->; congruence).
  rewrite lookup_insert_ne by done. by exists pb.
Qed.

Lemma head_removelast {A} (l : list A) x : head (removelast l) = Some x -> head l = Some x.
Proof. destruct l as [|y [|z l]]; cbn; done. Qed.

Ltac chained_atom :=
  intros;
  first [ eapply chained_update;
            [eassumption|reflexivity|reflexivity
            |intros ?; fields; first [done | apply head_removelast]]
        | intros Hc; exact Hc ].

Lemma wlp_ret {A} (a : A) (Q : A -> HotStuffCore -> Prop) E s : Q a s -> wlp (mret a) Q E s.
Proof. done. Qed.
Lemma wlp_throw {A} e (Q : A -> HotStuffCore -> Prop) (E : string -> HotStuffCore -> Prop) s :
  E e s -> wlp (throw e) Q E s.
Proof. done. Qed.
Lemma wlp_deref a (Q : Block -> HotStuffCore -> Prop) E s :
  (forall b, heap s !! a = Some b -> Q b s) -> wlp (deref a) Q E s.
Proof.
  intros H. unfold wlp, deref, mbind, M_bind, get. destruct (heap s !! a) as [b|]; [|done].
  by apply H.
Qed.
Lemma wlp_deref_opt {A} (o : option A) (Q : A -> HotStuffCore -> Prop) E s :
  (forall x, o = Some x -> Q x s) -> wlp (deref_opt o) Q E s.
Proof. intros H. unfold wlp, deref_opt. destruct o as [x|]; [|done]. by apply H. Qed.
Lemma wlp_update a f (Q : unit -> HotStuffCore -> Prop) E s :
  (forall b, heap s !! a = Some b -> Q tt (with_heap (<[a := f b]> (heap s)) s)) ->
  wlp (update a f) Q E s.
Proof.
  intros H. unfold wlp, update, deref, mbind, M_bind, get, modify.
  destruct (heap s !! a) as [b|]; [|done]. by apply H.
Qed.
Lemma wlp_get_delivered_blk h (Q : addr -> HotStuffCore -> Prop)
    (E : string -> HotStuffCore -> Prop) s :
  (forall p pb, heap s !! p = Some pb -> delivered pb = true -> Q p s) ->
  (forall e, E e s) -> wlp (get_delivered_blk h) Q E s.
Proof.
  intros HQ HE. unfold wlp, get_delivered_blk, find_blk. run_m.
  destruct (storage s !! h) as [p|]; run_m; [|apply HE].
  destruct (heap s !! p) as [pb|] eqn:Hp; run_m; [|done].
  destruct (delivered pb) eqn:Hd; run_m; [by eapply HQ|apply HE].
Qed.
Lemma wlp_forM_ {A} (l : list A) (f : A -> M unit) (I : HotStuffCore -> Prop)
    (E : string -> HotStuffCore -> Prop) s :
  (forall x s, I s -> wlp (f x) (fun _ s' => I s') E s) -> I s ->
  wlp (forM_ l f) (fun _ s' => I s') E s.
Proof.
  intros Hf. revert s. induction l as [|x l IH]; intros s HI; cbn [forM_]; [done|].
  apply wlp_bind. specialize (Hf x s HI). unfold wlp in *.
  destruct (f x s) as [[] s1|e s1| |]; try done. by apply IH.
Qed.

Lemma wlp_modify f (Q : unit -> HotStuffCore -> Prop) E s : Q tt (f s) -> wlp (modify f) Q E s.
Proof. done. Qed.
Lemma wlp_mono {A} (m : M A) (Q Q' : A -> HotStuffCore -> Prop)
    (E E' : string -> HotStuffCore -> Prop) s :
  wlp m Q E s -> (forall a s', Q a s' -> Q' a s') -> (forall e s', E e s' -> E' e s') ->
  wlp m Q' E' s.
Proof. unfold wlp. destruct (m s); auto. Qed.

Lemma filling_heap blk linked s s' :
  heap s' = heap s -> filling blk linked s -> filling blk linked s'.
Proof.
  intros Hh (Hc & b & Hb & Hd & Hp & Hl). split.
  - unfold chained, link_ok in *. by rewrite Hh.
  - exists b. rewrite Hh. split; [done|]. split; [done|]. split; [done|].
    unfold link_ok in *. by rewrite Hh.
Qed.

Lemma filling_chained blk linked s : filling blk linked s -> chained s.
Proof. by intros [Hc _]. Qed.

Lemma delivered_not_filling blk linked s p pb :
  filling blk linked s -> heap s !! p = Some pb -> delivered pb = true -> p <> blk.
Proof. intros (_ & b & Hb & Hd & _) Hp Hdp ->. congruence. Qed.

Lemma filling_write blk linked s b b' :
  filling blk linked s -> heap s !! blk = Some b -> delivered b' = false ->
  Forall (fun p => exists pb, heap s !! p = Some pb /\ delivered pb = true) (parents b') ->
  (linked = true -> parents b' = parents b /\ height b' = height b) ->
  filling blk linked (with_heap (<[blk := b']> (heap s)) s).
Proof.
  intros F Hb Hd' Hp' Hl'. pose proof F as (Hc & bk & Hbk & Hd & Hp & Hl).
  assert (bk = b) as -> by congruence. split.
  - by apply (chained_update_undelivered blk b b' s).
  - exists b'. fields. rewrite lookup_insert_eq. split; [done|]. split; [done|]. split.
    + eapply Forall_impl; [exact Hp'|]. intros p (pb & Hpb & Hdp). cbn beta.
      assert (p <> blk) by (eapply delivered_not_filling; eassumption).
      rewrite lookup_insert_ne by done. by exists pb.
    + intros ->. destruct (Hl' eq_refl) as [Hpe Hhe]. specialize (Hl eq_refl).
      apply link_ok_spec. pose proof (proj1 (link_ok_spec s _) Hl) as Hl2. fields. fields_in_all.
      intros _ p Hhd. rewrite Hpe in Hhd. destruct (Hl2 eq_refl p Hhd) as (pb & Hpb & Hdp & Hh).
      assert (p <> blk) by (eapply delivered_not_filling; eassumption).
      rewrite lookup_insert_ne by done. exists pb. split; [done|]. split; [done|]. congruence.
Qed.

Lemma wlp_push_parent blk h s :
  filling blk false s ->
  wlp (push_parent blk h) (fun _ s' => filling blk false s') (fun _ s' => chained s') s.
Proof.
  intros F. unfold push_parent. apply wlp_bind, wlp_get_delivered_blk.
  - intros p pb Hp Hdp. apply wlp_update. intros b Hb. apply (filling_write blk false s b); try done.
    + fields. destruct F as (_ & bk & Hbk & Hd & _). congruence.
    + fields. apply Forall_app. split.
      * destruct F as (_ & bk & Hbk & _ & HF & _). assert (bk = b) as -> by congruence. done.
      * apply Forall_singleton. by exists pb.
  - intros e. by eapply filling_chained.
Qed.

Lemma wlp_on_deliver_blk blk s :
  chained s -> wlp (on_deliver_blk blk) (fun _ s' => chained s') (fun _ s' => chained s') s.
Proof.
  intros Hc. unfold on_deliver_blk.
  apply wlp_bind, wlp_deref. intros b Hb.
  destruct (delivered b) eqn:Hd; [done|].
  apply wlp_bind, wlp_update. intros b1 Hb1. assert (b1 = b) as -> by congruence.
  assert (F1 : filling blk false (with_heap (<[blk := with_parents [] b]> (heap s)) s)).
  { split; [by apply (chained_update_undelivered blk b _ s)|].
    eexists. fields. rewrite lookup_insert_eq. split; [done|]. split; [done|]. by split. }
  revert F1. generalize (with_heap (<[blk := with_parents [] b]> (heap s)) s). clear s Hc Hb Hb1.
  intros s F. apply wlp_bind.
  apply (wlp_mono _ (fun _ s' => filling blk false s') _ (fun _ s' => chained s') _ s);
    [apply wlp_forM_; [intros h s0; apply wlp_push_parent|exact F]| |done].
  clear s F. intros _ s F.
  apply wlp_bind, wlp_deref. intros b2 Hb2.
  apply wlp_bind, wlp_deref_opt. intros p0 Hp0.
  apply wlp_bind, wlp_deref. intros pb Hpb.
  apply wlp_bind, wlp_update. intros b2' Hb2'. assert (b2' = b2) as -> by congruence.
  assert (Hdp : delivered pb = true /\ p0 <> blk).
  { pose proof F as (_ & bk & Hbk & _ & HF & _). assert (bk = b2) as -> by congruence.
    destruct (parents b2) as [|p ps] eqn:Hps; [done|]. injection Hp0 as ->.
    apply Forall_cons in HF as [(pb' & Hpb' & Hdp) _].
    assert (pb' = pb) as -> by congruence. split; [done|].
    eapply delivered_not_filling; eassumption. }
  destruct Hdp as [Hdp Hne].
  assert (F3 : filling blk true
                 (with_heap (<[blk := with_height ((height pb + 1) mod uint32_max) b2]> (heap s)) s)).
  { pose proof F as (_ & bk & Hbk & Hd0 & HF & _). assert (bk = b2) as -> by congruence.
    destruct (filling_write blk false s b2 (with_height ((height pb + 1) mod uint32_max) b2))
      as (Hc' & b' & Hb' & Hd' & HF' & _); try done.
    split; [done|]. exists b'. split; [done|]. split; [done|]. split; [done|]. intros _.
    fields_in_all. rewrite lookup_insert_eq in Hb'. injection Hb' as <-.
    unfold link_ok. fields. rewrite Hp0. rewrite lookup_insert_ne by done.
    rewrite Hpb, Hdp. cbn [andb]. by apply N.eqb_eq. }
  revert F3.
  generalize (with_heap (<[blk := with_height ((height pb + 1) mod uint32_max) b2]> (heap s)) s).
  clear s F Hb2 Hb2' Hpb. intros s F.
  apply wlp_bind, wlp_deref. intros b3 Hb3.
  assert (Hd3 : delivered b3 = false).
  { destruct F as (_ & bk & Hbk & Hd0 & _). congruence. }
  apply wlp_bind.
  apply (wlp_mono _ (fun _ s' => filling blk true s') _ (fun _ s' => chained s') _ s); [| |done].
  { destruct (qc b3); [|exact F].
    apply wlp_bind, wlp_wpx, wp_find_blk. destruct (storage s !! qc_ref_hash b3) as [r|].
    - apply wlp_update. intros b4 Hb4. apply (filling_write blk true s b4); try done.
      + fields. destruct F as (_ & bk & Hbk & Hd0 & _). congruence.
      + fields. destruct F as (_ & bk & Hbk & _ & HF & _). assert (bk = b4) as -> by congruence. done.
    - by eapply filling_chained. }
  clear s F Hb3. intros _ s F.
  apply wlp_bind, wlp_deref. intros b5 Hb5.
  apply wlp_bind.
  apply (wlp_mono _ (fun _ s' => filling blk true s') _ (fun _ s' => chained s') _ s); [| |done].
  { apply wlp_forM_; [|exact F]. intros p s0 F0. unfold tails_erase.
    apply wlp_bind, wlp_deref. intros bp _. apply wlp_modify. by apply (filling_heap blk true s0). }
  clear s F Hb5. intros _ s F.
  apply wlp_bind. unfold tails_insert.
  apply wlp_bind, wlp_deref. intros bt _. apply wlp_modify.
  assert (F' : filling blk true (with_tails (set_insert_by_height (height bt) blk (tails s)) s))
    by (by apply (filling_heap blk true s)).
  revert F'. generalize (with_tails (set_insert_by_height (height bt) blk (tails s)) s).
  clear s F. intros s F.
  apply wlp_bind, wlp_update. intros b6 Hb6. apply wlp_ret.
  destruct F as (Hc & bk & Hbk & Hd0 & _ & Hl). assert (bk = b6) as -> by congruence.
  apply (chained_deliver blk b6 s); auto.
Qed.

Lemma keeps_chained_on_deliver_blk blk : keeps keeps_chained (on_deliver_blk blk).
Proof.
  intros s s' Hs Hc. pose proof (wlp_on_deliver_blk blk s Hc) as W. unfold wlp in W.
  destruct (on_deliver_blk blk s); try done; by injection Hs as <-.
Qed.
#[export] Hint Resolve keeps_chained_on_deliver_blk : keeps.

Lemma keeps_chained_add_blk_wire H d : keeps keeps_chained (add_blk (Block_of_wire H d)).
Proof. by apply keeps_chained_add_blk. Qed.
Lemma keeps_chained_add_blk_new H ps hs cmds qc extra h qr qrh sq :
  keeps keeps_chained (add_blk (Block_new H ps hs cmds qc extra h qr qrh sq)).
Proof. by apply keeps_chained_add_blk. Qed.
#[export] Hint Resolve keeps_chained_add_blk_wire keeps_chained_add_blk_new : keeps.

Lemma keeps_chained_on_receive_blamenotify fuel bn :
  keeps keeps_chained (on_receive_blamenotify fuel bn).
Proof.
  revert bn. induction fuel as [|fuel IH]; intros bn; cbn [on_receive_blamenotify];
    keep chained_atom.
Qed.
#[export] Hint Resolve keeps_chained_on_receive_blamenotify : keeps.
Lemma keeps_chained_on_receive_proposal fuel prop :
  keeps keeps_chained (on_receive_proposal fuel prop).
Proof.
  revert prop. induction fuel as [|fuel IH]; intros prop; cbn [on_receive_proposal];
    keep chained_atom.
Qed.
#[export] Hint Resolve keeps_chained_on_receive_proposal : keeps.
Lemma keeps_chained_prune_loop fuel st : keeps keeps_chained (prune_loop fuel st).
Proof.
  revert st. induction fuel as [|fuel IH]; intros st; cbn [prune_loop]; keep chained_atom.
Qed.
#[export] Hint Resolve keeps_chained_prune_loop : keeps.
Lemma keeps_chained_step fuel i : keeps keeps_chained (step fuel i).
Proof. destruct i; cbn [step]; keep chained_atom. Qed.

(** X19.  The delivered blocks form a chain: from a state in which every
    delivered block that has a first parent has a delivered block as first
    parent and is one higher than it (in [uint32_t] arithmetic), this holds
    again whatever calls the core handles, and whether they return or
    throw. *)
Theorem delivered_blocks_chained (s s' : HotStuffCore) :
  reaches s s' -> chained s ->
  forall a b p, heap s' !! a = Some b -> delivered b = true -> head (parents b) = Some p ->
    exists pb, heap s' !! p = Some pb /\ delivered pb = true /\
               height b = (height pb + 1) mod uint32_max.
Proof.
  intros Hr Hc a b p Hb Hd Hp.
  assert (Hc' : chained s').
  { revert Hc. apply (keeps_reaches keeps_chained); [|exact Hr]. apply keeps_chained_step. }
  by apply (proj1 (link_ok_spec s' b) (Hc' a b Hb)).
Qed.

(** * The further properties at concrete inputs *)

Lemma reaches_proposed1 : reaches initial (proposed1 1).
Proof. apply (run_reaches 20 [In_on_propose [1] [0] []]). vm_compute. reflexivity. Defined.

Lemma delivered_block_stable_witness :
  exists b b',
    heap initial !! 0 = Some b /\ heap (proposed1 1) !! 0 = Some b' /\
    delivered b' = true /\ height b' = height b /\ hash b' = hash b.
Proof.
  set (b := default (Block_genesis toy_hashing) (heap initial !! 0)).
  assert (Hb : heap initial !! 0 = Some b) by (vm_compute; reflexivity).
  destruct (delivered_block_stable initial (proposed1 1) 0 b reaches_proposed1 Hb)
    as (b' & Hb' & Hh & _ & _ & Hd).
  destruct Hd as [Hd Hht]; [vm_compute; reflexivity|].
  exists b, b'. exact (conj Hb (conj Hb' (conj Hd (conj Hht Hh)))).
Defined.

Lemma decision_final_witness :
  decided_in (state_after 20 [In_on_propose [6] [5] []] chain5) 5.
Proof.
  apply (decision_final chain5).
  - apply (run_reaches 20 [In_on_propose [6] [5] []]). vm_compute. reflexivity.
  - eexists. split; vm_compute; reflexivity.
Defined.

Lemma counted_senders_grow_witness :
  exists b b',
    heap (proposed1 1) !! 1 = Some b /\ heap pre_committed2 !! 1 = Some b' /\
    voted b ⊆ voted b' /\ preCommitted b ⊆ preCommitted b'.
Proof.
  set (b := default (Block_genesis toy_hashing) (heap (proposed1 1) !! 1)).
  assert (Hb : heap (proposed1 1) !! 1 = Some b) by (vm_compute; reflexivity).
  assert (Hr : reaches (proposed1 1) pre_committed2).
  { apply (run_reaches 20 [In_on_receive_pre_commit (pre_commit_of 1 111);
                            In_on_receive_pre_commit (pre_commit_of 2 111)]).
    vm_compute. reflexivity. }
  destruct (counted_senders_grow (proposed1 1) pre_committed2 Hr) as [H _].
  destruct (H 1 b Hb) as (b' & Hb' & Hv & Hp).
  exists b, b'. exact (conj Hb (conj Hb' (conj Hv Hp))).
Defined.

Lemma view_changes_only_on_timeout_witness :
  view (state_after 2 [In_on_receive_blamenotify stray_blamenotify] initial) = view initial.
Proof.
  apply (view_changes_only_on_timeout 2 (In_on_receive_blamenotify stray_blamenotify) initial).
  - vm_compute. reflexivity.
  - discriminate.
Defined.

Lemma store_released_only_by_prune_witness : storage (proposed1 1) !! 100 = Some 0.
Proof.
  apply (store_released_only_by_prune 20 (In_on_propose [1] [0] []) initial).
  - vm_compute. reflexivity.
  - discriminate.
  - vm_compute. reflexivity.
Defined.


Lemma vote_disabled_silences_witness :
  List.filter is_vote (out (state_after 20 [In_on_receive_ack (ack_of 2 111)] awaiting_ack_silent)) =
  List.filter is_vote (out awaiting_ack_silent).
Proof.
  apply (vote_disabled_silences 20 (In_on_receive_ack (ack_of 2 111)) awaiting_ack_silent).
  - vm_compute. reflexivity.
  - vm_compute. reflexivity.
  - discriminate.
Defined.

Lemma configuration_fixed_witness :
  config (proposed1 1) = config initial.
Proof.
  apply (configuration_fixed 20 (In_on_propose [1] [0] []) initial).
  - vm_compute. reflexivity.
  - reflexivity.
Defined.

Lemma on_receive_blame_spec_witness :
  on_receive_blame 1 (blame_of 1 0) initial =
    Ret tt (blame_counted 1 (PartCert.mk 1 (Blame.proof_obj_hash toy_hashing 0))
              (QuorumCert.mk (Blame.proof_obj_hash toy_hashing 0) [] false) initial) /\
  on_receive_blame 1 (blame_of 1 0) in_transition = Ret tt in_transition.
Proof.
  split.
  - destruct (on_receive_blame_spec 1 (blame_of 1 0) initial
                (QuorumCert.mk (Blame.proof_obj_hash toy_hashing 0) [] false)
                (PartCert.mk 1 (Blame.proof_obj_hash toy_hashing 0))) as [_ H].
    destruct H as [H _].
    + vm_compute. reflexivity.
    + vm_compute. reflexivity.
    + apply (bool_decide_unpack _). vm_compute. exact I.
    + vm_compute. reflexivity.
    + reflexivity.
    + apply H. vm_compute. discriminate.
  - destruct (on_receive_blame_spec 1 (blame_of 1 0) in_transition
                (QuorumCert.mk 0 [] false) (PartCert.mk 0 0)) as [H _].
    apply H. left. vm_compute. reflexivity.
Defined.

Lemma view_change_round_witness :
  exists s',
    run 1 [In_on_receive_blame (blame_of 3 0); In_on_viewtrans_timeout] blamed2 = Ret tt s' /\
    view s' = 1 /\ view_trans s' = false /\ proposals s' = ∅ /\ blamed s' = ∅.
Proof.
  edestruct (view_change_round 0 (blame_of 3 0) blamed2)
    as (s' & E & Hv & Hvt & Hp & Hb & _).
  - vm_compute. reflexivity.
  - apply (bool_decide_unpack _). vm_compute. exact I.
  - vm_compute. reflexivity.
  - vm_compute. reflexivity.
  - reflexivity.
  - vm_compute. reflexivity.
  - vm_compute. reflexivity.
  - exists s'. split; [exact E|]. split; [rewrite Hv; vm_compute; reflexivity|].
    exact (conj Hvt (conj Hp Hb)).
Defined.

Lemma on_receive_notify_spec_witness :
  exists s',
    on_receive_notify notify_b1 proposed2 = Ret tt s' /\
    hqc s' = (Some 1, Some (QuorumCert.mk (Vote.proof_obj_hash toy_hashing 111) [] true)) /\
    on_receive_notify (Notify.mk 999 None) proposed2 = Raise "block not delivered" proposed2.
Proof.
  destruct (on_receive_notify_spec notify_b1 proposed2) as [_ H].
  edestruct (H 1) as [_ H'].
  - vm_compute. reflexivity.
  - vm_compute. reflexivity.
  - reflexivity.
  - vm_compute. reflexivity.
  - vm_compute. reflexivity.
  - vm_compute. reflexivity.
  - destruct H' as (s' & E & Hq & _); [vm_compute; reflexivity|].
    exists s'. split; [exact E|]. split; [exact Hq|].
    destruct (on_receive_notify_spec (Notify.mk 999 None) proposed2) as [Hn _].
    apply Hn; [vm_compute; reflexivity|].
    apply storage_valid_decide. vm_compute. reflexivity.
Defined.

Lemma commit_path_chain5_back : commit_path (with_b_exec 2 chain5) 4 [4; 3] 2.
Proof.
  eapply commit_path_step; [vm_compute; reflexivity..|].
  eapply commit_path_step; [vm_compute; reflexivity..|].
  eapply commit_path_stop; vm_compute; first [reflexivity | by intros].
Defined.

Lemma check_commit_moves_b_exec_back_witness :
  b_exec chain5 = 5 /\
  check_commit 1 2 chain5 = Ret tt (with_b_exec 2 chain5) /\
  exists s',
    check_commit 3 4 (with_b_exec 2 chain5) = Ret tt s' /\ b_exec s' = 4 /\
    out s' = out chain5 ++
      [do_consensus 3; do_decide (Finality.mk 0 1%Z 0 3 3 133);
       do_consensus 4; do_decide (Finality.mk 0 1%Z 0 4 4 144)].
Proof.
  split; [vm_compute; reflexivity|].
  edestruct (check_commit_moves_b_exec_back 0 3 2 chain5) as [E H].
  - vm_compute. reflexivity.
  - vm_compute. discriminate.
  - vm_compute. reflexivity.
  - vm_compute. reflexivity.
  - vm_compute. discriminate.
  - split; [exact E|].
    edestruct (H 4) as (s' & E' & Hb & Ho & _).
    + vm_compute. reflexivity.
    + exact commit_path_chain5_back.
    + vm_compute. lia.
    + exists s'. split; [exact E'|]. split; [exact Hb|].
      rewrite Ho. vm_compute. reflexivity.
Defined.

Lemma replay_ignored_witness :
  step 20 (In_on_receive_vote (vote_of 1 111))
    (state_after 20 [In_on_receive_vote (vote_of 1 111)] (proposed1 2)) =
  Ret tt (state_after 20 [In_on_receive_vote (vote_of 1 111)] (proposed1 2)).
Proof.
  apply (replay_ignored 20 (In_on_receive_vote (vote_of 1 111)) (proposed1 2)).
  - reflexivity.
  - vm_compute. reflexivity.
Defined.

Lemma vote_needs_ack_quorum_witness :
  exists h,
    set_size (acks_of awaiting_ack h) < ReplicaConfig.nmajority (config awaiting_ack) /\
    ReplicaConfig.nmajority (config awaiting_ack) <=
      set_size (acks_of (state_after 20 [In_on_receive_ack (ack_of 2 111)] awaiting_ack) h).
Proof.
  apply (vote_needs_ack_quorum 20 (In_on_receive_ack (ack_of 2 111)) awaiting_ack).
  - vm_compute. reflexivity.
  - vm_compute. discriminate.
Defined.

Lemma on_propose_guards_witness :
  on_propose 20 [1] [0] [] in_transition = Ret None in_transition /\
  on_propose 20 [1] [] [] initial = Raise "empty parents" initial /\
  exists b, heap (proposed1 1) !! 1 = Some b /\ delivered b = true /\
            vheight initial < height b.
Proof.
  destruct (on_propose_guards 20 [1] [0] [] in_transition) as [H1 _].
  destruct (on_propose_guards 20 [1] [0] [] initial) as (_ & H2 & H3).
  split; [apply H1; vm_compute; reflexivity|].
  split; [apply H2; vm_compute; reflexivity|].
  destruct (H3 (Some 1) (proposed1 1)) as (_ & _ & b & Hb & Hd & Hv & _);
    [vm_compute; reflexivity|].
  exists b. exact (conj Hb (conj Hd Hv)).
Defined.

Lemma on_receive_echo_outside_quorum_witness :
  on_receive_echo 20 (echo_of 1 111) (proposed1 2) =
    Ret tt (echo_counted (echo_of 1 111) (proposed1 2)) /\
  on_receive_echo 20 (echo_of 3 111) awaiting_ack =
    Ret tt (with_out (out awaiting_ack ++ [do_send_ack (own_ack awaiting_ack 111) 3])
              (echo_counted (echo_of 3 111) awaiting_ack)).
Proof.
  split.
  - destruct (on_receive_echo_outside_quorum 20 (echo_of 1 111) (proposed1 2)) as [H _].
    + eexists. reflexivity.
    + apply (bool_decide_unpack _). vm_compute. exact I.
    + apply H. left. vm_compute. reflexivity.
  - destruct (on_receive_echo_outside_quorum 20 (echo_of 3 111) awaiting_ack) as [_ H].
    + eexists. reflexivity.
    + apply (bool_decide_unpack _). vm_compute. exact I.
    + destruct H as [_ H]; [vm_compute; reflexivity|vm_compute; reflexivity|].
      edestruct (H 1) as [_ H'].
      * vm_compute. reflexivity.
      * vm_compute. reflexivity.
      * vm_compute. discriminate.
      * apply H'; [vm_compute; reflexivity|vm_compute; discriminate].
Defined.

Lemma on_blame_timeout_spec_witness :
  on_blame_timeout 1 in_transition =
    Ret tt (with_out (out in_transition ++
                        [stop_blame_timer; do_broadcast_blame (own_blame in_transition)])
              in_transition) /\
  on_blame_timeout 1 initial =
    Ret tt (with_out (out initial ++ [stop_blame_timer; do_broadcast_blame (own_blame initial)])
              (blame_counted 0 (PartCert.mk 7 (Blame.proof_obj_hash toy_hashing 0))
                 (QuorumCert.mk (Blame.proof_obj_hash toy_hashing 0) [] false) initial)).
Proof.
  split.
  - destruct (on_blame_timeout_spec 1 in_transition (QuorumCert.mk 0 [] false)) as [H _].
    apply H. left. vm_compute. reflexivity.
  - destruct (on_blame_timeout_spec 1 initial
                (QuorumCert.mk (Blame.proof_obj_hash toy_hashing 0) [] false)) as [_ H].
    apply H.
    + vm_compute. reflexivity.
    + vm_compute. reflexivity.
    + apply (bool_decide_unpack _). vm_compute. exact I.
    + vm_compute. reflexivity.
Defined.

Lemma hqc_never_unset_witness :
  exists first second hb,
    hqc proposed2 = (Some first, Some second) /\ heap proposed2 !! first = Some hb.
Proof.
  set (s0 := state_after 0 (In_add_replicas four_replicas) (replica0 2)).
  set (g := default (Block_genesis toy_hashing) (heap s0 !! 0)).
  destruct (hqc_never_unset 1 delta1 s0 g) as (s1 & E & _ & H); [vm_compute; reflexivity|].
  apply H.
  assert (s1 = state_after 0 [In_on_init 1 delta1] s0) as ->.
  { unfold state_after, run. cbn [forM_ step]. unfold mbind, M_bind. rewrite E. reflexivity. }
  apply (run_reaches 20 [In_on_propose [1] [0] []; In_on_propose [2] [1] []]).
  vm_compute. reflexivity.
Defined.

Lemma chained_decide s :
  bool_decide (map_Forall (fun _ b => link_ok s b = true) (heap s)) = true -> chained s.
Proof. apply bool_decide_eq_true. Qed.

Lemma delivered_blocks_chained_witness :
  exists b pb,
    heap chain5 !! 3 = Some b /\ heap chain5 !! 2 = Some pb /\
    head (parents b) = Some 2 /\ delivered pb = true /\
    height b = (height pb + 1) mod uint32_max.
Proof.
  set (b := default (Block_genesis toy_hashing) (heap chain5 !! 3)).
  assert (Hb : heap chain5 !! 3 = Some b) by (vm_compute; reflexivity).
  assert (Hr : reaches (replica0 1) chain5).
  { apply (run_reaches 20
      (setup ++ [In_on_propose [1] [0] []; In_on_propose [2] [1] []; In_on_propose [3] [2] [];
                 In_on_propose [4] [3] []; In_on_propose [5] [4] []; In_on_commit_timeout 5])).
    vm_compute. reflexivity. }
  assert (Hc : chained (replica0 1)) by (apply chained_decide; vm_compute; reflexivity).
  destruct (delivered_blocks_chained (replica0 1) chain5 Hr Hc 3 b 2 Hb)
    as (pb & Hpb & Hdp & Hh); [vm_compute; reflexivity..|].
  exists b, pb. split; [exact Hb|]. split; [exact Hpb|]. split; [vm_compute; reflexivity|].
  split; [exact Hdp|exact Hh].
Defined.
